(** * ce_bench: renaming SQL identifiers in queries and schemas

    A shallow embedding of

    - [datasets/bird/sql_mapper.py]: the structural mapper, which rewrites
      the tree sqlglot parses, and its batch driver;
    - [datasets/leetcode/sql_mapper.py]: the textual mapper, which
      substitutes with regular expressions, and its batch driver;
    - [mapping/map.py]: the schema anonymizer;
    - [datasets/leetcode/get_labeled.py]: the rule that labels a row from
      its list of states;
    - [datasets/leetcode/convert_to_csv.py]: the database identifier taken
      from a file path.

    Text is ASCII: a [string] is a Python [str] whose code points are all
    below 128, so that [str.upper], [len], the regular expression classes
    [\w] and [\b] and case-insensitive matching are the ASCII ones.

    sqlglot is not part of the repository.  Its parser and its SQL generator
    are Section variables; its tree type, with the accessors and traversals
    the sources call, is modelled here. *)

From stdpp Require Import gmap strings.
From Stdlib Require Import String Ascii List Arith Lia Bool.
From Stdlib Require Import Decimal DecimalNat DecimalString.
From Stdlib Require Import Sorted Permutation FinFun.
Import ListNotations.

Local Open Scope string_scope.
Local Open Scope list_scope.
Local Open Scope nat_scope.

(** ** Python values that can fail

    A computation that may raise is an [option]: [None] stands for any
    exception, which is all that [except Exception] distinguishes. *)

Definition bind {A B : Type} (x : option A) (k : A -> option B) : option B :=
  match x with
  | Some a => k a
  | None => None
  end.

Notation "x <- c ;; k" := (bind c (fun x => k))
  (at level 100, c at next level, right associativity).

(** [for x in xs: acc = step acc x], where [step] may raise. *)
Fixpoint foldM {A B : Type} (step : B -> A -> option B) (xs : list A) (acc : B)
  : option B :=
  match xs with
  | [] => Some acc
  | x :: xs' => acc' <- step acc x ;; foldM step xs' acc'
  end.

(** [[f x for x in xs]], where [f] may raise. *)
Fixpoint mapM {A B : Type} (f : A -> option B) (xs : list A) : option (list B) :=
  match xs with
  | [] => Some []
  | x :: xs' => y <- f x ;; ys <- mapM f xs' ;; Some (y :: ys)
  end.

(** ** ASCII text *)

Module Text.

Definition code (c : ascii) : nat := nat_of_ascii c.

Definition is_lower (c : ascii) : bool := (97 <=? code c) && (code c <=? 122).
Definition is_upper (c : ascii) : bool := (65 <=? code c) && (code c <=? 90).
Definition is_digit (c : ascii) : bool := (48 <=? code c) && (code c <=? 57).
Definition is_octdigit (c : ascii) : bool := (48 <=? code c) && (code c <=? 55).
Definition is_letter (c : ascii) : bool := is_lower c || is_upper c.

(** The class [\w]: letters, digits and the underscore. *)
Definition is_word (c : ascii) : bool :=
  is_letter c || is_digit c || (code c =? 95).

Definition upper_char (c : ascii) : ascii :=
  if is_lower c then ascii_of_nat (code c - 32) else c.

(** [s.upper()] *)
Fixpoint upper (s : string) : string :=
  match s with
  | EmptyString => EmptyString
  | String c s' => String (upper_char c) (upper s')
  end.

(** [s.startswith(p)] *)
Fixpoint startswith (p s : string) : bool :=
  match p, s with
  | EmptyString, _ => true
  | String a p', String b s' => Ascii.eqb a b && startswith p' s'
  | String _ _, EmptyString => false
  end.

(** [p in s] *)
Fixpoint contains (p s : string) : bool :=
  startswith p s ||
  match s with
  | EmptyString => false
  | String _ s' => contains p s'
  end.

(** [str(n)] for a non-negative integer. *)
Definition str_of_nat (n : nat) : string :=
  NilEmpty.string_of_uint (Nat.to_uint n).

End Text.

(** ** Python dictionaries

    A [dict] keeps its keys in insertion order, and [sorted] is stable, so
    the order of the items is observable: a dictionary is the list of its
    items, oldest key first, with no key twice. *)

Module Dict.

Definition t (V : Type) : Type := list (string * V).

(** [d.get(k)]; [k in d] is [is_Some (get d k)]. *)
Fixpoint get {V : Type} (d : t V) (k : string) : option V :=
  match d with
  | [] => None
  | (k', v) :: d' => if String.eqb k' k then Some v else get d' k
  end.

Definition mem {V : Type} (d : t V) (k : string) : bool :=
  match get d k with Some _ => true | None => false end.

(** [d[k] = v]: an existing key keeps its place, a new key goes last. *)
Fixpoint set {V : Type} (d : t V) (k : string) (v : V) : t V :=
  match d with
  | [] => [(k, v)]
  | (k', v') :: d' =>
      if String.eqb k' k then (k, v) :: d' else (k', v') :: set d' k v
  end.

Definition keys {V : Type} (d : t V) : list string := map fst d.
Definition values {V : Type} (d : t V) : list V := map snd d.

(** [{**d1, **d2}] *)
Definition merge {V : Type} (d1 d2 : t V) : t V :=
  fold_left (fun acc kv => set acc (fst kv) (snd kv)) d2 d1.

(** [sorted(d.items(), key=lambda x: len(x[0]), reverse=True)]: a stable
    sort, so among keys of one length the dictionary's order is kept. *)
Fixpoint insert_by_len {V : Type} (x : string * V) (l : list (string * V))
  : list (string * V) :=
  match l with
  | [] => [x]
  | y :: l' =>
      if String.length (fst x) <? String.length (fst y)
      then y :: insert_by_len x l'
      else x :: y :: l'
  end.

Fixpoint sorted_by_len_desc {V : Type} (items : list (string * V))
  : list (string * V) :=
  match items with
  | [] => []
  | x :: items' => insert_by_len x (sorted_by_len_desc items')
  end.

End Dict.

(** ** Python's [re.sub], for the patterns the sources build

    Every pattern is [re.escape(name)], which matches [name] literally,
    either between two [\b] or between two quote characters.  The flag
    [re.IGNORECASE] is the argument [icase]. *)

Module Re.

Record pattern : Type := { bounded : bool; literal : string }.

(** [rf'\b{re.escape(name)}\b'] *)
Definition word (name : string) : pattern :=
  {| bounded := true; literal := name |}.

(** [rf'`{re.escape(name)}`'] and [rf'"{re.escape(name)}"'] *)
Definition quoted (q : ascii) (name : string) : pattern :=
  {| bounded := false; literal := String q (name ++ String q EmptyString) |}.

Definition backtick : ascii := "096"%char.
Definition dquote : ascii := "034"%char.
Definition backslash : ascii := "092"%char.

Definition same_char (icase : bool) (a b : ascii) : bool :=
  if icase then Ascii.eqb (Text.upper_char a) (Text.upper_char b)
  else Ascii.eqb a b.

Definition is_word_opt (c : option ascii) : bool :=
  match c with Some c => Text.is_word c | None => false end.

(** [\b] between the character before a position and the one after it;
    the two ends of the text count as non-word characters. *)
Definition boundary (prev next : option ascii) : bool :=
  xorb (is_word_opt prev) (is_word_opt next).

Definition head (s : string) : option ascii :=
  match s with EmptyString => None | String c _ => Some c end.

(** Matches [lit] at the start of [s]; gives the last character consumed
    ([last] when [lit] is empty) and the text after the match. *)
Fixpoint match_lit (icase : bool) (lit s : string) (last : option ascii)
  : option (option ascii * string) :=
  match lit with
  | EmptyString => Some (last, s)
  | String a lit' =>
      match s with
      | EmptyString => None
      | String b s' =>
          if same_char icase a b then match_lit icase lit' s' (Some b)
          else None
      end
  end.

(** The length of the match of [p] at the start of [s], where [prev] is
    the character before it. *)
Definition match_at (p : pattern) (icase : bool) (prev : option ascii)
    (s : string) : option nat :=
  if bounded p && negb (boundary prev (head s)) then None
  else
    match match_lit icase (literal p) s prev with
    | None => None
    | Some (last, rest) =>
        if bounded p && negb (boundary last (head rest)) then None
        else Some (String.length (literal p))
    end.

(** *** The replacement template

    A replacement without a backslash is inserted as it is.  With a
    backslash it is a template (Python 3.12's [re._parser.parse_template],
    for a pattern without groups): [\g<0>] is the whole match, the
    escapes [\a \b \f \n \r \t \v \\] and the octal escapes are one
    character, a backslash before a character that is not an ASCII
    letter or digit stays, and everything else raises [re.error]. *)

Inductive titem : Type :=
| Chr (c : ascii)
| Group0.

Fixpoint expand (t : list titem) (matched : string) : string :=
  match t with
  | [] => EmptyString
  | Chr c :: t' => String c (expand t' matched)
  | Group0 :: t' => matched ++ expand t' matched
  end.

Definition octal (c : ascii) : nat := Text.code c - 48.

(** [ESCAPES] of [re._parser] *)
Definition escape_of (c : ascii) : option ascii :=
  if Ascii.eqb c "a" then Some "007"%char
  else if Ascii.eqb c "b" then Some "008"%char
  else if Ascii.eqb c "f" then Some "012"%char
  else if Ascii.eqb c "n" then Some "010"%char
  else if Ascii.eqb c "r" then Some "013"%char
  else if Ascii.eqb c "t" then Some "009"%char
  else if Ascii.eqb c "v" then Some "011"%char
  else if Ascii.eqb c backslash then Some backslash
  else None.

(** [s.getuntil(">", "group name")]: the name and the text after [>]. *)
Fixpoint getuntil (s : string) : option (string * string) :=
  match s with
  | EmptyString => None
  | String c s' =>
      if Ascii.eqb c ">" then Some (EmptyString, s')
      else
        match getuntil s' with
        | Some (name, rest) => Some (String c name, rest)
        | None => None
        end
  end.

Fixpoint all_zero (name : string) : bool :=
  match name with
  | EmptyString => true
  | String c name' => Ascii.eqb c "0" && all_zero name'
  end.

Fixpoint parse_template_aux (fuel : nat) (s : string) : option (list titem) :=
  match fuel with
  | 0 => None
  | S fuel' =>
      match s with
      | EmptyString => Some []
      | String c rest =>
          if negb (Ascii.eqb c backslash) then
            t <- parse_template_aux fuel' rest ;; Some (Chr c :: t)
          else
            match rest with
            | EmptyString => None
            | String d rest1 =>
                if Ascii.eqb d "g" then
                  match rest1 with
                  | String lt rest2 =>
                      if Ascii.eqb lt "<" then
                        match getuntil rest2 with
                        | Some (String n name, rest3) =>
                            if all_zero (String n name) then
                              t <- parse_template_aux fuel' rest3 ;;
                              Some (Group0 :: t)
                            else None
                        | _ => None
                        end
                      else None
                  | EmptyString => None
                  end
                else if Ascii.eqb d "0" then
                  match rest1 with
                  | String e rest2 =>
                      if Text.is_octdigit e then
                        match rest2 with
                        | String f rest3 =>
                            if Text.is_octdigit f then
                              t <- parse_template_aux fuel' rest3 ;;
                              Some (Chr (ascii_of_nat (8 * octal e + octal f)) :: t)
                            else
                              t <- parse_template_aux fuel' rest2 ;;
                              Some (Chr (ascii_of_nat (octal e)) :: t)
                        | EmptyString => Some [Chr (ascii_of_nat (octal e))]
                        end
                      else
                        t <- parse_template_aux fuel' rest1 ;;
                        Some (Chr (ascii_of_nat 0) :: t)
                  | EmptyString => Some [Chr (ascii_of_nat 0)]
                  end
                else if Text.is_digit d then
                  match rest1 with
                  | String e (String f rest3) =>
                      if Text.is_octdigit d && Text.is_octdigit e
                         && Text.is_octdigit f
                         && (64 * octal d + 8 * octal e + octal f <=? 255)
                      then
                        t <- parse_template_aux fuel' rest3 ;;
                        Some (Chr (ascii_of_nat
                                     (64 * octal d + 8 * octal e + octal f)) :: t)
                      else None
                  | _ => None
                  end
                else
                  match escape_of d with
                  | Some e =>
                      t <- parse_template_aux fuel' rest1 ;; Some (Chr e :: t)
                  | None =>
                      if Text.is_letter d then None
                      else
                        t <- parse_template_aux fuel' rest1 ;;
                        Some (Chr backslash :: Chr d :: t)
                  end
            end
      end
  end.

(** One step of fuel per character is enough. *)
Definition parse_template (repl : string) : option (list titem) :=
  parse_template_aux (S (String.length repl)) repl.

(** The scan of [re.sub]: leftmost matches that do not overlap, each one
    replaced, the text between them kept.  [skip] counts the characters of
    the current match still to pass over; an empty match (only the pattern
    [\b\b] of an empty name has one) is replaced and the scan moves on by
    one character. *)
Fixpoint sub_from (p : pattern) (icase : bool) (t : list titem)
    (prev : option ascii) (skip : nat) (s : string) : string :=
  match s with
  | EmptyString =>
      match skip, match_at p icase prev EmptyString with
      | 0, Some _ => expand t EmptyString
      | _, _ => EmptyString
      end
  | String c rest =>
      match skip with
      | S k => sub_from p icase t (Some c) k rest
      | 0 =>
          match match_at p icase prev s with
          | Some (S k) =>
              expand t (String.substring 0 (S k) s)
              ++ sub_from p icase t (Some c) k rest
          | Some 0 =>
              expand t EmptyString
              ++ String c (sub_from p icase t (Some c) 0 rest)
          | None => String c (sub_from p icase t (Some c) 0 rest)
          end
      end
  end.

(** [re.sub(pattern, repl, s)], with [flags=re.IGNORECASE] when [icase]. *)
Definition sub (p : pattern) (icase : bool) (repl s : string) : option string :=
  t <- parse_template repl ;;
  Some (sub_from p icase t None 0 s).

End Re.

(** ** sqlglot's expression trees

    An [Expression] of sqlglot has a class and a dictionary [args] whose
    values are strings, expressions, lists of expressions, flags or [None].
    The type below is the type of these values; the nodes of a tree are the
    values built with [Expr]. *)

Module Sqlglot.

(** The classes the sources test for or read names from.  [Func] is any
    subclass of [exp.Func]; [Other] is any class that keeps the [name] of
    [exp.Expression]. *)
Inductive Class : Type :=
| Table | Column | Identifier | Literal | Var | Star | Null
| Create | Schema | ColumnDef
| Func (cls : string)
| Other (cls : string).

Definition Class_eq_dec (a b : Class) : {a = b} + {a <> b}.
Proof. decide equality; apply string_dec. Defined.

#[warnings="-register-all"]
Inductive Expression : Type :=
| Expr (cls : Class) (args : list (string * Expression))
| Str (s : string)
| Seq (es : list Expression)
| Flag (b : bool)
| NoneV.

(** [isinstance(v, cls)] *)
Definition isinstance (v : Expression) (c : Class) : bool :=
  match v with
  | Expr cls _ => if Class_eq_dec cls c then true else false
  | _ => false
  end.

(** [isinstance(v, Expression)] *)
Definition is_expression (v : Expression) : bool :=
  match v with Expr _ _ => true | _ => false end.

Definition is_func (c : Class) : bool :=
  match c with Func _ => true | _ => false end.

(** [node.args.get(key)] *)
Definition arg (key : string) (node : Expression) : Expression :=
  match node with
  | Expr _ args =>
      match Dict.get args key with Some v => v | None => NoneV end
  | _ => NoneV
  end.

(** [node.set(key, value)], for a [value] that is not [None]. *)
Definition set (key : string) (value : Expression) (node : Expression)
  : Expression :=
  match node with
  | Expr cls args => Expr cls (Dict.set args key value)
  | _ => node
  end.

(** [Identifier(this=name)] *)
Definition mk_identifier (name : string) : Expression :=
  Expr Identifier [("this", Str name)].

(** [node.text(key)]: the string under [key], or the string an
    identifier, literal or variable under [key] holds, or the fixed name
    of a star or a null; the empty string otherwise. *)
Definition text (key : string) (node : Expression) : string :=
  match arg key node with
  | Str s => s
  | Expr Identifier a | Expr Literal a | Expr Var a =>
      match Dict.get a "this" with Some (Str s) => s | _ => EmptyString end
  | Expr Star _ => "*"
  | Expr Null _ => "NULL"
  | _ => EmptyString
  end.

(** [node.name].  [Table] overrides it: the name of its [this], unless
    that is missing or a function; [Star] and [Null] have a fixed one.
    (The [this] of a [Table] is never a [Table] itself.) *)
Definition name (node : Expression) : string :=
  match node with
  | Expr Table _ =>
      match arg "this" node with
      | Expr c a =>
          if is_func c then EmptyString
          else
            match c with
            | Star => "*"
            | Null => "NULL"
            | _ => text "this" (Expr c a)
            end
      | _ => EmptyString
      end
  | Expr Star _ => "*"
  | Expr Null _ => "NULL"
  | _ => text "this" node
  end.

(** [column.table] *)
Definition table (node : Expression) : string := text "table" node.

(** [node.expressions]: [self.args.get("expressions") or []] *)
Definition expressions (node : Expression) : list Expression :=
  match arg "expressions" node with
  | Seq es => es
  | _ => []
  end.

(** [create.kind]: the upper-cased [kind] argument. *)
Definition kind (node : Expression) : option string :=
  match arg "kind" node with
  | Str s => Some (Text.upper s)
  | _ => None
  end.

(** [node.iter_expressions()]: the child nodes, in the order of [args]. *)
Definition children_of_arg (v : Expression) : list Expression :=
  match v with
  | Expr _ _ => [v]
  | Seq es => filter is_expression es
  | _ => []
  end.

Definition children (node : Expression) : list Expression :=
  match node with
  | Expr _ args => flat_map (fun kv => children_of_arg (snd kv)) args
  | _ => []
  end.

(** The number of levels of nodes. *)
Fixpoint depth (v : Expression) : nat :=
  match v with
  | Expr _ args =>
      S (list_max
           (map (fun kv =>
                   match snd kv with
                   | Seq es => list_max (map depth es)
                   | _ => depth (snd kv)
                   end) args))
  | _ => 0
  end.

(** The nodes [k] levels below [node], left to right. *)
Fixpoint level (k : nat) (node : Expression) : list Expression :=
  match k with
  | 0 => [node]
  | S k' => flat_map (level k') (children node)
  end.

(** [node.walk()], breadth first as sqlglot does by default: level after
    level, each from left to right. *)
Definition walk (node : Expression) : list Expression :=
  flat_map (fun k => level k node) (seq 0 (depth node)).

(** [node.find_all(cls)] *)
Definition find_all (c : Class) (node : Expression) : list Expression :=
  filter (fun n => isinstance n c) (walk node).

(** [node.transform(fun)], for a [fun] that returns the node it was given,
    changed in place or not: [fun] is applied to the node, then to the
    children the node has afterwards, one level of recursion per level of
    nodes.  [fuel] is the number of levels the recursion may go down;
    running out of it is an exception. *)
Definition transform_child (rec : Expression -> option Expression)
    (v : Expression) : option Expression :=
  match v with
  | Expr _ _ => rec v
  | _ => Some v
  end.

Definition transform_arg (rec : Expression -> option Expression)
    (kv : string * Expression) : option (string * Expression) :=
  match snd kv with
  | Seq es => es' <- mapM (transform_child rec) es ;; Some (fst kv, Seq es')
  | v => v' <- transform_child rec v ;; Some (fst kv, v')
  end.

Fixpoint transform (fuel : nat) (fun_ : Expression -> Expression)
    (node : Expression) : option Expression :=
  match fuel with
  | 0 => None
  | S fuel' =>
      match fun_ node with
      | Expr cls args =>
          args' <- mapM (transform_arg (transform fuel' fun_)) args ;;
          Some (Expr cls args')
      | other => Some other
      end
  end.

End Sqlglot.

(** [try: body / except Exception: return on_exception] *)
Definition try_except {A : Type} (body : option A) (on_exception : A) : A :=
  match body with
  | Some a => a
  | None => on_exception
  end.

(** ** The dataset and the persisted mappings

    A row of the frame the drivers read, once the columns [q1_mapped] and
    [q2_mapped] exist (the drivers add them, filled with [None], when the
    file has none).  A cell is [None] when pandas reads it as missing. *)

Module Frame.

Record Row : Type := {
  dbid : string;
  q1 : option string;
  q2 : option string;
  q1_mapped : option string;
  q2_mapped : option string
}.

Definition set_q1_mapped (v : option string) (r : Row) : Row :=
  {| dbid := dbid r; q1 := q1 r; q2 := q2 r;
     q1_mapped := v; q2_mapped := q2_mapped r |}.

Definition set_q2_mapped (v : option string) (r : Row) : Row :=
  {| dbid := dbid r; q1 := q1 r; q2 := q2 r;
     q1_mapped := q1_mapped r; q2_mapped := v |}.

(** [if q:] for a cell read with [row[..] if pd.notna(row[..]) else None] *)
Definition truthy (q : option string) : bool :=
  match q with
  | Some (String _ _) => true
  | _ => false
  end.

(** [schemas.json]: for each database identifier, the dictionaries
    [["mapping"]["tables"]] and [["mapping"]["columns"]]. *)
Definition Schemas : Type := Dict.t (Dict.t string * Dict.t string).

(** [for idx, row in df.iterrows(): body], where the body writes the
    row [body row] back at [idx] with [df.at]. *)
Definition iterrows (body : Row -> Row) (df : list Row) : list Row :=
  fold_left
    (fun df idx =>
       match df !! idx with
       | Some row => <[idx := body row]> df
       | None => df
       end)
    (seq 0 (length df)) df.

End Frame.

(** ** [datasets/bird/sql_mapper.py] *)

Module Bird.

Import Sqlglot Frame.

Record SQLMapper : Type := {
  table_mapping : Dict.t string;
  column_mapping : Dict.t string
}.

(** [{k.upper(): v for k, v in mapping.items()}] *)
Definition upper_keys (mapping : Dict.t string) : Dict.t string :=
  fold_left (fun acc kv => Dict.set acc (Text.upper (fst kv)) (snd kv))
            mapping [].

(** [SQLMapper.__init__] *)
Definition init (table_mapping column_mapping : Dict.t string) : SQLMapper :=
  {| table_mapping := upper_keys table_mapping;
     column_mapping := upper_keys column_mapping |}.

Section WithSqlglot.

(** [parse_one(sql, dialect="sqlite")]; [None] when it raises. *)
Variable parse_one : string -> option Expression.

(** [node.sql(dialect="sqlite", pretty=pretty)]; [None] when it raises. *)
Variable sql : Expression -> bool -> option string.

(** The levels of recursion [transform] may use. *)
Variable limit : nat.

Definition extract_tables_and_columns (self : SQLMapper) (sql_query : string)
  : gset string * gset string :=
  try_except
    (parsed <- parse_one sql_query ;;
     let tables : gset string :=
       list_to_set
         (map (fun table => Text.upper (name table)) (find_all Table parsed)) in
     let columns : gset string :=
       list_to_set
         (map (fun column => Text.upper (name column)) (find_all Column parsed)) in
     Some (tables, columns))
    (∅, ∅).

Definition transform_table (self : SQLMapper) (node : Expression)
  : Expression :=
  if isinstance node Table then
    let original_name := Text.upper (name node) in
    match Dict.get (table_mapping self) original_name with
    | Some mapped => set "this" (mk_identifier mapped) node
    | None => node
    end
  else node.

Definition transform_column (self : SQLMapper) (node : Expression)
  : Expression :=
  if isinstance node Column then
    let node1 :=
      match table node with
      | EmptyString => node
      | String _ _ =>
          let original_table_name := Text.upper (table node) in
          match Dict.get (table_mapping self) original_table_name with
          | Some mapped => set "table" (mk_identifier mapped) node
          | None => node
          end
      end in
    let original_name := Text.upper (name node1) in
    match Dict.get (column_mapping self) original_name with
    | Some mapped => set "this" (mk_identifier mapped) node1
    | None => node1
    end
  else node.

Definition map_sql_query (self : SQLMapper) (sql_query : string)
    (pretty : bool) : option string :=
  try_except
    (parsed <- parse_one sql_query ;;
     transformed <- transform limit (transform_table self) parsed ;;
     transformed <- transform limit (transform_column self) transformed ;;
     text <- sql transformed pretty ;;
     Some (Some text))
    None.

(** The body of the loop of [process_bird_csv]. *)
Definition process_row (schemas_data : Schemas) (row : Row) : Row :=
  let q1 := q1 row in
  let q2 := q2 row in
  let mapper :=
    match Dict.get schemas_data (dbid row) with
    | Some (table_mapping, column_mapping) =>
        init table_mapping column_mapping
    | None => init [] []
    end in
  let row :=
    if truthy q1
    then set_q1_mapped (map_sql_query mapper (default EmptyString q1) false) row
    else row in
  if truthy q2
  then set_q2_mapped (map_sql_query mapper (default EmptyString q2) false) row
  else row.

Definition process_bird_csv (schemas_data : Schemas) (df : list Row)
  : list Row :=
  iterrows (process_row schemas_data) df.

End WithSqlglot.

End Bird.

(** ** [datasets/leetcode/sql_mapper.py] *)

Module Leetcode.

Import Frame.

Record SQLMapper : Type := {
  table_mapping : Dict.t string;
  column_mapping : Dict.t string
}.

Definition upper_keys (mapping : Dict.t string) : Dict.t string :=
  fold_left (fun acc kv => Dict.set acc (Text.upper (fst kv)) (snd kv))
            mapping [].

Definition init (table_mapping column_mapping : Dict.t string) : SQLMapper :=
  {| table_mapping := upper_keys table_mapping;
     column_mapping := upper_keys column_mapping |}.

(** The three patterns tried for one name, in this order. *)
Definition patterns (original : string) : list Re.pattern :=
  [ Re.word original;
    Re.quoted Re.backtick original;
    Re.quoted Re.dquote original ].

(** The body of both loops over the sorted items. *)
Definition substitute (mapped_query : string) (item : string * string)
  : option string :=
  foldM (fun mapped_query pattern =>
           Re.sub pattern true (snd item) mapped_query)
        (patterns (fst item)) mapped_query.

Definition _fallback_mapping (self : SQLMapper) (sql_query : string)
  : option string :=
  try_except
    (let mapped_query := sql_query in
     let sorted_tables := Dict.sorted_by_len_desc (table_mapping self) in
     mapped_query <- foldM substitute sorted_tables mapped_query ;;
     let sorted_columns := Dict.sorted_by_len_desc (column_mapping self) in
     mapped_query <- foldM substitute sorted_columns mapped_query ;;
     Some (Some mapped_query))
    None.

Definition map_sql_query (self : SQLMapper) (sql_query : string)
    (pretty : bool) : option string :=
  _fallback_mapping self sql_query.

(** The body of the loop of [process_bird_csv]; [str(dbid)] is [dbid]
    for an identifier that is text. *)
Definition process_row (schemas_data : Schemas) (row : Row) : Row :=
  let q1 := q1 row in
  let q2 := q2 row in
  let dbid_str := dbid row in
  let mapper :=
    match Dict.get schemas_data dbid_str with
    | Some (table_mapping, column_mapping) =>
        init table_mapping column_mapping
    | None => init [] []
    end in
  let row :=
    if truthy q1
    then set_q1_mapped (map_sql_query mapper (default EmptyString q1) false) row
    else row in
  if truthy q2
  then set_q2_mapped (map_sql_query mapper (default EmptyString q2) false) row
  else row.

Definition process_bird_csv (schemas_data : Schemas) (df : list Row)
  : list Row :=
  iterrows (process_row schemas_data) df.

End Leetcode.

(** ** [mapping/map.py] *)

Module Mapping.

Import Sqlglot.

(** The four local variables the scan updates. *)
Record state : Type := {
  table_mapping : Dict.t string;
  column_mapping : Dict.t string;
  table_counter : nat;
  column_counter : nat
}.

Definition initial : state :=
  {| table_mapping := []; column_mapping := [];
     table_counter := 1; column_counter := 1 |}.

Definition nonempty (s : string) : bool :=
  match s with EmptyString => false | String _ _ => true end.

(** Lines 45-48 *)
Definition add_table (table_name : string) (st : state) : state :=
  if nonempty table_name && negb (Dict.mem (table_mapping st) table_name) then
    let dummy_table := ("t" ++ Text.str_of_nat (table_counter st))%string in
    {| table_mapping := Dict.set (table_mapping st) table_name dummy_table;
       column_mapping := column_mapping st;
       table_counter := table_counter st + 1;
       column_counter := column_counter st |}
  else st.

(** Lines 57-60 *)
Definition add_column (column_name : string) (st : state) : state :=
  if nonempty column_name && negb (Dict.mem (column_mapping st) column_name) then
    let dummy_column := ("c" ++ Text.str_of_nat (column_counter st))%string in
    {| table_mapping := table_mapping st;
       column_mapping := Dict.set (column_mapping st) column_name dummy_column;
       table_counter := table_counter st;
       column_counter := column_counter st + 1 |}
  else st.

(** Lines 53-60: [expr.this.name] raises when [expr.this] is no node. *)
Definition scan_expr (st : state) (expr : Expression) : option state :=
  if isinstance expr ColumnDef then
    match arg "this" expr with
    | Expr _ _ => Some (add_column (name (arg "this" expr)) st)
    | _ => None
    end
  else Some st.

(** Lines 29-60.  When [statement.this] is no node the source takes the
    name from [str(statement.this)] and then raises on
    [statement.this.expressions]; whatever it computed is lost. *)
Definition scan_statement (st : state) (statement : Expression) : option state :=
  if isinstance statement Create
     && match kind statement with
        | Some k => String.eqb k "TABLE"
        | None => false
        end
  then
    match arg "this" statement with
    | Expr _ _ =>
        let this := arg "this" statement in
        let table_name :=
          match arg "this" this with
          | Expr _ _ => name (arg "this" this)
          | _ => name this
          end in
        let st := add_table table_name st in
        match expressions this with
        | [] => Some st
        | exprs => foldM scan_expr exprs st
        end
    | _ => None
    end
  else Some st.

(** Lines 69-72 and 75-78: one substitution per item, longest name first. *)
Definition replace_names (mapping : Dict.t string) (dummy_schema : string)
  : option string :=
  foldM (fun dummy_schema item =>
           Re.sub (Re.word (fst item)) false (snd item) dummy_schema)
        (Dict.sorted_by_len_desc mapping) dummy_schema.

Section WithSqlglot.

(** [sqlglot.parse(schema_sql, dialect=sqlglot.dialects.SQLite)];
    [None] when it raises. *)
Variable parse : string -> option (list Expression).

Definition extract_and_map_schema (schema_sql : string)
  : option (string * Dict.t string) :=
  parsed <- parse schema_sql ;;
  st <- foldM scan_statement parsed initial ;;
  let mapping_dict := Dict.merge (table_mapping st) (column_mapping st) in
  let dummy_schema := schema_sql in
  dummy_schema <- replace_names (table_mapping st) dummy_schema ;;
  dummy_schema <- replace_names (column_mapping st) dummy_schema ;;
  Some (dummy_schema, mapping_dict).

End WithSqlglot.

End Mapping.

(** Lines 111-112 of [demo_schema_mapping]: the merged mapping split again
    by the first letter of the dummy names. *)

Module Demo.

Definition tables (mapping_dict : Dict.t string) : Dict.t string :=
  filter (fun kv => Text.startswith "t" (snd kv)) mapping_dict.

Definition columns (mapping_dict : Dict.t string) : Dict.t string :=
  filter (fun kv => Text.startswith "c" (snd kv)) mapping_dict.

End Demo.

(** ** [load_mapping_from_schemas_json]

    The function is the same in [datasets/bird/sql_mapper.py] and in
    [datasets/leetcode/sql_mapper.py].  What [json.load] returns is a value
    of [Json.t]; an object is a dictionary, with no key twice. *)

Module Json.

#[warnings="-register-all"]
Inductive t : Type :=
| Object (items : list (string * t))
| Array (elements : list t)
| Str (s : string)
| Other.

(** [data[key]]; [None] is the [KeyError] of an object without the key and
    the [TypeError] of a value that is no object. *)
Definition getitem (data : t) (key : string) : option t :=
  match data with
  | Object items => Dict.get items key
  | _ => None
  end.

(** [key in data] for a string [key]; [None] is the [TypeError] of a number,
    a boolean or [null]. *)
Definition contains (data : t) (key : string) : option bool :=
  match data with
  | Object items => Some (Dict.mem items key)
  | Array elements =>
      Some (existsb (fun e => match e with
                              | Str s => String.eqb s key
                              | _ => false
                              end) elements)
  | Str s => Some (Text.contains key s)
  | Other => None
  end.

End Json.

Module Loader.

Section WithFiles.

(** [json.load(open(file_path, 'r'))]; [None] when opening or loading
    raises. *)
Variable read_json : string -> option Json.t.

Definition load_mapping_from_schemas_json (file_path database_name : string)
  : Json.t * Json.t :=
  try_except
    (data <- read_json file_path ;;
     present <- Json.contains data database_name ;;
     if negb present then None
     else
       entry <- Json.getitem data database_name ;;
       mapping <- Json.getitem entry "mapping" ;;
       tables <- Json.getitem mapping "tables" ;;
       columns <- Json.getitem mapping "columns" ;;
       Some (tables, columns))
    (Json.Object [], Json.Object []).

End WithFiles.

End Loader.

(** ** The statistics both scripts print

    [results] is the frame [process_bird_csv] returns. *)

Module Stats.

Import Frame.

(** [pd.notna] of a cell *)
Definition notna (cell : option string) : bool :=
  match cell with Some _ => true | None => false end.

(** [series.sum()] of a series of booleans *)
Definition count (test : Row -> bool) (results : list Row) : nat :=
  length (filter test results).

(** [results['q1_mapped'].notna().sum()] *)
Definition q1_mapped_count (results : list Row) : nat :=
  count (fun r => notna (q1_mapped r)) results.

Definition q2_mapped_count (results : list Row) : nat :=
  count (fun r => notna (q2_mapped r)) results.

(** [(results['q1'].notna() & results['q1_mapped'].isna()).sum()] *)
Definition q1_failed_count (results : list Row) : nat :=
  count (fun r => notna (q1 r) && negb (notna (q1_mapped r))) results.

Definition q2_failed_count (results : list Row) : nat :=
  count (fun r => notna (q2 r) && negb (notna (q2_mapped r))) results.

End Stats.

(** ** [datasets/leetcode/get_labeled.py]

    Lines 26-33: the label of a row, from the list of states that
    [ast.literal_eval] gave; the states are strings. *)

Module Labels.

Definition nonempty (states : list string) : bool :=
  match states with [] => false | _ :: _ => true end.

(** [states[-1]] of a list that is not empty *)
Fixpoint last_state (states : list string) : option string :=
  match states with
  | [] => None
  | [state] => Some state
  | _ :: states' => last_state states'
  end.

Definition is_failure (state : string) : bool :=
  existsb (String.eqb state) ["NEQ"; "SYN"; "NSE"; "NIE"].

Definition correct (states : list string) : option string :=
  if nonempty states
     && match last_state states with
        | Some state => String.eqb state "TMO"
        | None => false
        end
  then Some "Y"
  else if nonempty states && existsb is_failure states then Some "N"
  else if nonempty states && forallb (fun state => String.eqb state "EQU") states
  then Some "Y"
  else None.

End Labels.

(** ** [datasets/leetcode/convert_to_csv.py]

    [Path(file_path).stem] for a POSIX path, as [pathlib] of Python 3.12
    computes it: the path is split at the slashes, the empty components and
    the components [.] are dropped, and the last one left is the name (the
    empty text when none is left); the stem is the name up to its last dot,
    unless that dot is the first or the last character of the name. *)

Module Pathlib.

(** [s.split(sep)] *)
Fixpoint split (sep : ascii) (s : string) : list string :=
  match s with
  | EmptyString => [EmptyString]
  | String c s' =>
      if Ascii.eqb c sep then EmptyString :: split sep s'
      else
        match split sep s' with
        | x :: xs => String c x :: xs
        | [] => [String c EmptyString]
        end
  end.

(** [[x for x in path.split('/') if x and x != '.']] *)
Definition parts (path : string) : list string :=
  filter (fun x => negb (String.eqb x EmptyString) && negb (String.eqb x "."))
         (split "/" path).

Definition name (path : string) : string := List.last (parts path) EmptyString.

(** [i = s.rfind('.')], given as [s[:i]] and [s[i+1:]]; [None] is [-1]. *)
Fixpoint rfind_dot (s : string) : option (string * string) :=
  match s with
  | EmptyString => None
  | String c s' =>
      match rfind_dot s' with
      | Some (before, after) => Some (String c before, after)
      | None => if Ascii.eqb c "." then Some (EmptyString, s') else None
      end
  end.

(** [name[:i] if 0 < i < len(name) - 1 else name] *)
Definition stem (path : string) : string :=
  let name := name path in
  match rfind_dot name with
  | Some (String c before, String _ _) => String c before
  | _ => name
  end.

End Pathlib.

Module Convert.

Definition extract_db_id (file_path : string) : string :=
  let filename := Pathlib.stem file_path in
  filename.

End Convert.

(** * Specifications

    Definitions the properties are stated with, and the trees sqlglot
    builds for the statements of the examples. *)

(** What [__init__] makes of the dictionary [d0] a caller supplies: the keys
    of [d] are upper-cased and pairwise different, also up to case; a value
    of [d] is the value some caller's key had, as it was; and among the
    caller's keys that are equal up to case the one supplied last gives the
    value. *)
Definition normalized (d0 d : Dict.t string) : Prop :=
  Forall (fun k => Text.upper k = k) (Dict.keys d)
  /\ NoDup (Dict.keys d)
  /\ (forall k1 k2, In k1 (Dict.keys d) -> In k2 (Dict.keys d) ->
                    Text.upper k1 = Text.upper k2 -> k1 = k2)
  /\ (forall k v, Dict.get d k = Some v ->
                  exists k0, In (k0, v) d0 /\ Text.upper k0 = k)
  /\ (forall l1 k v l2,
         d0 = l1 ++ (k, v) :: l2 ->
         (forall k', In k' (Dict.keys l2) -> Text.upper k' <> Text.upper k) ->
         Dict.get d (Text.upper k) = Some v).

Definition key_len {V : Type} (x : string * V) : nat := String.length (fst x).

(** [ "\\" not in s ] *)
Fixpoint plain (s : string) : bool :=
  match s with
  | EmptyString => true
  | String c s' => negb (Ascii.eqb c Re.backslash) && plain s'
  end.

Fixpoint chars (s : string) : list Re.titem :=
  match s with
  | EmptyString => []
  | String c s' => Re.Chr c :: chars s'
  end.

Fixpoint last_char (s : string) (before : option ascii) : option ascii :=
  match s with
  | EmptyString => before
  | String c s' => last_char s' (Some c)
  end.

(** [name] stands in [text] as a whole word, in the very case it is
    written in: with a [\b] before it and a [\b] after it. *)
Definition occurs_as_word (name text : string) : Prop :=
  exists pre post : string,
    text = (pre ++ name ++ post)%string
    /\ Re.boundary (last_char pre None) (Re.head (name ++ post)) = true
    /\ Re.boundary (last_char (pre ++ name) None) (Re.head post) = true.

(** The pieces [p], [ps] put together with [sep] between them. *)
Fixpoint join_pieces (sep p : string) (ps : list string) : string :=
  match ps with
  | [] => p
  | q :: ps' => (p ++ sep ++ join_pieces sep q ps')%string
  end.

(** The names the scan meets, in the order it meets them. *)
Definition is_create_table (statement : Sqlglot.Expression) : bool :=
  Sqlglot.isinstance statement Sqlglot.Create
  && match Sqlglot.kind statement with
     | Some k => String.eqb k "TABLE"
     | None => false
     end.

Definition table_names_of (statement : Sqlglot.Expression) : list string :=
  if is_create_table statement then
    let this := Sqlglot.arg "this" statement in
    [ match Sqlglot.arg "this" this with
      | Sqlglot.Expr _ _ => Sqlglot.name (Sqlglot.arg "this" this)
      | _ => Sqlglot.name this
      end ]
  else [].

Definition column_names_of (statement : Sqlglot.Expression) : list string :=
  if is_create_table statement then
    map (fun expr => Sqlglot.name (Sqlglot.arg "this" expr))
        (filter (fun expr => Sqlglot.isinstance expr Sqlglot.ColumnDef)
                (Sqlglot.expressions (Sqlglot.arg "this" statement)))
  else [].

(** The non-empty names of [names], each once, in the order of their first
    occurrence, without those already [seen]. *)
Fixpoint first_occurrences_from (seen names : list string) : list string :=
  match names with
  | [] => []
  | x :: names' =>
      if Mapping.nonempty x && negb (existsb (String.eqb x) seen)
      then x :: first_occurrences_from (seen ++ [x]) names'
      else first_occurrences_from seen names'
  end.

Definition first_occurrences (names : list string) : list string :=
  first_occurrences_from [] names.

(** [names] with the dummy names [prefix<start>], [prefix<start+1>], ... *)
Definition numbered (prefix : string) (start : nat) (names : list string)
  : Dict.t string :=
  combine names
          (map (fun i => (prefix ++ Text.str_of_nat i)%string)
               (seq start (length names))).

(** One mapping with its counter, and what a name does to it. *)
Definition assign1 (prefix : string) (dc : Dict.t string * nat) (name : string)
  : Dict.t string * nat :=
  if Mapping.nonempty name && negb (Dict.mem (fst dc) name)
  then (Dict.set (fst dc) name (prefix ++ Text.str_of_nat (snd dc))%string,
        snd dc + 1)
  else dc.

Definition tables_of (st : Mapping.state) : Dict.t string * nat :=
  (Mapping.table_mapping st, Mapping.table_counter st).

Definition columns_of (st : Mapping.state) : Dict.t string * nat :=
  (Mapping.column_mapping st, Mapping.column_counter st).

(** ** Statements and trees for examples

    The trees sqlglot builds for a few statements, with a parser and a
    generator that answer for these statements and raise for any other
    text or tree. *)

Module Fixture.

Import Sqlglot.

Definition identifier (name : string) : Expression :=
  Expr Identifier [("this", Str name); ("quoted", Flag false)].

Definition int_type : Expression :=
  Expr (Other "DataType") [("this", Str "INT"); ("nested", Flag false)].

Definition column_def (name : string) : Expression :=
  Expr ColumnDef [("this", identifier name); ("kind", int_type)].

Definition create_table (name : string) (columns : list string) : Expression :=
  Expr Create
    [("this", Expr Schema
                [("this", Expr Table [("this", identifier name)]);
                 ("expressions", Seq (map column_def columns))]);
     ("kind", Str "TABLE")].

Definition chests_boxes_sql : string :=
  "CREATE TABLE CHESTS (CHEST_ID INT, APPLE_COUNT INT); CREATE TABLE BOXES (BOX_ID INT, CHEST_ID INT);".

Definition chests_boxes : list Expression :=
  [ create_table "CHESTS" ["CHEST_ID"; "APPLE_COUNT"];
    create_table "BOXES" ["BOX_ID"; "CHEST_ID"] ].

Definition item_sql : string := "CREATE TABLE ITEM (ITEM INT, PRICE INT)".

Definition item : list Expression :=
  [ create_table "ITEM" ["ITEM"; "PRICE"] ].

Definition parse (schema_sql : string) : option (list Expression) :=
  if String.eqb schema_sql chests_boxes_sql then Some chests_boxes
  else if String.eqb schema_sql item_sql then Some item
  else None.

End Fixture.

Section ExpressionInduction.

Import Sqlglot.

Variable P : Expression -> Prop.
Hypothesis HExpr :
  forall cls args, Forall (fun kv => P (snd kv)) args -> P (Expr cls args).
Hypothesis HStr : forall s, P (Str s).
Hypothesis HSeq : forall es, Forall P es -> P (Seq es).
Hypothesis HFlag : forall b, P (Flag b).
Hypothesis HNone : P NoneV.

Fixpoint Expression_nested_ind (v : Expression) : P v :=
  match v with
  | Expr cls args =>
      HExpr cls args
        ((fix go (l : list (string * Expression))
            : Forall (fun kv => P (snd kv)) l :=
            match l with
            | [] => @Forall_nil _ _
            | kv :: l' =>
                @Forall_cons _ _ kv l' (Expression_nested_ind (snd kv)) (go l')
            end) args)
  | Str s => HStr s
  | Seq es =>
      HSeq es
        ((fix go (l : list Expression) : Forall P l :=
            match l with
            | [] => @Forall_nil _ _
            | e :: l' => @Forall_cons _ _ e l' (Expression_nested_ind e) (go l')
            end) es)
  | Flag b => HFlag b
  | NoneV => HNone
  end.

End ExpressionInduction.

(** [n] is [e] or a node below [e]. *)
Inductive subnode (n : Sqlglot.Expression) : Sqlglot.Expression -> Prop :=
| subnode_here : subnode n n
| subnode_below (e c : Sqlglot.Expression) :
    In c (Sqlglot.children e) -> subnode n c -> subnode n e.

Definition arg_depth (v : Sqlglot.Expression) : nat :=
  match v with
  | Sqlglot.Seq es => list_max (map Sqlglot.depth es)
  | _ => Sqlglot.depth v
  end.

Module BirdFixture.

Import Sqlglot.

Definition column (qualifier name : string) : Expression :=
  match qualifier with
  | EmptyString => Expr Column [("this", Fixture.identifier name)]
  | _ => Expr Column [("this", Fixture.identifier name);
                      ("table", Fixture.identifier qualifier)]
  end.

Definition select (columns : list Expression) (table_name : string) : Expression :=
  Expr (Other "Select")
    [("expressions", Seq columns);
     ("from", Expr (Other "From")
                [("this", Expr Table [("this", Fixture.identifier table_name)])])].

(** [parse_one] on three statements; the third has a string literal that
    is not closed, which the tokenizer refuses. *)
Definition qualified_sql : string := "SELECT T.C FROM T".
Definition lowercase_sql : string := "select a from t".
Definition broken_sql : string := "SELECT 'abc".

Definition parse_one (sql_query : string) : option Expression :=
  if String.eqb sql_query qualified_sql then Some (select [column "T" "C"] "T")
  else if String.eqb sql_query lowercase_sql then Some (select [column "" "a"] "t")
  else None.

Definition column_sql (node : Expression) : string :=
  match table node with
  | EmptyString => name node
  | qualifier => (qualifier ++ "." ++ name node)%string
  end.

Fixpoint join (sep : string) (parts : list string) : string :=
  match parts with
  | [] => EmptyString
  | [x] => x
  | x :: rest => (x ++ sep ++ join sep rest)%string
  end.

(** [node.sql(dialect="sqlite", pretty=False)] for a [Select] of columns
    from one table. *)
Definition sql (node : Expression) (pretty : bool) : option string :=
  match node, pretty with
  | Expr (Other "Select") _, false =>
      Some ("SELECT " ++ join ", " (map column_sql (expressions node))
            ++ " FROM " ++ name (arg "this" (arg "from" node)))%string
  | _, _ => None
  end.

Definition limit : nat := 1000.

End BirdFixture.

(** Both callbacks change a node by [node.set(key, Identifier(this=name))]
    only.  [apply_sets] makes these calls, given as pairs of a key and a
    name. *)
Definition apply_sets (sets : list (string * string)) (node : Sqlglot.Expression)
  : Sqlglot.Expression :=
  fold_left (fun node kn => Sqlglot.set (fst kn) (Sqlglot.mk_identifier (snd kn)) node)
            sets node.

(** The calls [transform_table] makes at a node. *)
Definition table_sets (self : Bird.SQLMapper) (node : Sqlglot.Expression)
  : list (string * string) :=
  if Sqlglot.isinstance node Sqlglot.Table then
    match Dict.get (Bird.table_mapping self) (Text.upper (Sqlglot.name node)) with
    | Some mapped => [("this", mapped)]
    | None => []
    end
  else [].

(** The calls [transform_column] makes at a node. *)
Definition column_sets (self : Bird.SQLMapper) (node : Sqlglot.Expression)
  : list (string * string) :=
  if Sqlglot.isinstance node Sqlglot.Column then
    match Sqlglot.table node with
    | EmptyString => []
    | String _ _ =>
        match Dict.get (Bird.table_mapping self) (Text.upper (Sqlglot.table node)) with
        | Some mapped => [("table", mapped)]
        | None => []
        end
    end
    ++ match Dict.get (Bird.column_mapping self) (Text.upper (Sqlglot.name node)) with
       | Some mapped => [("this", mapped)]
       | None => []
       end
  else [].

(** The tree after a pass whose callback makes the calls [sets node] at
    [node]: the calls are made at every node, and below a node at every
    child it had. *)
Fixpoint rewritten (sets : Sqlglot.Expression -> list (string * string))
    (v : Sqlglot.Expression) : Sqlglot.Expression :=
  match v with
  | Sqlglot.Expr cls args =>
      apply_sets (sets v)
        (Sqlglot.Expr cls
           (map (fun kv =>
                   (fst kv,
                    match snd kv with
                    | Sqlglot.Seq es => Sqlglot.Seq (map (rewritten sets) es)
                    | _ => rewritten sets (snd kv)
                    end)) args))
  | _ => v
  end.

Definition rewritten_arg (sets : Sqlglot.Expression -> list (string * string))
    (kv : string * Sqlglot.Expression) : string * Sqlglot.Expression :=
  (fst kv,
   match snd kv with
   | Sqlglot.Seq es => Sqlglot.Seq (map (rewritten sets) es)
   | _ => rewritten sets (snd kv)
   end).

Definition set_all (sets : list (string * string))
    (args : list (string * Sqlglot.Expression)) : list (string * Sqlglot.Expression) :=
  fold_left (fun a kn => Dict.set a (fst kn) (Sqlglot.mk_identifier (snd kn))) sets args.

(** What a pass makes of the value of an argument. *)
Definition rewritten_val (sets : Sqlglot.Expression -> list (string * string))
    (v : Sqlglot.Expression) : Sqlglot.Expression :=
  match v with
  | Sqlglot.Seq es => Sqlglot.Seq (map (rewritten sets) es)
  | _ => rewritten sets v
  end.

(** The tree [map_sql_query] hands to the generator. *)
Definition mapped_tree (self : Bird.SQLMapper) (parsed : Sqlglot.Expression)
  : Sqlglot.Expression :=
  rewritten (column_sets self) (rewritten (table_sets self) parsed).

Definition holds_text (cls : Sqlglot.Class) : Prop :=
  cls = Sqlglot.Identifier \/ cls = Sqlglot.Literal \/ cls = Sqlglot.Var.

(** The name a mapping gives: the value under the upper-cased name, or the
    name itself when the mapping has no such key. *)
Definition renamed (mapping : Dict.t string) (name : string) : string :=
  match Dict.get mapping (Text.upper name) with
  | Some mapped => mapped
  | None => name
  end.

(** [n] is [e], or lies below [e] under arguments that are not replaced at
    the nodes on the way ([sets] gives the arguments replaced at a node). *)
Inductive kept (sets : Sqlglot.Expression -> list (string * string))
    (n : Sqlglot.Expression) : Sqlglot.Expression -> Prop :=
| kept_here : kept sets n n
| kept_below (cls : Sqlglot.Class) (args : list (string * Sqlglot.Expression))
    (key : string) (v c : Sqlglot.Expression) :
    In (key, v) args ->
    ~ In key (map fst (sets (Sqlglot.Expr cls args))) ->
    In c (Sqlglot.children_of_arg v) ->
    kept sets n c ->
    kept sets n (Sqlglot.Expr cls args).

(** The arguments the mapper replaces at a node, in either pass. *)
Definition replaced (self : Bird.SQLMapper) (node : Sqlglot.Expression)
  : list (string * string) :=
  table_sets self node ++ column_sets self node.

(** The mapper a driver builds for a row. *)
Definition bird_mapper (schemas_data : Frame.Schemas) (row : Frame.Row)
  : Bird.SQLMapper :=
  match Dict.get schemas_data (Frame.dbid row) with
  | Some (table_mapping, column_mapping) => Bird.init table_mapping column_mapping
  | None => Bird.init [] []
  end.

Definition leetcode_mapper (schemas_data : Frame.Schemas) (row : Frame.Row)
  : Leetcode.SQLMapper :=
  match Dict.get schemas_data (Frame.dbid row) with
  | Some (table_mapping, column_mapping) => Leetcode.init table_mapping column_mapping
  | None => Leetcode.init [] []
  end.

Module RowFixture.

Definition no_schemas : Frame.Schemas := [].

Definition lowercase_row : Frame.Row :=
  {| Frame.dbid := "unknown_db";
     Frame.q1 := Some BirdFixture.lowercase_sql;
     Frame.q2 := None;
     Frame.q1_mapped := None;
     Frame.q2_mapped := None |}.

Definition broken_row : Frame.Row :=
  {| Frame.dbid := "unknown_db";
     Frame.q1 := Some BirdFixture.broken_sql;
     Frame.q2 := Some BirdFixture.lowercase_sql;
     Frame.q1_mapped := None;
     Frame.q2_mapped := None |}.

End RowFixture.

(** The JSON value of a dictionary of strings, and the document
    [schemas.json] that holds the mappings [schemas_data] of the drivers. *)
Definition dict_json (d : Dict.t string) : Json.t :=
  Json.Object (map (fun kv => (fst kv, Json.Str (snd kv))) d).

Definition entry_json (entry : Dict.t string * Dict.t string) : Json.t :=
  Json.Object
    [("mapping", Json.Object [("tables", dict_json (fst entry));
                              ("columns", dict_json (snd entry))])].

Definition schemas_json (schemas_data : Frame.Schemas) : Json.t :=
  Json.Object (map (fun kv => (fst kv, entry_json (snd kv))) schemas_data).

(** The two dictionaries a driver hands to [SQLMapper] for a database. *)
Definition driver_mappings (schemas_data : Frame.Schemas) (dbid : string)
  : Dict.t string * Dict.t string :=
  match Dict.get schemas_data dbid with
  | Some entry => entry
  | None => ([], [])
  end.

(** A text cut into pieces: before each [matched] piece comes a piece
    [before], and [rest] ends the text.  [rebuild f] puts the text together
    again with [f matched] for each matched piece. *)
Fixpoint rebuild (f : string -> string) (pieces : list (string * string))
    (rest : string) : string :=
  match pieces with
  | [] => rest
  | (before, matched) :: pieces' =>
      (before ++ f matched ++ rebuild f pieces' rest)%string
  end.

(** [b] is [a] with some pieces replaced by [repl], each of them [lit] up
    to the case of its letters. *)
Definition replaces (lit repl a b : string) : Prop :=
  exists (pieces : list (string * string)) (rest : string),
    a = rebuild (fun matched => matched) pieces rest
    /\ Forall (fun piece => Text.upper (snd piece) = Text.upper lit) pieces
    /\ b = rebuild (fun _ => repl) pieces rest.

(** The character [c] does not occur in [s]. *)
Fixpoint no_char (c : ascii) (s : string) : bool :=
  match s with
  | EmptyString => true
  | String d s' => negb (Ascii.eqb d c) && no_char c s'
  end.

(** [name.upper() in text.upper()] *)
Definition icontains (name text : string) : bool :=
  Text.contains (Text.upper name) (Text.upper text).


(** A statement the scan of the anonymizer gets through: if it creates a
    table, its [this] is a node, and the [this] of each of its column
    definitions is a node. *)
Definition scannable (statement : Sqlglot.Expression) : bool :=
  if is_create_table statement then
    Sqlglot.is_expression (Sqlglot.arg "this" statement)
    && forallb (fun expr =>
                  if Sqlglot.isinstance expr Sqlglot.ColumnDef
                  then Sqlglot.is_expression (Sqlglot.arg "this" expr)
                  else true)
               (Sqlglot.expressions (Sqlglot.arg "this" statement))
  else true.

(** * Properties *)

Example re_sub_word_icase :
  Re.sub (Re.word "AB") true "x2" "SELECT ab, abc FROM AB.ab" =
  Some "SELECT x2, abc FROM x2.x2".
Proof. reflexivity. Qed.

Example re_sub_group0 :
  Re.sub (Re.word "AB") false "[\g<0>]\n" "AB" =
  Some (String "[" (String "A" (String "B" (String "]" (String "010" EmptyString))))).
Proof. reflexivity. Qed.

(** ** Text and dictionaries *)

Lemma upper_char_idem (c : ascii) :
  Text.upper_char (Text.upper_char c) = Text.upper_char c.
Proof. destruct c as [[] [] [] [] [] [] [] []]; reflexivity. Qed.

Lemma upper_idem (s : string) : Text.upper (Text.upper s) = Text.upper s.
Proof.
  induction s as [|c s IH]; simpl; [reflexivity|].
  now rewrite upper_char_idem, IH.
Qed.

Lemma dict_get_set_eq {V : Type} (d : Dict.t V) (k : string) (v : V) :
  Dict.get (Dict.set d k v) k = Some v.
Proof.
  induction d as [|[k' v'] d IH]; simpl.
  - now rewrite String.eqb_refl.
  - destruct (String.eqb k' k) eqn:E; simpl.
    + now rewrite String.eqb_refl.
    + now rewrite E.
Qed.

Lemma dict_get_set_ne {V : Type} (d : Dict.t V) (k k0 : string) (v : V) :
  k <> k0 -> Dict.get (Dict.set d k v) k0 = Dict.get d k0.
Proof.
  intros Hne. induction d as [|[k' v'] d IH]; simpl.
  - destruct (String.eqb k k0) eqn:E; [|reflexivity].
    apply String.eqb_eq in E. contradiction.
  - destruct (String.eqb k' k) eqn:E; simpl.
    + apply String.eqb_eq in E. subst k'.
      destruct (String.eqb k k0) eqn:E0; [|reflexivity].
      apply String.eqb_eq in E0. contradiction.
    + now rewrite IH.
Qed.

Lemma dict_get_In {V : Type} (d : Dict.t V) (k : string) (v : V) :
  Dict.get d k = Some v -> In (k, v) d.
Proof.
  induction d as [|[k' v'] d IH]; simpl; [discriminate|].
  destruct (String.eqb k' k) eqn:E.
  - apply String.eqb_eq in E. intros [= ->]. left. now subst.
  - intros H. right. now apply IH.
Qed.

Lemma dict_get_None {V : Type} (d : Dict.t V) (k : string) :
  Dict.get d k = None <-> ~ In k (Dict.keys d).
Proof.
  induction d as [|[k' v'] d IH]; simpl.
  - tauto.
  - destruct (String.eqb k' k) eqn:E.
    + apply String.eqb_eq in E. split; [discriminate|]. intros H. exfalso. auto.
    + apply String.eqb_neq in E. rewrite IH. tauto.
Qed.

Lemma dict_In_get {V : Type} (d : Dict.t V) (k : string) (v : V) :
  NoDup (Dict.keys d) -> In (k, v) d -> Dict.get d k = Some v.
Proof.
  induction d as [|[k' v'] d IH]; simpl; [tauto|].
  intros Hnd [H|H]; inversion Hnd as [|? ? Hnin Hnd']; subst.
  - injection H as -> ->. now rewrite String.eqb_refl.
  - destruct (String.eqb k' k) eqn:E.
    + apply String.eqb_eq in E. subst k'. exfalso. apply Hnin.
      change k with (fst (k, v)). now apply in_map.
    + now apply IH.
Qed.

Lemma dict_keys_set {V : Type} (d : Dict.t V) (k : string) (v : V) :
  Dict.keys (Dict.set d k v) =
  if Dict.mem d k then Dict.keys d else Dict.keys d ++ [k].
Proof.
  unfold Dict.mem. induction d as [|[k' v'] d IH]; simpl; [reflexivity|].
  destruct (String.eqb k' k) eqn:E; simpl.
  - apply String.eqb_eq in E. now subst.
  - rewrite IH. now destruct (Dict.get d k).
Qed.

Lemma dict_values_set_new {V : Type} (d : Dict.t V) (k : string) (v : V) :
  Dict.mem d k = false -> Dict.set d k v = d ++ [(k, v)].
Proof.
  unfold Dict.mem. induction d as [|[k' v'] d IH]; simpl; [reflexivity|].
  destruct (String.eqb k' k) eqn:E; [discriminate|].
  intros H. now rewrite IH.
Qed.

Lemma dict_set_NoDup {V : Type} (d : Dict.t V) (k : string) (v : V) :
  NoDup (Dict.keys d) -> NoDup (Dict.keys (Dict.set d k v)).
Proof.
  intros Hnd. rewrite dict_keys_set. unfold Dict.mem.
  destruct (Dict.get d k) eqn:E; [assumption|].
  apply dict_get_None in E.
  apply NoDup_app; [assumption| |].
  - repeat constructor. intros [].
  - intros x Hx [<-|[]]. contradiction.
Qed.

(** ** [SQLMapper.__init__] *)

Section UpperKeys.

Let step (acc : Dict.t string) (kv : string * string) : Dict.t string :=
  Dict.set acc (Text.upper (fst kv)) (snd kv).

Lemma upper_keys_fixed (d0 acc : Dict.t string) :
  Forall (fun k => Text.upper k = k) (Dict.keys acc) ->
  Forall (fun k => Text.upper k = k) (Dict.keys (fold_left step d0 acc)).
Proof.
  revert acc. induction d0 as [|[k v] d0 IH]; intros acc Hacc; simpl; [assumption|].
  apply IH. unfold step; simpl. rewrite dict_keys_set.
  destruct (Dict.mem acc (Text.upper k)); [assumption|].
  apply Forall_app; split; [assumption|].
  constructor; [apply upper_idem|constructor].
Qed.

Lemma upper_keys_NoDup (d0 acc : Dict.t string) :
  NoDup (Dict.keys acc) -> NoDup (Dict.keys (fold_left step d0 acc)).
Proof.
  revert acc. induction d0 as [|[k v] d0 IH]; intros acc Hacc; simpl; [assumption|].
  apply IH. now apply dict_set_NoDup.
Qed.

Lemma upper_keys_origin (d0 acc : Dict.t string) (k v : string) :
  Dict.get (fold_left step d0 acc) k = Some v ->
  (exists k0, In (k0, v) d0 /\ Text.upper k0 = k) \/ Dict.get acc k = Some v.
Proof.
  revert acc. induction d0 as [|[k1 v1] d0 IH]; intros acc H; simpl in *; [now right|].
  destruct (IH _ H) as [(k0 & Hin & Hk)|Hacc].
  - left. exists k0. auto.
  - unfold step in Hacc; simpl in Hacc.
    destruct (string_dec (Text.upper k1) k) as [E|E].
    + subst k. rewrite dict_get_set_eq in Hacc. injection Hacc as ->.
      left. exists k1. auto.
    + rewrite dict_get_set_ne in Hacc by assumption. now right.
Qed.

Lemma upper_keys_untouched (d0 acc : Dict.t string) (K : string) :
  (forall k', In k' (Dict.keys d0) -> Text.upper k' <> K) ->
  Dict.get (fold_left step d0 acc) K = Dict.get acc K.
Proof.
  revert acc. induction d0 as [|[k1 v1] d0 IH]; intros acc H; simpl; [reflexivity|].
  rewrite IH by (intros k' Hk'; apply H; now right).
  unfold step; simpl. apply dict_get_set_ne. apply H. now left.
Qed.

Lemma upper_keys_last (l1 l2 acc : Dict.t string) (k v : string) :
  (forall k', In k' (Dict.keys l2) -> Text.upper k' <> Text.upper k) ->
  Dict.get (fold_left step (l1 ++ (k, v) :: l2) acc) (Text.upper k) = Some v.
Proof.
  intros H. rewrite fold_left_app. simpl.
  rewrite upper_keys_untouched by assumption.
  apply dict_get_set_eq.
Qed.

End UpperKeys.

Lemma fold_upper_normalized (d0 : Dict.t string) :
  normalized d0
    (fold_left (fun acc kv => Dict.set acc (Text.upper (fst kv)) (snd kv)) d0 []).
Proof.
  assert (Hfix := upper_keys_fixed d0 [] (Forall_nil _)).
  repeat split.
  - exact Hfix.
  - apply upper_keys_NoDup. constructor.
  - intros k1 k2 H1 H2 E. rewrite Forall_forall in Hfix.
    now rewrite <- (Hfix k1 H1), <- (Hfix k2 H2).
  - intros k v H. destruct (upper_keys_origin _ _ _ _ H) as [?|?]; [assumption|discriminate].
  - intros l1 k v l2 -> H. now apply upper_keys_last.
Qed.

(** C9. Construction upper-cases every key of the table and of the column
    mapping and keeps the values as supplied; keys that differ only in case
    are accepted, the entry supplied last wins, and the mapping built never
    holds two keys equal up to case.  Both mappers construct alike. *)
Theorem init_normalizes_keys (tables columns : Dict.t string) :
  normalized tables (Bird.table_mapping (Bird.init tables columns))
  /\ normalized columns (Bird.column_mapping (Bird.init tables columns))
  /\ normalized tables (Leetcode.table_mapping (Leetcode.init tables columns))
  /\ normalized columns (Leetcode.column_mapping (Leetcode.init tables columns)).
Proof.
  repeat split; apply fold_upper_normalized.
Qed.

Example init_last_write_wins :
  Bird.init [("users", "t1"); ("Users", "T_two"); ("orders", "t3")] []
  = {| Bird.table_mapping := [("USERS", "T_two"); ("ORDERS", "t3")];
       Bird.column_mapping := [] |}.
Proof. reflexivity. Qed.

(** ** [sorted(..., key=len, reverse=True)] *)

Lemma insert_by_len_perm {V : Type} (x : string * V) (l : list (string * V)) :
  Permutation (Dict.insert_by_len x l) (x :: l).
Proof.
  induction l as [|y l IH]; simpl; [reflexivity|].
  destruct (_ <? _); [|reflexivity].
  rewrite IH. apply perm_swap.
Qed.

Lemma sorted_by_len_desc_perm {V : Type} (l : list (string * V)) :
  Permutation (Dict.sorted_by_len_desc l) l.
Proof.
  induction l as [|x l IH]; simpl; [reflexivity|].
  now rewrite insert_by_len_perm, IH.
Qed.

Lemma insert_by_len_sorted {V : Type} (x : string * V) (l : list (string * V)) :
  StronglySorted (fun a b => key_len b <= key_len a) l ->
  StronglySorted (fun a b => key_len b <= key_len a) (Dict.insert_by_len x l).
Proof.
  induction 1 as [|y l Hs IH Hy]; simpl.
  - repeat constructor.
  - destruct (_ <? _) eqn:E.
    + apply Nat.ltb_lt in E. constructor; [exact IH|].
      rewrite Forall_forall in *. intros z Hz.
      apply (Permutation_in _ (insert_by_len_perm x l)) in Hz.
      destruct Hz as [<-|Hz]; [unfold key_len; lia|now apply Hy].
    + apply Nat.ltb_ge in E. constructor; [now constructor|].
      constructor; [exact E|].
      rewrite Forall_forall in *. intros z Hz.
      specialize (Hy z Hz). unfold key_len in *. lia.
Qed.

Lemma sorted_by_len_desc_sorted {V : Type} (l : list (string * V)) :
  StronglySorted (fun a b => key_len b <= key_len a) (Dict.sorted_by_len_desc l).
Proof.
  induction l as [|x l IH]; simpl; [constructor|].
  now apply insert_by_len_sorted.
Qed.

(** The sort is stable: the items with names of one length keep the order
    the dictionary had them in. *)
Lemma insert_by_len_stable {V : Type} (n : nat) (x : string * V)
    (l : list (string * V)) :
  filter (fun a => key_len a =? n) (Dict.insert_by_len x l) =
  filter (fun a => key_len a =? n) (x :: l).
Proof.
  induction l as [|y l IH]; [reflexivity|].
  cbn [Dict.insert_by_len].
  destruct (_ <? _) eqn:E; [|reflexivity].
  apply Nat.ltb_lt in E. cbn [filter] in *. rewrite IH.
  destruct (key_len x =? n) eqn:Ex; [|reflexivity].
  destruct (key_len y =? n) eqn:Ey; [|reflexivity].
  apply Nat.eqb_eq in Ex, Ey. unfold key_len in *. lia.
Qed.

Lemma sorted_by_len_desc_stable {V : Type} (n : nat) (l : list (string * V)) :
  filter (fun a => key_len a =? n) (Dict.sorted_by_len_desc l) =
  filter (fun a => key_len a =? n) l.
Proof.
  induction l as [|x l IH]; [reflexivity|].
  cbn [Dict.sorted_by_len_desc]. rewrite insert_by_len_stable.
  cbn [filter]. now rewrite IH.
Qed.

(** ** The replacement template and the scan of [re.sub] *)

Lemma parse_template_aux_plain (repl : string) (fuel : nat) :
  plain repl = true -> String.length repl < fuel ->
  Re.parse_template_aux fuel repl = Some (chars repl).
Proof.
  revert fuel. induction repl as [|c s IH]; intros [|fuel] Hp Hlen; simpl in *;
    try lia; [reflexivity|].
  apply andb_true_iff in Hp as [Hc Hs].
  rewrite Hc. rewrite IH by (assumption || lia). reflexivity.
Qed.

Lemma parse_template_plain (repl : string) :
  plain repl = true -> Re.parse_template repl = Some (chars repl).
Proof.
  intros H. apply parse_template_aux_plain; [assumption|lia].
Qed.

Lemma expand_chars (repl matched : string) :
  Re.expand (chars repl) matched = repl.
Proof. induction repl as [|c s IH]; simpl; [reflexivity|now rewrite IH]. Qed.

Lemma plain_str_of_nat (n : nat) : plain (Text.str_of_nat n) = true.
Proof.
  unfold Text.str_of_nat. generalize (Nat.to_uint n). intros d.
  induction d; simpl; auto.
Qed.

Lemma append_nil (b : string) : (EmptyString ++ b)%string = b.
Proof. reflexivity. Qed.

Lemma append_cons (c : ascii) (a b : string) :
  (String c a ++ b)%string = String c (a ++ b).
Proof. reflexivity. Qed.

Lemma string_app_assoc (a b c : string) :
  ((a ++ b) ++ c = a ++ (b ++ c))%string.
Proof.
  induction a as [|x a IH]; rewrite ?append_nil, ?append_cons;
    [reflexivity|now rewrite IH].
Qed.

Lemma last_char_app (a b : string) (before : option ascii) :
  last_char (a ++ b) before = last_char b (last_char a before).
Proof.
  revert before.
  induction a as [|x a IH]; intros; rewrite ?append_nil, ?append_cons; simpl; auto.
Qed.

Lemma match_lit_exact (lit s rest : string) (last last' : option ascii) :
  Re.match_lit false lit s last = Some (last', rest) ->
  s = (lit ++ rest)%string /\ last' = last_char lit last.
Proof.
  revert s last. induction lit as [|a lit IH]; intros s last H;
    rewrite ?append_nil, ?append_cons; simpl in *.
  - injection H as -> ->. auto.
  - destruct s as [|b s]; [discriminate|].
    destruct (Ascii.eqb a b) eqn:E; [|discriminate].
    apply Ascii.eqb_eq in E. subst b.
    destruct (IH _ _ H) as [-> ->]. auto.
Qed.

Lemma match_at_word_exact (name s : string) (prev : option ascii) (n : nat) :
  Re.match_at (Re.word name) false prev s = Some n ->
  exists post, s = (name ++ post)%string
    /\ Re.boundary prev (Re.head s) = true
    /\ Re.boundary (last_char name prev) (Re.head post) = true.
Proof.
  unfold Re.match_at. cbn [Re.bounded Re.literal Re.word andb].
  destruct (Re.boundary prev (Re.head s)) eqn:B1; [|discriminate]. cbn [negb].
  destruct (Re.match_lit false name s prev) as [[last rest]|] eqn:M; [|discriminate].
  destruct (match_lit_exact _ _ _ _ _ M) as [-> ->].
  destruct (Re.boundary _ (Re.head rest)) eqn:B2; [|discriminate].
  intros _. exists rest. auto.
Qed.

Lemma sub_from_no_occurrence (name : string) (t : list Re.titem) (s pre : string) :
  ~ occurs_as_word name (pre ++ s) ->
  Re.sub_from (Re.word name) false t (last_char pre None) 0 s = s.
Proof.
  revert pre. induction s as [|c s IH]; intros pre Hno.
  - cbn [Re.sub_from].
    destruct (Re.match_at _ _ _ _) eqn:M; [|reflexivity].
    exfalso. apply Hno.
    destruct (match_at_word_exact _ _ _ _ M) as (post & E & B1 & B2).
    exists pre, post. rewrite <- E. split; [reflexivity|]. split; [assumption|].
    now rewrite last_char_app.
  - cbn [Re.sub_from].
    destruct (Re.match_at _ _ _ _) eqn:M.
    + exfalso. apply Hno.
      destruct (match_at_word_exact _ _ _ _ M) as (post & E & B1 & B2).
      exists pre, post. rewrite <- E. split; [reflexivity|]. split; [assumption|].
      now rewrite last_char_app.
    + f_equal.
      specialize (IH (pre ++ String c EmptyString)%string).
      rewrite last_char_app in IH. apply IH.
      now rewrite string_app_assoc.
Qed.

(** A name that does not stand in the text as a whole word, in its own case,
    is not replaced. *)
Lemma sub_word_no_occurrence (name repl text : string) :
  plain repl = true -> ~ occurs_as_word name text ->
  Re.sub (Re.word name) false repl text = Some text.
Proof.
  intros Hp Hno. unfold Re.sub. rewrite parse_template_plain by assumption.
  cbn [bind]. f_equal. exact (sub_from_no_occurrence name _ text EmptyString Hno).
Qed.

Lemma startswith_app (p s : string) : Text.startswith p (p ++ s) = true.
Proof.
  induction p as [|a p IH]; rewrite ?append_nil, ?append_cons; simpl; [reflexivity|].
  now rewrite Ascii.eqb_refl, IH.
Qed.

Lemma contains_app (pre p post : string) :
  Text.contains p (pre ++ p ++ post) = true.
Proof.
  induction pre as [|a pre IH]; rewrite ?append_nil, ?append_cons.
  - destruct (p ++ post)%string eqn:E; simpl; rewrite <- E;
      rewrite startswith_app; reflexivity.
  - simpl. rewrite IH. apply orb_true_r.
Qed.

Lemma occurs_as_word_contains (name text : string) :
  occurs_as_word name text -> Text.contains name text = true.
Proof. intros (pre & post & -> & _). apply contains_app. Qed.

Lemma sub_from_skip (p : Re.pattern) (icase : bool) (t : list Re.titem)
    (a b : string) (prev : option ascii) :
  Re.sub_from p icase t prev (String.length a) (a ++ b)
  = Re.sub_from p icase t (last_char a prev) 0 b.
Proof.
  revert prev. induction a as [|x a IH]; intros prev;
    rewrite ?append_nil, ?append_cons; [reflexivity|].
  cbn [String.length Re.sub_from last_char]. apply IH.
Qed.

Lemma length_append (a b : string) :
  String.length (a ++ b) = String.length a + String.length b.
Proof.
  induction a as [|x a IH]; rewrite ?append_nil, ?append_cons; [reflexivity|].
  cbn [String.length]. now rewrite IH.
Qed.

Lemma match_at_length (p : Re.pattern) (icase : bool) (prev : option ascii)
    (s : string) (n : nat) :
  Re.match_at p icase prev s = Some n -> n = String.length (Re.literal p).
Proof.
  unfold Re.match_at. destruct (_ && _); [discriminate|].
  destruct (Re.match_lit _ _ _ _) as [[last rest]|]; [|discriminate].
  destruct (_ && _); [discriminate|]. now intros [= <-].
Qed.

(** The scan for a name that is not empty changes the text in this way
    only: some pieces that are the name, letter for letter, are replaced. *)
Lemma sub_from_pieces (name repl : string) (n : nat) :
  name <> EmptyString ->
  forall (s : string) (prev : option ascii),
    String.length s <= n ->
    exists (p : string) (ps : list string),
      s = join_pieces name p ps
      /\ Re.sub_from (Re.word name) false (chars repl) prev 0 s
         = join_pieces repl p ps.
Proof.
  intros Hname. induction n as [|n IH]; intros s prev Hlen.
  - destruct s as [|c s]; [|cbn [String.length] in Hlen; lia].
    exists EmptyString, []. split; [reflexivity|]. cbn [Re.sub_from].
    destruct (Re.match_at _ _ _ _) eqn:M; [|reflexivity].
    apply match_at_word_exact in M as (post & E & _).
    destruct name; [contradiction|]. rewrite append_cons in E. discriminate.
  - destruct s as [|c rest].
    + apply (IH EmptyString prev). cbn. lia.
    + cbn [String.length] in Hlen. cbn [Re.sub_from].
      destruct (Re.match_at _ _ _ _) as [k|] eqn:M.
      * pose proof (match_at_length _ _ _ _ _ M) as Hk. cbn [Re.word Re.literal] in Hk.
        apply match_at_word_exact in M as (post & E & _).
        destruct name as [|x name']; [contradiction|].
        rewrite append_cons in E. injection E as <- ->.
        cbn [String.length] in Hk. subst k.
        rewrite expand_chars, sub_from_skip.
        destruct (IH post (last_char name' (Some c))) as (p & ps & Ep & Es).
        { rewrite length_append in Hlen. lia. }
        exists EmptyString, (p :: ps). cbn [join_pieces].
        rewrite !append_nil, Es, <- Ep. now rewrite append_cons.
      * destruct (IH rest (Some c)) as (p & ps & Ep & Es); [lia|].
        exists (String c p), ps. rewrite Es.
        destruct ps; cbn [join_pieces] in *; rewrite ?append_cons; now rewrite Ep.
Qed.

Lemma sub_word_pieces (name repl text : string) :
  name <> EmptyString -> plain repl = true ->
  exists (p : string) (ps : list string),
    text = join_pieces name p ps
    /\ Re.sub (Re.word name) false repl text = Some (join_pieces repl p ps).
Proof.
  intros Hname Hp.
  destruct (sub_from_pieces name repl (String.length text) Hname text None (le_n _))
    as (p & ps & E1 & E2).
  exists p, ps. split; [assumption|].
  unfold Re.sub. rewrite parse_template_plain by assumption. cbn [bind].
  now rewrite E2.
Qed.

(** ** The scan of the schema anonymizer *)

Lemma add_table_parts (n : string) (st : Mapping.state) :
  tables_of (Mapping.add_table n st) = assign1 "t" (tables_of st) n
  /\ columns_of (Mapping.add_table n st) = columns_of st.
Proof.
  unfold Mapping.add_table, assign1, tables_of, columns_of; simpl.
  destruct (_ && _); auto.
Qed.

Lemma add_column_parts (n : string) (st : Mapping.state) :
  columns_of (Mapping.add_column n st) = assign1 "c" (columns_of st) n
  /\ tables_of (Mapping.add_column n st) = tables_of st.
Proof.
  unfold Mapping.add_column, assign1, tables_of, columns_of; simpl.
  destruct (_ && _); auto.
Qed.

Lemma scan_exprs_parts (exprs : list Sqlglot.Expression) (st st' : Mapping.state) :
  foldM Mapping.scan_expr exprs st = Some st' ->
  tables_of st' = tables_of st
  /\ columns_of st' =
     fold_left (assign1 "c")
       (map (fun expr => Sqlglot.name (Sqlglot.arg "this" expr))
            (filter (fun expr => Sqlglot.isinstance expr Sqlglot.ColumnDef) exprs))
       (columns_of st).
Proof.
  revert st. induction exprs as [|e exprs IH]; intros st H; simpl in H.
  - injection H as <-. auto.
  - unfold Mapping.scan_expr in H at 1. cbn [filter].
    destruct (Sqlglot.isinstance e Sqlglot.ColumnDef).
    + destruct (Sqlglot.arg "this" e) eqn:E; try discriminate.
      cbn [bind] in H. apply IH in H as [Ht Hc].
      destruct (add_column_parts (Sqlglot.name (Sqlglot.Expr cls args)) st) as [Hc1 Ht1].
      rewrite Ht, Ht1, Hc, Hc1. cbn [map fold_left]. rewrite E. auto.
    + cbn [bind] in H. now apply IH.
Qed.

Lemma scan_statement_parts (statement : Sqlglot.Expression) (st st' : Mapping.state) :
  Mapping.scan_statement st statement = Some st' ->
  tables_of st' = fold_left (assign1 "t") (table_names_of statement) (tables_of st)
  /\ columns_of st' =
     fold_left (assign1 "c") (column_names_of statement) (columns_of st).
Proof.
  unfold Mapping.scan_statement, table_names_of, column_names_of.
  fold (is_create_table statement).
  destruct (is_create_table statement); [|intros [= <-]; auto].
  destruct (Sqlglot.arg "this" statement) as [c a| | | |] eqn:E; try discriminate.
  set (this := Sqlglot.Expr c a).
  set (table_name := match Sqlglot.arg "this" this with
                     | Sqlglot.Expr _ _ => _ | _ => _ end).
  intros H.
  destruct (add_table_parts table_name st) as [Ht1 Hc1].
  assert (H' : foldM Mapping.scan_expr (Sqlglot.expressions this)
                     (Mapping.add_table table_name st) = Some st').
  { destruct (Sqlglot.expressions this); [exact H|exact H]. }
  apply scan_exprs_parts in H' as [Ht Hc].
  rewrite Ht, Ht1, Hc, Hc1. auto.
Qed.

Lemma scan_parts (parsed : list Sqlglot.Expression) (st st' : Mapping.state) :
  foldM Mapping.scan_statement parsed st = Some st' ->
  tables_of st' =
    fold_left (assign1 "t") (flat_map table_names_of parsed) (tables_of st)
  /\ columns_of st' =
    fold_left (assign1 "c") (flat_map column_names_of parsed) (columns_of st).
Proof.
  revert st. induction parsed as [|s parsed IH]; intros st H; simpl in H.
  - injection H as <-. auto.
  - destruct (Mapping.scan_statement st s) as [st1|] eqn:E; [|discriminate].
    cbn [bind] in H. apply IH in H as [Ht Hc].
    apply scan_statement_parts in E as [Ht1 Hc1].
    cbn [flat_map]. rewrite !fold_left_app, <- Ht1, <- Hc1. auto.
Qed.

Lemma dict_mem_existsb {V : Type} (d : Dict.t V) (k : string) :
  Dict.mem d k = existsb (String.eqb k) (Dict.keys d).
Proof.
  unfold Dict.mem. induction d as [|[k' v'] d IH]; simpl; [reflexivity|].
  rewrite (String.eqb_sym k k').
  destruct (String.eqb k' k); [reflexivity|exact IH].
Qed.

Lemma keys_app {V : Type} (d1 d2 : Dict.t V) :
  Dict.keys (d1 ++ d2) = Dict.keys d1 ++ Dict.keys d2.
Proof. apply map_app. Qed.

Lemma numbered_cons (prefix : string) (start : nat) (x : string) (names : list string) :
  numbered prefix start (x :: names) =
  (x, (prefix ++ Text.str_of_nat start)%string) :: numbered prefix (S start) names.
Proof. reflexivity. Qed.

Lemma assign_all (prefix : string) (names : list string) (d : Dict.t string) (c : nat) :
  fold_left (assign1 prefix) names (d, c) =
  (d ++ numbered prefix c (first_occurrences_from (Dict.keys d) names),
   c + length (first_occurrences_from (Dict.keys d) names)).
Proof.
  revert d c. induction names as [|x names IH]; intros d c; cbn [fold_left first_occurrences_from].
  - unfold numbered; simpl. now rewrite app_nil_r, Nat.add_0_r.
  - unfold assign1 at 2. cbn [fst snd]. rewrite dict_mem_existsb.
    destruct (Mapping.nonempty x && negb (existsb (String.eqb x) (Dict.keys d))) eqn:E.
    + apply andb_true_iff in E as [_ E]. apply negb_true_iff in E.
      rewrite <- dict_mem_existsb in E.
      rewrite dict_values_set_new by assumption.
      rewrite IH, keys_app. cbn [Dict.keys map fst]. rewrite numbered_cons.
      rewrite <- app_assoc. cbn [app length]. rewrite Nat.add_1_r.
      f_equal. lia.
    + apply IH.
Qed.

Lemma first_occurrences_from_spec (seen names : list string) :
  NoDup (first_occurrences_from seen names)
  /\ forall x, In x (first_occurrences_from seen names) ->
               ~ In x seen /\ In x names /\ x <> EmptyString.
Proof.
  revert seen. induction names as [|y names IH]; intros seen; simpl.
  - split; [constructor|tauto].
  - destruct (Mapping.nonempty y && negb (existsb (String.eqb y) seen)) eqn:E.
    + apply andb_true_iff in E as [Hne E]. apply negb_true_iff in E.
      destruct (IH (seen ++ [y])) as [Hnd Hin]. split.
      * constructor; [|assumption]. intros H. apply Hin in H as [H _].
        apply H. apply in_or_app. right. now left.
      * intros x [<-|Hx].
        -- split; [|split; [now left|]].
           ++ intros H. apply not_true_iff_false in E. apply E.
              apply existsb_exists. exists y. split; [assumption|apply String.eqb_refl].
           ++ intros ->. discriminate.
        -- apply Hin in Hx as (H1 & H2 & H3). split; [|auto].
           intros H. apply H1. apply in_or_app. now left.
    + destruct (IH seen) as [Hnd Hin]. split; [assumption|].
      intros x Hx. apply Hin in Hx as (H1 & H2 & H3). auto.
Qed.

Lemma numbered_keys (prefix : string) (start : nat) (names : list string) :
  Dict.keys (numbered prefix start names) = names.
Proof.
  revert start. induction names as [|x names IH]; intros start; [reflexivity|].
  rewrite numbered_cons. cbn [Dict.keys map fst]. f_equal. apply IH.
Qed.

Lemma numbered_values (prefix : string) (start : nat) (names : list string) :
  Dict.values (numbered prefix start names) =
  map (fun i => (prefix ++ Text.str_of_nat i)%string) (seq start (length names)).
Proof.
  revert start. induction names as [|x names IH]; intros start; [reflexivity|].
  rewrite numbered_cons. cbn [Dict.values map snd length seq]. f_equal. apply IH.
Qed.

Lemma str_of_nat_inj (a b : nat) : Text.str_of_nat a = Text.str_of_nat b -> a = b.
Proof.
  unfold Text.str_of_nat. intros H.
  apply DecimalNat.Unsigned.to_uint_inj.
  assert (E : NilEmpty.uint_of_string (NilEmpty.string_of_uint (Nat.to_uint a)) =
              NilEmpty.uint_of_string (NilEmpty.string_of_uint (Nat.to_uint b)))
    by now rewrite H.
  rewrite !NilEmpty.usu in E. now injection E.
Qed.

Lemma append_inj_l (p a b : string) : (p ++ a)%string = (p ++ b)%string -> a = b.
Proof.
  induction p as [|c p IH]; rewrite ?append_nil, ?append_cons; [auto|].
  intros [= H]. auto.
Qed.

Lemma numbered_values_NoDup (prefix : string) (start : nat) (names : list string) :
  NoDup (Dict.values (numbered prefix start names)).
Proof.
  rewrite numbered_values. apply Injective_map_NoDup; [|apply seq_NoDup].
  intros a b H. apply append_inj_l in H. now apply str_of_nat_inj.
Qed.

Lemma numbered_In (prefix : string) (start : nat) (names : list string) (k v : string) :
  In (k, v) (numbered prefix start names) ->
  exists i, v = (prefix ++ Text.str_of_nat i)%string.
Proof.
  intros H.
  assert (Hv : In v (Dict.values (numbered prefix start names))).
  { unfold Dict.values. change v with (snd (k, v)). now apply in_map. }
  rewrite numbered_values in Hv. apply in_map_iff in Hv as (i & <- & _). now exists i.
Qed.

Lemma values_NoDup_key {V : Type} (d : Dict.t V) (k k' : string) (v : V) :
  NoDup (Dict.values d) -> In (k, v) d -> In (k', v) d -> k = k'.
Proof.
  induction d as [|[k0 v0] d IH]; simpl; [tauto|].
  intros Hnd H1 H2. inversion Hnd as [|? ? Hnin Hnd']; subst.
  destruct H1 as [H1|H1]; destruct H2 as [H2|H2].
  - congruence.
  - injection H1 as -> ->. exfalso. apply Hnin.
    change v with (snd (k', v)). now apply in_map.
  - injection H2 as -> ->. exfalso. apply Hnin.
    change v with (snd (k, v)). now apply in_map.
  - now apply IH.
Qed.

Lemma merge_NoDup {V : Type} (d1 d2 : Dict.t V) :
  NoDup (Dict.keys d1) -> NoDup (Dict.keys (Dict.merge d1 d2)).
Proof.
  unfold Dict.merge. revert d1. induction d2 as [|[k v] d2 IH]; intros d1 H; simpl;
    [assumption|].
  apply IH. now apply dict_set_NoDup.
Qed.

Lemma merge_get {V : Type} (d1 d2 : Dict.t V) (k : string) :
  NoDup (Dict.keys d2) ->
  Dict.get (Dict.merge d1 d2) k =
  match Dict.get d2 k with Some v => Some v | None => Dict.get d1 k end.
Proof.
  unfold Dict.merge. revert d1. induction d2 as [|[k2 v2] d2 IH]; intros d1 Hnd;
    [reflexivity|].
  inversion Hnd as [|? ? Hnin Hnd']; subst. cbn [fold_left fst snd Dict.get].
  rewrite IH by assumption.
  destruct (String.eqb k2 k) eqn:E.
  - apply String.eqb_eq in E. subst k2.
    apply dict_get_None in Hnin. rewrite Hnin. apply dict_get_set_eq.
  - apply String.eqb_neq in E. now rewrite dict_get_set_ne.
Qed.

(** What the scan ends with: each mapping numbers the names it met, in the
    order of their first occurrence. *)
Lemma scan_result (parsed : list Sqlglot.Expression) (st : Mapping.state) :
  foldM Mapping.scan_statement parsed Mapping.initial = Some st ->
  Mapping.table_mapping st =
    numbered "t" 1 (first_occurrences (flat_map table_names_of parsed))
  /\ Mapping.column_mapping st =
    numbered "c" 1 (first_occurrences (flat_map column_names_of parsed)).
Proof.
  intros H. apply scan_parts in H as [Ht Hc].
  unfold tables_of, columns_of in *. cbn [Mapping.initial Mapping.table_mapping
    Mapping.column_mapping Mapping.table_counter Mapping.column_counter] in *.
  rewrite assign_all in Ht, Hc. cbn [app Dict.keys map] in *.
  injection Ht as Ht _. injection Hc as Hc _. auto.
Qed.

(** ** The schema anonymizer *)

(** C4. For the schema of the two tables CHESTS and BOXES the anonymizer
    assigns CHESTS to t1 and BOXES to t2, and CHEST_ID to c1, APPLE_COUNT to
    c2 and BOX_ID to c3: one column counter serves all tables, and CHEST_ID
    keeps c1 when BOXES declares it again.  In general each mapping numbers
    the names in the order of their first occurrence in one scan from left
    to right. *)
Theorem anonymizer_first_occurrence_order :
  (forall parse : string -> option (list Sqlglot.Expression),
      parse Fixture.chests_boxes_sql = Some Fixture.chests_boxes ->
      Mapping.extract_and_map_schema parse Fixture.chests_boxes_sql =
      Some ("CREATE TABLE t1 (c1 INT, c2 INT); CREATE TABLE t2 (c3 INT, c1 INT);",
            [("CHESTS", "t1"); ("BOXES", "t2");
             ("CHEST_ID", "c1"); ("APPLE_COUNT", "c2"); ("BOX_ID", "c3")]))
  /\ foldM Mapping.scan_statement Fixture.chests_boxes Mapping.initial =
     Some {| Mapping.table_mapping := [("CHESTS", "t1"); ("BOXES", "t2")];
             Mapping.column_mapping :=
               [("CHEST_ID", "c1"); ("APPLE_COUNT", "c2"); ("BOX_ID", "c3")];
             Mapping.table_counter := 3;
             Mapping.column_counter := 4 |}
  /\ (forall (parsed : list Sqlglot.Expression) (st : Mapping.state),
         foldM Mapping.scan_statement parsed Mapping.initial = Some st ->
         Mapping.table_mapping st =
           numbered "t" 1 (first_occurrences (flat_map table_names_of parsed))
         /\ Mapping.column_mapping st =
           numbered "c" 1 (first_occurrences (flat_map column_names_of parsed))).
Proof.
  split; [|split].
  - intros parse H. unfold Mapping.extract_and_map_schema. rewrite H. reflexivity.
  - reflexivity.
  - exact scan_result.
Qed.

Lemma anonymizer_first_occurrence_order_witness :
  Mapping.extract_and_map_schema Fixture.parse Fixture.chests_boxes_sql =
  Some ("CREATE TABLE t1 (c1 INT, c2 INT); CREATE TABLE t2 (c3 INT, c1 INT);",
        [("CHESTS", "t1"); ("BOXES", "t2");
         ("CHEST_ID", "c1"); ("APPLE_COUNT", "c2"); ("BOX_ID", "c3")])
  /\ Mapping.column_mapping
       {| Mapping.table_mapping := [("CHESTS", "t1"); ("BOXES", "t2")];
          Mapping.column_mapping :=
            [("CHEST_ID", "c1"); ("APPLE_COUNT", "c2"); ("BOX_ID", "c3")];
          Mapping.table_counter := 3;
          Mapping.column_counter := 4 |} =
     numbered "c" 1
       (first_occurrences (flat_map column_names_of Fixture.chests_boxes)).
Proof.
  split.
  - apply (proj1 anonymizer_first_occurrence_order Fixture.parse). reflexivity.
  - apply (proj2 (proj2 anonymizer_first_occurrence_order) Fixture.chests_boxes).
    reflexivity.
Defined.

Lemma scan_dummies_plain (parsed : list Sqlglot.Expression) (st : Mapping.state)
    (name dummy : string) :
  foldM Mapping.scan_statement parsed Mapping.initial = Some st ->
  In (name, dummy) (Mapping.table_mapping st)
  \/ In (name, dummy) (Mapping.column_mapping st) ->
  plain dummy = true.
Proof.
  intros H Hin. apply scan_result in H as [Ht Hc]. rewrite Ht, Hc in Hin.
  destruct Hin as [Hin|Hin]; apply numbered_In in Hin as [i ->];
    rewrite append_cons, append_nil; simpl; apply plain_str_of_nat.
Qed.

Lemma scan_names_nonempty (parsed : list Sqlglot.Expression) (st : Mapping.state)
    (name dummy : string) :
  foldM Mapping.scan_statement parsed Mapping.initial = Some st ->
  In (name, dummy) (Mapping.table_mapping st)
  \/ In (name, dummy) (Mapping.column_mapping st) ->
  name <> EmptyString.
Proof.
  intros H Hin. apply scan_result in H as [Ht Hc].
  assert (Hk : In name (Dict.keys (Mapping.table_mapping st))
               \/ In name (Dict.keys (Mapping.column_mapping st))).
  { destruct Hin as [Hin|Hin]; [left|right];
      unfold Dict.keys; change name with (fst (name, dummy)); now apply in_map. }
  rewrite Ht, Hc, !numbered_keys in Hk.
  destruct Hk as [Hk|Hk]; now apply first_occurrences_from_spec in Hk.
Qed.

(** C8. The final substitution starts from the schema text as given and
    replaces all table names, then all column names, in each group the
    longest name first; a name is matched in its own case and as a whole
    word only: a substitution changes the text only by replacing pieces that
    are the name letter for letter, so an occurrence that differs in case is
    left as it is. *)
Theorem anonymizer_substitution_order
    (parse : string -> option (list Sqlglot.Expression))
    (schema_sql dummy_schema : string) (mapping_dict : Dict.t string) :
  Mapping.extract_and_map_schema parse schema_sql = Some (dummy_schema, mapping_dict) ->
  exists (parsed : list Sqlglot.Expression) (st : Mapping.state) (after_tables : string),
    parse schema_sql = Some parsed
    /\ foldM Mapping.scan_statement parsed Mapping.initial = Some st
    /\ foldM (fun text item => Re.sub (Re.word (fst item)) false (snd item) text)
             (Dict.sorted_by_len_desc (Mapping.table_mapping st)) schema_sql
       = Some after_tables
    /\ foldM (fun text item => Re.sub (Re.word (fst item)) false (snd item) text)
             (Dict.sorted_by_len_desc (Mapping.column_mapping st)) after_tables
       = Some dummy_schema
    /\ (forall m : Dict.t string,
           m = Mapping.table_mapping st \/ m = Mapping.column_mapping st ->
           Permutation (Dict.sorted_by_len_desc m) m
           /\ StronglySorted
                (fun a b => String.length (fst b) <= String.length (fst a))
                (Dict.sorted_by_len_desc m))
    /\ (forall name dummy text : string,
           In (name, dummy) (Mapping.table_mapping st)
           \/ In (name, dummy) (Mapping.column_mapping st) ->
           ~ occurs_as_word name text ->
           Re.sub (Re.word name) false dummy text = Some text)
    /\ (forall name dummy text : string,
           In (name, dummy) (Mapping.table_mapping st)
           \/ In (name, dummy) (Mapping.column_mapping st) ->
           Text.contains name text = false ->
           Re.sub (Re.word name) false dummy text = Some text)
    /\ (forall name dummy text : string,
           In (name, dummy) (Mapping.table_mapping st)
           \/ In (name, dummy) (Mapping.column_mapping st) ->
           exists (p : string) (ps : list string),
             text = join_pieces name p ps
             /\ Re.sub (Re.word name) false dummy text
                = Some (join_pieces dummy p ps))
    /\ Re.sub (Re.word "CHESTS") false "t1" "CHESTS chests Chests (CHESTS) CHESTS_ID"
       = Some "t1 chests Chests (t1) CHESTS_ID".
Proof.
  unfold Mapping.extract_and_map_schema, Mapping.replace_names. intros H.
  destruct (parse schema_sql) as [parsed|]; [|discriminate]. cbn [bind] in H.
  destruct (foldM Mapping.scan_statement parsed Mapping.initial) as [st|] eqn:Hscan;
    [|discriminate]. cbn [bind] in H.
  destruct (foldM _ (Dict.sorted_by_len_desc (Mapping.table_mapping st)) schema_sql)
    as [after_tables|] eqn:Ht; [|discriminate]. cbn [bind] in H.
  destruct (foldM _ (Dict.sorted_by_len_desc (Mapping.column_mapping st)) after_tables)
    as [result|] eqn:Hc; [|discriminate]. cbn [bind] in H.
  injection H as -> _.
  exists parsed, st, after_tables. repeat split; try assumption || reflexivity.
  - apply sorted_by_len_desc_perm.
  - apply sorted_by_len_desc_sorted.
  - intros name dummy text Hin Hno. apply sub_word_no_occurrence; [|assumption].
    eapply scan_dummies_plain; eassumption.
  - intros name dummy text Hin Hno. apply sub_word_no_occurrence.
    + eapply scan_dummies_plain; eassumption.
    + intros Hocc. apply occurs_as_word_contains in Hocc. congruence.
  - intros name dummy text Hin. apply sub_word_pieces.
    + eapply scan_names_nonempty; eassumption.
    + eapply scan_dummies_plain; eassumption.
Qed.

Lemma anonymizer_substitution_order_witness :
  exists (parsed : list Sqlglot.Expression) (st : Mapping.state) (after_tables : string),
    Fixture.parse Fixture.chests_boxes_sql = Some parsed
    /\ foldM Mapping.scan_statement parsed Mapping.initial = Some st
    /\ Mapping.replace_names (Mapping.table_mapping st) Fixture.chests_boxes_sql
       = Some after_tables
    /\ Mapping.replace_names (Mapping.column_mapping st) after_tables
       = Some "CREATE TABLE t1 (c1 INT, c2 INT); CREATE TABLE t2 (c3 INT, c1 INT);".
Proof.
  destruct (anonymizer_substitution_order Fixture.parse Fixture.chests_boxes_sql
              "CREATE TABLE t1 (c1 INT, c2 INT); CREATE TABLE t2 (c3 INT, c1 INT);"
              [("CHESTS", "t1"); ("BOXES", "t2");
               ("CHEST_ID", "c1"); ("APPLE_COUNT", "c2"); ("BOX_ID", "c3")]
              eq_refl)
    as (parsed & st & after_tables & H1 & H2 & H3 & H4 & _).
  exists parsed, st, after_tables. repeat split; assumption.
Defined.

(** C10. When one string is met both as a table name and as a column name,
    the merged mapping gives it its column dummy name: the columns are
    merged over the tables, and the table dummy name of that string is no
    value of the mapping returned. *)
Theorem merged_mapping_column_wins
    (parse : string -> option (list Sqlglot.Expression))
    (schema_sql dummy_schema : string) (mapping_dict : Dict.t string) :
  Mapping.extract_and_map_schema parse schema_sql = Some (dummy_schema, mapping_dict) ->
  exists (parsed : list Sqlglot.Expression) (st : Mapping.state),
    parse schema_sql = Some parsed
    /\ foldM Mapping.scan_statement parsed Mapping.initial = Some st
    /\ mapping_dict = Dict.merge (Mapping.table_mapping st) (Mapping.column_mapping st)
    /\ forall name dummy_table dummy_column : string,
         Dict.get (Mapping.table_mapping st) name = Some dummy_table ->
         Dict.get (Mapping.column_mapping st) name = Some dummy_column ->
         Dict.get mapping_dict name = Some dummy_column
         /\ (exists n, dummy_column = ("c" ++ Text.str_of_nat n)%string)
         /\ ~ In dummy_table (Dict.values mapping_dict).
Proof.
  unfold Mapping.extract_and_map_schema. intros H.
  destruct (parse schema_sql) as [parsed|]; [|discriminate]. cbn [bind] in H.
  destruct (foldM Mapping.scan_statement parsed Mapping.initial) as [st|] eqn:Hscan;
    [|discriminate]. cbn [bind] in H.
  destruct (Mapping.replace_names (Mapping.table_mapping st) schema_sql);
    [|discriminate]. cbn [bind] in H.
  destruct (Mapping.replace_names (Mapping.column_mapping st) s);
    [|discriminate]. cbn [bind] in H.
  injection H as _ <-.
  exists parsed, st. split; [reflexivity|]. split; [exact Hscan|]. split; [reflexivity|].
  destruct (scan_result _ _ Hscan) as [Ht Hc].
  assert (Hndt : NoDup (Dict.keys (Mapping.table_mapping st)))
    by (rewrite Ht, numbered_keys; apply first_occurrences_from_spec).
  assert (Hndc : NoDup (Dict.keys (Mapping.column_mapping st)))
    by (rewrite Hc, numbered_keys; apply first_occurrences_from_spec).
  intros name dummy_table dummy_column Hgt Hgc. split; [|split].
  - rewrite merge_get by assumption. now rewrite Hgc.
  - apply dict_get_In in Hgc. rewrite Hc in Hgc. now apply numbered_In in Hgc.
  - intros Hin. apply in_map_iff in Hin as ([k v] & Hv & Hin). simpl in Hv. subst v.
    apply dict_In_get in Hin; [|now apply merge_NoDup].
    rewrite merge_get in Hin by assumption.
    destruct (Dict.get (Mapping.column_mapping st) k) as [v|] eqn:Hk.
    + injection Hin as ->. apply dict_get_In in Hk, Hgt.
      rewrite Hc in Hk. rewrite Ht in Hgt.
      apply numbered_In in Hk as [i Hi]. apply numbered_In in Hgt as [j Hj].
      rewrite Hi in Hj. discriminate.
    + assert (k = name).
      { apply dict_get_In in Hin, Hgt.
        eapply values_NoDup_key; [|exact Hin|exact Hgt].
        rewrite Ht. apply numbered_values_NoDup. }
      subst k. congruence.
Qed.

Lemma merged_mapping_column_wins_witness :
  Mapping.extract_and_map_schema Fixture.parse Fixture.item_sql =
  Some ("CREATE TABLE t1 (t1 INT, c2 INT)", [("ITEM", "c1"); ("PRICE", "c2")])
  /\ Dict.get [("ITEM", "c1"); ("PRICE", "c2")] "ITEM" = Some "c1"
  /\ ~ In "t1" (Dict.values [("ITEM", "c1"); ("PRICE", "c2")]).
Proof.
  split; [reflexivity|].
  destruct (merged_mapping_column_wins Fixture.parse Fixture.item_sql
              "CREATE TABLE t1 (t1 INT, c2 INT)"
              [("ITEM", "c1"); ("PRICE", "c2")] eq_refl)
    as (parsed & st & H1 & H2 & _ & H4).
  vm_compute in H1. injection H1 as <-.
  vm_compute in H2. injection H2 as <-.
  destruct (H4 "ITEM" "t1" "c1" eq_refl eq_refl) as (Hget & _ & Hnot).
  split; assumption.
Defined.

(** ** The textual mapper *)

Lemma fallback_mapping_unfold (self : Leetcode.SQLMapper) (sql_query : string) :
  Leetcode._fallback_mapping self sql_query =
  (after_tables <-
     foldM Leetcode.substitute
           (Dict.sorted_by_len_desc (Leetcode.table_mapping self)) sql_query ;;
   foldM Leetcode.substitute
         (Dict.sorted_by_len_desc (Leetcode.column_mapping self)) after_tables).
Proof.
  unfold Leetcode._fallback_mapping.
  destruct (foldM _ _ sql_query) as [t|]; [|reflexivity]. cbn [bind].
  destruct (foldM _ _ t); reflexivity.
Qed.

(** C5. The textual mapper substitutes the table entries and then the column
    entries, each group in descending order of the length of the original
    name (names of one length in the order of the mapping).  So with the
    names A and AB the text SELECT AB FROM T becomes SELECT x2 FROM T, which
    holds x2 and not x1B, whichever mapping holds the names and in
    whichever order. *)
Theorem fallback_longest_name_first :
  (forall (self : Leetcode.SQLMapper) (sql_query : string),
      Leetcode._fallback_mapping self sql_query =
      (after_tables <-
         foldM Leetcode.substitute
               (Dict.sorted_by_len_desc (Leetcode.table_mapping self)) sql_query ;;
       foldM Leetcode.substitute
             (Dict.sorted_by_len_desc (Leetcode.column_mapping self)) after_tables))
  /\ (forall m : Dict.t string,
         Permutation (Dict.sorted_by_len_desc m) m
         /\ StronglySorted
              (fun a b => String.length (fst b) <= String.length (fst a))
              (Dict.sorted_by_len_desc m)
         /\ forall n : nat,
              filter (fun a => String.length (fst a) =? n) (Dict.sorted_by_len_desc m)
              = filter (fun a => String.length (fst a) =? n) m)
  /\ (forall names : Dict.t string,
         names = [("A", "x1"); ("AB", "x2")] \/ names = [("AB", "x2"); ("A", "x1")] ->
         forall self : Leetcode.SQLMapper,
           self = Leetcode.init names [] \/ self = Leetcode.init [] names ->
           Leetcode._fallback_mapping self "SELECT AB FROM T" = Some "SELECT x2 FROM T")
  /\ Text.contains "x2" "SELECT x2 FROM T" = true
  /\ Text.contains "x1B" "SELECT x2 FROM T" = false.
Proof.
  split; [exact fallback_mapping_unfold|].
  split; [|split; [|split; reflexivity]].
  - intros m. split; [apply sorted_by_len_desc_perm|].
    split; [apply sorted_by_len_desc_sorted|].
    intros n. apply sorted_by_len_desc_stable.
  - intros names [-> | ->] self [-> | ->]; reflexivity.
Qed.

Lemma fallback_longest_name_first_witness :
  Leetcode._fallback_mapping (Leetcode.init [("A", "x1"); ("AB", "x2")] [])
                             "SELECT AB FROM T"
  = Some "SELECT x2 FROM T".
Proof.
  apply (proj1 (proj2 (proj2 fallback_longest_name_first))
               [("A", "x1"); ("AB", "x2")] (or_introl eq_refl)).
  left. reflexivity.
Defined.

(** Without the length order the shorter name would still not touch AB:
    the word boundaries keep A from matching inside it. *)
Example short_name_does_not_match_inside :
  Leetcode.substitute "SELECT AB FROM T" ("A", "x1") = Some "SELECT AB FROM T".
Proof. reflexivity. Qed.

(** With empty mappings nothing is substituted. *)
Lemma fallback_mapping_empty (sql_query : string) :
  Leetcode._fallback_mapping (Leetcode.init [] []) sql_query = Some sql_query.
Proof. reflexivity. Qed.

(** ** The loop over the rows *)

Lemma iterrows_from (body : Frame.Row -> Frame.Row) (df done : list Frame.Row) :
  fold_left
    (fun df idx =>
       match df !! idx with
       | Some row => <[idx := body row]> df
       | None => df
       end)
    (seq (length done) (length df)) (done ++ df)
  = done ++ map body df.
Proof.
  revert done. induction df as [|row df IH]; intros done; [reflexivity|].
  cbn [length seq fold_left map].
  rewrite list_lookup_middle by reflexivity.
  replace (length done) with (length done + 0) at 2 by lia.
  rewrite insert_app_r. cbn [insert list_insert].
  specialize (IH (done ++ [body row])).
  rewrite length_app, <- !app_assoc in IH. cbn [length app] in IH.
  rewrite Nat.add_1_r in IH. exact IH.
Qed.

(** The loop handles every row, each on its own, and keeps their order. *)
Lemma iterrows_map (body : Frame.Row -> Frame.Row) (df : list Frame.Row) :
  Frame.iterrows body df = map body df.
Proof. exact (iterrows_from body df []). Qed.

(** ** Trees: nodes, levels and the walk *)

Lemma depth_Expr (cls : Sqlglot.Class) (args : list (string * Sqlglot.Expression)) :
  Sqlglot.depth (Sqlglot.Expr cls args) =
  S (list_max (map (fun kv => arg_depth (snd kv)) args)).
Proof. reflexivity. Qed.

Lemma list_max_In (x : nat) (l : list nat) : In x l -> x <= list_max l.
Proof.
  intros H. assert (Hle : list_max l <= list_max l) by lia.
  apply list_max_le in Hle. rewrite Forall_forall in Hle. now apply Hle.
Qed.

Lemma depth_arg (cls : Sqlglot.Class) (args : list (string * Sqlglot.Expression))
    (k : string) (v : Sqlglot.Expression) :
  In (k, v) args -> arg_depth v < Sqlglot.depth (Sqlglot.Expr cls args).
Proof.
  intros H. rewrite depth_Expr. apply Nat.lt_succ_r. apply list_max_In.
  apply in_map_iff. exists (k, v). auto.
Qed.

Lemma depth_children_of_arg (v c : Sqlglot.Expression) :
  In c (Sqlglot.children_of_arg v) ->
  Sqlglot.is_expression c = true /\ Sqlglot.depth c <= arg_depth v.
Proof.
  destruct v; simpl; try tauto.
  - intros [<-|[]]. auto.
  - intros H. apply filter_In in H as [H1 H2]. split; [assumption|].
    apply list_max_In. now apply in_map.
Qed.

Lemma depth_children (e c : Sqlglot.Expression) :
  In c (Sqlglot.children e) ->
  Sqlglot.is_expression c = true /\ Sqlglot.depth c < Sqlglot.depth e.
Proof.
  destruct e as [cls args| | | |]; simpl; try tauto.
  intros H. apply in_flat_map in H as ([k v] & Hin & Hc). cbn [snd] in Hc.
  apply depth_children_of_arg in Hc as [H1 H2]. split; [assumption|].
  pose proof (depth_arg cls args k v Hin). cbn [Sqlglot.depth] in *. lia.
Qed.

Lemma level_subnode (k : nat) (e n : Sqlglot.Expression) :
  In n (Sqlglot.level k e) -> subnode n e.
Proof.
  revert e. induction k as [|k IH]; intros e; simpl.
  - intros [<-|[]]. constructor.
  - intros H. apply in_flat_map in H as (c & Hc & Hn).
    eapply subnode_below; eauto.
Qed.

Lemma subnode_level (e n : Sqlglot.Expression) :
  Sqlglot.is_expression e = true -> subnode n e ->
  exists k, k < Sqlglot.depth e /\ In n (Sqlglot.level k e).
Proof.
  intros He H. induction H as [|e c Hc Hsub IH].
  - exists 0. split; [|now left].
    destruct n; try discriminate. rewrite depth_Expr. lia.
  - apply depth_children in Hc as Hd. destruct Hd as [Hce Hlt].
    destruct (IH Hce) as (k & Hk & Hin).
    exists (S k). split; [lia|]. simpl. apply in_flat_map. eauto.
Qed.

(** The walk visits exactly the nodes of the tree. *)
Lemma walk_subnode (e n : Sqlglot.Expression) :
  Sqlglot.is_expression e = true ->
  In n (Sqlglot.walk e) <-> subnode n e.
Proof.
  intros He. unfold Sqlglot.walk. rewrite in_flat_map. split.
  - intros (k & _ & H). eapply level_subnode; eauto.
  - intros H. destruct (subnode_level e n He H) as (k & Hk & Hin).
    exists k. split; [|assumption]. apply in_seq. lia.
Qed.

Lemma subnode_not_expression (e n : Sqlglot.Expression) :
  Sqlglot.is_expression e = false -> subnode n e -> n = e.
Proof.
  intros He H. destruct H as [|e c Hc _]; [reflexivity|].
  destruct e; try discriminate; destruct Hc.
Qed.

Lemma find_all_subnode (cls : Sqlglot.Class) (e n : Sqlglot.Expression) :
  In n (Sqlglot.find_all cls e) <->
  subnode n e /\ Sqlglot.isinstance n cls = true.
Proof.
  unfold Sqlglot.find_all. rewrite filter_In.
  destruct (Sqlglot.is_expression e) eqn:He.
  - now rewrite walk_subnode.
  - split.
    + intros [H _]. destruct e; try discriminate; destruct H.
    + intros [H Hi]. apply (subnode_not_expression _ _ He) in H. subst n.
      destruct e; discriminate.
Qed.

(** ** The structural mapper: extraction *)

(** C6. [extract_tables_and_columns] returns for every text: when the text
    parses, the two sets hold exactly the upper-cased names of the table
    nodes and of the column nodes anywhere in the tree; when parsing raises,
    both sets are empty. *)
Theorem extract_collects_every_name
    (parse_one : string -> option Sqlglot.Expression)
    (self : Bird.SQLMapper) (sql_query : string) :
  (parse_one sql_query = None ->
   Bird.extract_tables_and_columns parse_one self sql_query = (∅, ∅))
  /\ (forall parsed : Sqlglot.Expression,
         parse_one sql_query = Some parsed ->
         forall x : string,
           (x ∈ fst (Bird.extract_tables_and_columns parse_one self sql_query) <->
            exists node, subnode node parsed
                         /\ Sqlglot.isinstance node Sqlglot.Table = true
                         /\ x = Text.upper (Sqlglot.name node))
           /\ (x ∈ snd (Bird.extract_tables_and_columns parse_one self sql_query) <->
               exists node, subnode node parsed
                            /\ Sqlglot.isinstance node Sqlglot.Column = true
                            /\ x = Text.upper (Sqlglot.name node))).
Proof.
  unfold Bird.extract_tables_and_columns. split.
  - intros ->. reflexivity.
  - intros parsed -> x. cbn [bind try_except fst snd].
    rewrite !elem_of_list_to_set, !list_elem_of_In, !in_map_iff.
    split; split.
    + intros (node & <- & H). apply find_all_subnode in H as [H1 H2]. eauto.
    + intros (node & H1 & H2 & ->). exists node. split; [reflexivity|].
      now apply find_all_subnode.
    + intros (node & <- & H). apply find_all_subnode in H as [H1 H2]. eauto.
    + intros (node & H1 & H2 & ->). exists node. split; [reflexivity|].
      now apply find_all_subnode.
Qed.

Lemma extract_collects_every_name_witness :
  Bird.extract_tables_and_columns BirdFixture.parse_one (Bird.init [] [])
                                  BirdFixture.broken_sql = (∅, ∅)
  /\ "C" ∈ snd (Bird.extract_tables_and_columns BirdFixture.parse_one
                  (Bird.init [] []) BirdFixture.qualified_sql).
Proof.
  split.
  - apply (proj1 (extract_collects_every_name BirdFixture.parse_one
                    (Bird.init [] []) BirdFixture.broken_sql)).
    reflexivity.
  - apply (proj2 (extract_collects_every_name BirdFixture.parse_one
                    (Bird.init [] []) BirdFixture.qualified_sql)
                 _ eq_refl "C").
    exists (BirdFixture.column "T" "C"). split; [|split; reflexivity].
    eapply subnode_below; [|apply subnode_here].
    simpl. left. reflexivity.
Defined.

Example extract_qualified :
  Bird.extract_tables_and_columns BirdFixture.parse_one (Bird.init [] [])
                                  "SELECT T.C FROM T"
  = ({["T"]}, {["C"]}).
Proof. vm_compute. reflexivity. Qed.

(** ** The structural mapper: what a pass of [transform] gives *)

Lemma rewritten_Expr sets cls args :
  rewritten sets (Sqlglot.Expr cls args) =
  apply_sets (sets (Sqlglot.Expr cls args))
             (Sqlglot.Expr cls (map (rewritten_arg sets) args)).
Proof. reflexivity. Qed.

Lemma apply_sets_Expr sets cls args :
  apply_sets sets (Sqlglot.Expr cls args) = Sqlglot.Expr cls (set_all sets args).
Proof.
  unfold apply_sets, set_all. revert args.
  induction sets as [|kn sets IH]; intros args; [reflexivity|]. apply IH.
Qed.

Lemma apply_sets_other sets (v : Sqlglot.Expression) :
  Sqlglot.is_expression v = false -> apply_sets sets v = v.
Proof.
  intros H. unfold apply_sets. induction sets as [|kn sets IH]; [reflexivity|].
  simpl. destruct v; try discriminate; exact IH.
Qed.

Lemma transform_table_sets (self : Bird.SQLMapper) (node : Sqlglot.Expression) :
  Bird.transform_table self node = apply_sets (table_sets self node) node.
Proof.
  unfold Bird.transform_table, table_sets.
  destruct (Sqlglot.isinstance node Sqlglot.Table); [|reflexivity].
  destruct (Dict.get _ _); reflexivity.
Qed.

Lemma text_set_ne (key k : string) (v node : Sqlglot.Expression) :
  k <> key -> Sqlglot.text key (Sqlglot.set k v node) = Sqlglot.text key node.
Proof.
  intros Hne. destruct node as [cls args| | | |]; try reflexivity.
  unfold Sqlglot.text, Sqlglot.arg, Sqlglot.set.
  now rewrite dict_get_set_ne.
Qed.

Lemma text_set_identifier (key name : string) (node : Sqlglot.Expression) :
  Sqlglot.is_expression node = true ->
  Sqlglot.text key (Sqlglot.set key (Sqlglot.mk_identifier name) node) = name.
Proof.
  destruct node as [cls args| | | |]; try discriminate. intros _.
  unfold Sqlglot.text, Sqlglot.arg, Sqlglot.set.
  now rewrite dict_get_set_eq.
Qed.

Lemma isinstance_Column_name (node : Sqlglot.Expression) :
  Sqlglot.isinstance node Sqlglot.Column = true ->
  Sqlglot.name node = Sqlglot.text "this" node.
Proof.
  destruct node as [cls args| | | |]; try discriminate. simpl.
  destruct (Sqlglot.Class_eq_dec cls Sqlglot.Column) as [->|]; [reflexivity|discriminate].
Qed.

Lemma isinstance_set (k : string) (v node : Sqlglot.Expression) (cls : Sqlglot.Class) :
  Sqlglot.isinstance (Sqlglot.set k v node) cls = Sqlglot.isinstance node cls.
Proof. destruct node; reflexivity. Qed.

Lemma transform_column_sets (self : Bird.SQLMapper) (node : Sqlglot.Expression) :
  Bird.transform_column self node = apply_sets (column_sets self node) node.
Proof.
  unfold Bird.transform_column, column_sets.
  destruct (Sqlglot.isinstance node Sqlglot.Column) eqn:Hc; [|reflexivity].
  assert (Hname : forall mapped,
             Sqlglot.name (Sqlglot.set "table" (Sqlglot.mk_identifier mapped) node)
             = Sqlglot.name node).
  { intros mapped. rewrite !isinstance_Column_name by (now rewrite ?isinstance_set).
    now apply text_set_ne. }
  destruct (Sqlglot.table node) eqn:Ht.
  - cbn [app]. destruct (Dict.get (Bird.column_mapping self) _); reflexivity.
  - destruct (Dict.get (Bird.table_mapping self) _) as [mapped|].
    + rewrite Hname. cbn [app].
      destruct (Dict.get (Bird.column_mapping self) _); reflexivity.
    + cbn [app]. destruct (Dict.get (Bird.column_mapping self) _); reflexivity.
Qed.

Lemma mapM_pointwise {A B : Type} (g : A -> option B) (h : A -> B) (l : list A) :
  (forall x, In x l -> g x = Some (h x)) -> mapM g l = Some (map h l).
Proof.
  induction l as [|x l IH]; intros H; [reflexivity|].
  cbn [mapM map]. rewrite (H x) by now left. cbn [bind].
  rewrite IH by (intros y Hy; apply H; now right). reflexivity.
Qed.

Lemma set_all_In sets args kv :
  In kv (set_all sets args) ->
  In kv args \/ exists k name, kv = (k, Sqlglot.mk_identifier name).
Proof.
  unfold set_all. revert args. induction sets as [|[k0 n0] sets IH]; intros args H;
    [now left|].
  cbn [fold_left fst snd] in H. apply IH in H as [H|H]; [|now right].
  clear IH. induction args as [|[k v] args IHa]; simpl in H.
  - destruct H as [<-|[]]. right. eauto.
  - destruct (String.eqb k k0).
    + destruct H as [<-|H]; [right; eauto|left; now right].
    + destruct H as [<-|H]; [left; now left|].
      destruct (IHa H) as [?|?]; [left; now right|now right].
Qed.

Lemma map_dict_set {V W : Type} (h : V -> W) (d : Dict.t V) (k : string) (v : V) :
  map (fun kv => (fst kv, h (snd kv))) (Dict.set d k v) =
  Dict.set (map (fun kv => (fst kv, h (snd kv))) d) k (h v).
Proof.
  induction d as [|[k' v'] d IH]; [reflexivity|].
  cbn [Dict.set map fst snd]. destruct (String.eqb k' k); [reflexivity|].
  cbn [map fst snd]. now rewrite IH.
Qed.

Section Pass.

Variable fun_ : Sqlglot.Expression -> Sqlglot.Expression.
Variable sets : Sqlglot.Expression -> list (string * string).

Hypothesis fun_sets : forall node, fun_ node = apply_sets (sets node) node.
Hypothesis sets_identifier : forall name, sets (Sqlglot.mk_identifier name) = [].

Lemma rewritten_identifier (name : string) :
  rewritten sets (Sqlglot.mk_identifier name) = Sqlglot.mk_identifier name.
Proof using sets_identifier.
  unfold Sqlglot.mk_identifier. rewrite rewritten_Expr.
  fold (Sqlglot.mk_identifier name). now rewrite sets_identifier.
Qed.

Lemma rewritten_arg_set_all (l : list (string * string))
    (args : list (string * Sqlglot.Expression)) :
  map (rewritten_arg sets) (set_all l args) = set_all l (map (rewritten_arg sets) args).
Proof using sets_identifier.
  unfold set_all. revert args. induction l as [|[k n] l IH]; intros args; [reflexivity|].
  cbn [fold_left fst snd]. rewrite IH. f_equal.
  unfold rewritten_arg.
  rewrite (map_dict_set
             (fun v => match v with
                       | Sqlglot.Seq es => Sqlglot.Seq (map (rewritten sets) es)
                       | _ => rewritten sets v
                       end)).
  f_equal.
  change (rewritten sets (Sqlglot.mk_identifier n) = Sqlglot.mk_identifier n).
  apply rewritten_identifier.
Qed.

Lemma transform_identifier (fuel : nat) (name : string) :
  0 < fuel ->
  Sqlglot.transform fuel fun_ (Sqlglot.mk_identifier name) =
  Some (Sqlglot.mk_identifier name).
Proof using fun_sets sets_identifier.
  destruct fuel as [|fuel]; [lia|]. intros _. cbn [Sqlglot.transform].
  rewrite fun_sets, sets_identifier. reflexivity.
Qed.

(** With a level of recursion for every level of nodes the pass does
    not raise, and gives the rewritten tree. *)
Lemma transform_rewritten (fuel : nat) (node : Sqlglot.Expression) :
  Sqlglot.depth node < fuel ->
  Sqlglot.transform fuel fun_ node = Some (rewritten sets node).
Proof using fun_sets sets_identifier.
  revert node. induction fuel as [|fuel IH]; intros node Hd; [lia|].
  cbn [Sqlglot.transform]. rewrite fun_sets.
  destruct node as [cls args|s|es|b|].
  2-5: now rewrite apply_sets_other.
  rewrite rewritten_Expr, !apply_sets_Expr.
  rewrite (mapM_pointwise _ (rewritten_arg sets)).
  - cbn [bind]. now rewrite rewritten_arg_set_all.
  - intros [k v] Hin. apply set_all_In in Hin as [Hin|(k0 & name & E)].
    + pose proof (depth_arg cls args k v Hin) as Hlt.
      unfold Sqlglot.transform_arg, rewritten_arg. cbn [fst snd].
      destruct v as [c a|s|es|b|]; cbn [Sqlglot.transform_child bind]; try reflexivity.
      * rewrite IH; [reflexivity|]. cbn [arg_depth] in Hlt. lia.
      * rewrite (mapM_pointwise _ (rewritten sets)); [reflexivity|].
        intros el Hel. destruct el as [c a|s|es'|b|]; try reflexivity.
        cbn [Sqlglot.transform_child]. apply IH.
        cbn [arg_depth] in Hlt.
        pose proof (list_max_In _ _ (in_map Sqlglot.depth _ _ Hel)). lia.
    + injection E as -> ->.
      unfold Sqlglot.transform_arg, rewritten_arg. cbn [fst snd].
      unfold Sqlglot.mk_identifier at 1. cbn [Sqlglot.transform_child].
      fold (Sqlglot.mk_identifier name).
      rewrite transform_identifier.
      * cbn [bind]. unfold Sqlglot.mk_identifier at 2.
        fold (Sqlglot.mk_identifier name). now rewrite rewritten_identifier.
      * rewrite depth_Expr in Hd. lia.
Qed.

End Pass.

Lemma rewritten_arg_val sets kv :
  rewritten_arg sets kv = (fst kv, rewritten_val sets (snd kv)).
Proof. reflexivity. Qed.

Lemma rewritten_val_element sets (P : Sqlglot.Expression -> Sqlglot.Expression -> Prop) :
  (forall s, P (Sqlglot.Seq s) (Sqlglot.Seq s)) ->
  forall e, P e (rewritten_val sets e) -> P e (rewritten sets e).
Proof. intros HP e H. destruct e; try exact H. apply HP. Qed.

Lemma rewritten_nil (sets : Sqlglot.Expression -> list (string * string))
    (v : Sqlglot.Expression) :
  (forall node, sets node = []) -> rewritten_val sets v = v.
Proof.
  intros Hnil. induction v as [cls args IH|s|es IH|b|] using Expression_nested_ind;
    try reflexivity.
  - cbn [rewritten_val]. rewrite rewritten_Expr, Hnil. cbn [apply_sets fold_left].
    f_equal. induction IH as [|[k v] args Hv _ IHa]; [reflexivity|].
    cbn [map]. rewrite IHa. f_equal.
    rewrite rewritten_arg_val. cbn [fst snd] in *. now rewrite Hv.
  - cbn [rewritten_val]. f_equal.
    induction IH as [|e es He _ IHe]; [reflexivity|].
    cbn [map]. rewrite IHe. f_equal.
    apply (rewritten_val_element sets (fun a b => b = a)); auto.
Qed.

Lemma list_max_bound (l : list nat) (n : nat) :
  (forall x, In x l -> x <= n) -> list_max l <= n.
Proof. intros H. apply list_max_le. now apply Forall_forall. Qed.

Lemma apply_sets_is_expression sets (v : Sqlglot.Expression) :
  Sqlglot.is_expression (apply_sets sets v) = Sqlglot.is_expression v.
Proof.
  destruct v; try (now rewrite apply_sets_other).
  now rewrite apply_sets_Expr.
Qed.

(** A pass adds at most one level: the identifiers it puts below the
    deepest nodes. *)
Lemma depth_rewritten_val sets (v : Sqlglot.Expression) :
  arg_depth (rewritten_val sets v) <= arg_depth v + 1.
Proof.
  induction v as [cls args IH|s|es IH|b|] using Expression_nested_ind;
    try (cbn; lia).
  - cbn [rewritten_val arg_depth].
    rewrite rewritten_Expr, apply_sets_Expr, !depth_Expr.
    apply le_n_S. rewrite Nat.add_1_r.
    apply list_max_bound. intros x Hx.
    apply in_map_iff in Hx as (kv & <- & Hin).
    apply set_all_In in Hin as [Hin|(k & name & ->)]; [|cbn; lia].
    apply in_map_iff in Hin as ([k v] & <- & Hin).
    rewrite Forall_forall in IH. specialize (IH _ Hin).
    change (arg_depth (rewritten_val sets v) <= arg_depth v + 1) in IH.
    change (arg_depth (rewritten_val sets v)
            <= S (list_max (map (fun kv => arg_depth (snd kv)) args))).
    pose proof (list_max_In (arg_depth v)
                  (map (fun kv => arg_depth (snd kv)) args)) as Hle.
    assert (In (arg_depth v) (map (fun kv => arg_depth (snd kv)) args))
      by (apply in_map_iff; exists (k, v); auto).
    specialize (Hle H). lia.
  - cbn [rewritten_val arg_depth]. rewrite map_map.
    apply list_max_bound. intros x Hx.
    apply in_map_iff in Hx as (e & <- & Hin).
    rewrite Forall_forall in IH. specialize (IH _ Hin).
    pose proof (list_max_In _ _ (in_map Sqlglot.depth _ _ Hin)) as Hle.
    destruct e as [c a|s|es'|b|]; try exact (Nat.le_0_l _).
    cbn [rewritten_val] in IH. rewrite rewritten_Expr, apply_sets_Expr in *.
    cbn [arg_depth] in IH. lia.
Qed.

Lemma depth_rewritten sets (v : Sqlglot.Expression) :
  Sqlglot.depth (rewritten sets v) <= Sqlglot.depth v + 1.
Proof.
  pose proof (depth_rewritten_val sets v) as H.
  destruct v; try exact (Nat.le_0_l _).
  cbn [rewritten_val] in H. rewrite rewritten_Expr, apply_sets_Expr in *. exact H.
Qed.

Lemma table_sets_identifier self name :
  table_sets self (Sqlglot.mk_identifier name) = [].
Proof. reflexivity. Qed.

Lemma column_sets_identifier self name :
  column_sets self (Sqlglot.mk_identifier name) = [].
Proof. reflexivity. Qed.

Lemma map_sql_query_mapped_tree
    (parse_one : string -> option Sqlglot.Expression)
    (sql : Sqlglot.Expression -> bool -> option string) (limit : nat)
    (self : Bird.SQLMapper) (sql_query : string) (pretty : bool)
    (parsed : Sqlglot.Expression) :
  parse_one sql_query = Some parsed ->
  Sqlglot.depth parsed + 1 < limit ->
  Sqlglot.transform limit (Bird.transform_table self) parsed
    = Some (rewritten (table_sets self) parsed)
  /\ Sqlglot.transform limit (Bird.transform_column self)
       (rewritten (table_sets self) parsed) = Some (mapped_tree self parsed)
  /\ Bird.map_sql_query parse_one sql limit self sql_query pretty
     = sql (mapped_tree self parsed) pretty.
Proof.
  intros Hp Hd.
  assert (H1 : Sqlglot.transform limit (Bird.transform_table self) parsed
               = Some (rewritten (table_sets self) parsed)).
  { apply transform_rewritten; [apply transform_table_sets|reflexivity|lia]. }
  assert (H2 : Sqlglot.transform limit (Bird.transform_column self)
                 (rewritten (table_sets self) parsed) = Some (mapped_tree self parsed)).
  { apply transform_rewritten; [apply transform_column_sets|reflexivity|].
    pose proof (depth_rewritten (table_sets self) parsed). lia. }
  split; [assumption|]. split; [assumption|].
  unfold Bird.map_sql_query. rewrite Hp. cbn [bind]. rewrite H1. cbn [bind].
  rewrite H2. cbn [bind]. unfold mapped_tree.
  destruct (sql _ pretty); reflexivity.
Qed.

(** ** The structural mapper: names after a pass *)

Lemma dict_get_map_rewritten sets (args : list (string * Sqlglot.Expression)) (k : string) :
  Dict.get (map (rewritten_arg sets) args) k =
  option_map (rewritten_val sets) (Dict.get args k).
Proof.
  induction args as [|[k' v] args IH]; [reflexivity|].
  cbn [map Dict.get rewritten_arg fst snd].
  destruct (String.eqb k' k); [reflexivity|exact IH].
Qed.

(** A pass that leaves identifiers, literals and variables alone does not
    change the text any node holds under any key. *)
Lemma text_rewritten_args sets (key : string) (cls : Sqlglot.Class)
    (args : list (string * Sqlglot.Expression)) :
  (forall c a, holds_text c -> sets (Sqlglot.Expr c a) = []) ->
  Sqlglot.text key (Sqlglot.Expr cls (map (rewritten_arg sets) args)) =
  Sqlglot.text key (Sqlglot.Expr cls args).
Proof.
  intros Hleaf. unfold Sqlglot.text, Sqlglot.arg.
  rewrite dict_get_map_rewritten.
  destruct (Dict.get args key) as [v|]; [|reflexivity]. cbn [option_map].
  destruct v as [c a|s|es|b|]; try reflexivity.
  cbn [rewritten_val]. rewrite rewritten_Expr, apply_sets_Expr.
  assert (Hthis : forall l,
             l = [] ->
             match Dict.get (set_all l (map (rewritten_arg sets) a)) "this" with
             | Some (Sqlglot.Str s) => s
             | _ => EmptyString
             end =
             match Dict.get a "this" with
             | Some (Sqlglot.Str s) => s
             | _ => EmptyString
             end).
  { intros l ->. cbn [set_all fold_left]. rewrite dict_get_map_rewritten.
    destruct (Dict.get a "this") as [w|]; [|reflexivity]. cbn [option_map].
    destruct w as [c' a'|s|es|b|]; try reflexivity.
    cbn [rewritten_val]. now rewrite rewritten_Expr, apply_sets_Expr. }
  destruct c; try reflexivity; apply Hthis; apply Hleaf; unfold holds_text; auto.
Qed.

Lemma table_sets_holds_text self c a :
  holds_text c -> table_sets self (Sqlglot.Expr c a) = [].
Proof. intros [->|[->| ->]]; reflexivity. Qed.

Lemma column_sets_holds_text self c a :
  holds_text c -> column_sets self (Sqlglot.Expr c a) = [].
Proof. intros [->|[->| ->]]; reflexivity. Qed.

Lemma table_sets_not_Table self (node : Sqlglot.Expression) :
  Sqlglot.isinstance node Sqlglot.Table = false -> table_sets self node = [].
Proof. unfold table_sets. now intros ->. Qed.

Lemma isinstance_Column_not_Table (node : Sqlglot.Expression) :
  Sqlglot.isinstance node Sqlglot.Column = true ->
  Sqlglot.isinstance node Sqlglot.Table = false.
Proof.
  destruct node as [cls args| | | |]; try discriminate. simpl.
  destruct (Sqlglot.Class_eq_dec cls Sqlglot.Column) as [->|]; [reflexivity|discriminate].
Qed.

Lemma isinstance_Column_Expr (node : Sqlglot.Expression) :
  Sqlglot.isinstance node Sqlglot.Column = true ->
  exists args, node = Sqlglot.Expr Sqlglot.Column args.
Proof.
  destruct node as [cls args| | | |]; try discriminate. simpl.
  destruct (Sqlglot.Class_eq_dec cls Sqlglot.Column) as [->|]; [eauto|discriminate].
Qed.

(** The table pass leaves a column node its class, its qualifier and its
    name. *)
Lemma table_pass_keeps_column self (node : Sqlglot.Expression) :
  Sqlglot.isinstance node Sqlglot.Column = true ->
  Sqlglot.isinstance (rewritten (table_sets self) node) Sqlglot.Column = true
  /\ Sqlglot.table (rewritten (table_sets self) node) = Sqlglot.table node
  /\ Sqlglot.name (rewritten (table_sets self) node) = Sqlglot.name node.
Proof.
  intros Hc. destruct (isinstance_Column_Expr _ Hc) as [args ->].
  rewrite rewritten_Expr, table_sets_not_Table by reflexivity.
  cbn [apply_sets fold_left]. split; [reflexivity|]. split.
  - apply text_rewritten_args, table_sets_holds_text.
  - cbn [Sqlglot.name]. apply text_rewritten_args, table_sets_holds_text.
Qed.

(** So the column pass decides at each node as it would have on the tree
    that was parsed: its lookups see the original names. *)
Lemma column_sets_after_table_pass self (node : Sqlglot.Expression) :
  column_sets self (rewritten (table_sets self) node) = column_sets self node.
Proof.
  destruct (Sqlglot.isinstance node Sqlglot.Column) eqn:Hc.
  - destruct (table_pass_keeps_column self node Hc) as (H1 & H2 & H3).
    unfold column_sets. now rewrite H1, H2, H3, Hc.
  - unfold column_sets at 2. rewrite Hc.
    destruct node as [cls args| | | |]; try reflexivity.
    rewrite rewritten_Expr, apply_sets_Expr. unfold column_sets.
    change (Sqlglot.isinstance (Sqlglot.Expr cls _) Sqlglot.Column)
      with (Sqlglot.isinstance (Sqlglot.Expr cls args) Sqlglot.Column).
    now rewrite Hc.
Qed.

Lemma column_sets_Column self (node : Sqlglot.Expression) :
  Sqlglot.isinstance node Sqlglot.Column = true ->
  Sqlglot.table node <> EmptyString ->
  column_sets self node =
  match Dict.get (Bird.table_mapping self) (Text.upper (Sqlglot.table node)) with
  | Some mapped => [("table", mapped)]
  | None => []
  end
  ++ match Dict.get (Bird.column_mapping self) (Text.upper (Sqlglot.name node)) with
     | Some mapped => [("this", mapped)]
     | None => []
     end.
Proof.
  intros Hc Ht. unfold column_sets. rewrite Hc.
  destruct (Sqlglot.table node); [contradiction|reflexivity].
Qed.

Lemma column_node_mapped self (node : Sqlglot.Expression) :
  Sqlglot.isinstance node Sqlglot.Column = true ->
  Sqlglot.table node <> EmptyString ->
  Sqlglot.isinstance (mapped_tree self node) Sqlglot.Column = true
  /\ Sqlglot.table (mapped_tree self node)
     = renamed (Bird.table_mapping self) (Sqlglot.table node)
  /\ Sqlglot.name (mapped_tree self node)
     = renamed (Bird.column_mapping self) (Sqlglot.name node).
Proof.
  intros Hc Ht. unfold mapped_tree.
  pose proof (column_sets_after_table_pass self node) as Hsets.
  destruct (table_pass_keeps_column self node Hc) as (H1 & H2 & H3).
  destruct (isinstance_Column_Expr _ H1) as [args1 E1].
  rewrite E1 in *. rewrite rewritten_Expr, Hsets.
  assert (Htext : forall key,
             Sqlglot.text key (Sqlglot.Expr Sqlglot.Column
                                 (map (rewritten_arg (column_sets self)) args1))
             = Sqlglot.text key node).
  { intros key. rewrite text_rewritten_args by apply column_sets_holds_text.
    destruct (isinstance_Column_Expr _ Hc) as [args ->].
    rewrite rewritten_Expr, table_sets_not_Table in E1 by reflexivity.
    cbn [apply_sets fold_left] in E1. rewrite <- E1.
    apply text_rewritten_args, table_sets_holds_text. }
  set (node2 := Sqlglot.Expr Sqlglot.Column
                  (map (rewritten_arg (column_sets self)) args1)) in *.
  assert (Hname2 : Sqlglot.name node2 = Sqlglot.name node).
  { rewrite (isinstance_Column_name node Hc). apply Htext. }
  assert (Hne : forall key k v args,
             k <> key ->
             Sqlglot.text key (Sqlglot.Expr Sqlglot.Column (Dict.set args k v))
             = Sqlglot.text key (Sqlglot.Expr Sqlglot.Column args)).
  { intros key k v args Hk.
    exact (text_set_ne key k v (Sqlglot.Expr Sqlglot.Column args) Hk). }
  assert (Heq : forall key name args,
             Sqlglot.text key (Sqlglot.Expr Sqlglot.Column
                                 (Dict.set args key (Sqlglot.mk_identifier name)))
             = name).
  { intros key name args.
    exact (text_set_identifier key name (Sqlglot.Expr Sqlglot.Column args) eq_refl). }
  rewrite column_sets_Column by assumption. unfold renamed.
  rewrite (isinstance_Column_name node Hc) in *.
  destruct (Dict.get (Bird.table_mapping self) _) as [t'|];
    destruct (Dict.get (Bird.column_mapping self) _) as [c'|];
    unfold apply_sets; simpl app; simpl fold_left;
    (split; [reflexivity|]); unfold Sqlglot.table; cbn [Sqlglot.name].
  - rewrite Heq, Hne by discriminate. now rewrite Heq.
  - rewrite Heq, Hne by discriminate. split; [reflexivity|apply Htext].
  - rewrite Heq, Hne by discriminate. split; [apply Htext|reflexivity].
  - split; apply Htext.
Qed.

(** ** The structural mapper: where the nodes of the parsed tree end up *)

Lemma dict_set_In_ne {V : Type} (d : Dict.t V) (k k0 : string) (v v0 : V) :
  k <> k0 -> In (k, v) d -> In (k, v) (Dict.set d k0 v0).
Proof.
  intros Hne. induction d as [|[k' v'] d IH]; [intros []|].
  intros [H|H]; cbn [Dict.set].
  - injection H as -> ->. destruct (String.eqb k k0) eqn:E.
    + apply String.eqb_eq in E. contradiction.
    + now left.
  - destruct (String.eqb k' k0); right; auto.
Qed.

Lemma set_all_keeps (l : list (string * string))
    (args : list (string * Sqlglot.Expression)) (k : string) (v : Sqlglot.Expression) :
  ~ In k (map fst l) -> In (k, v) args -> In (k, v) (set_all l args).
Proof.
  unfold set_all. revert args. induction l as [|[k0 n0] l IH]; intros args Hk Hin;
    [assumption|].
  cbn [fold_left fst snd]. apply IH.
  - intros H. apply Hk. now right.
  - apply dict_set_In_ne; [|assumption]. intros ->. apply Hk. now left.
Qed.

Lemma rewritten_is_expression sets (v : Sqlglot.Expression) :
  Sqlglot.is_expression (rewritten sets v) = Sqlglot.is_expression v.
Proof.
  destruct v; try reflexivity. now rewrite rewritten_Expr, apply_sets_Expr.
Qed.

Lemma children_rewritten sets (v c : Sqlglot.Expression) :
  In c (Sqlglot.children_of_arg v) ->
  In (rewritten sets c) (Sqlglot.children_of_arg (rewritten_val sets v)).
Proof.
  destruct v as [cls args|s|es|b|]; cbn [Sqlglot.children_of_arg In]; try tauto.
  - intros [<-|[]]. cbn [rewritten_val].
    rewrite rewritten_Expr, apply_sets_Expr. now left.
  - cbn [rewritten_val Sqlglot.children_of_arg]. intros H.
    apply filter_In in H as [H1 H2]. apply filter_In. split.
    + now apply in_map.
    + now rewrite rewritten_is_expression.
Qed.

Lemma rewritten_children sets (cls : Sqlglot.Class)
    (args : list (string * Sqlglot.Expression)) (key : string)
    (v c : Sqlglot.Expression) :
  In (key, v) args ->
  ~ In key (map fst (sets (Sqlglot.Expr cls args))) ->
  In c (Sqlglot.children_of_arg v) ->
  exists args',
    rewritten sets (Sqlglot.Expr cls args) = Sqlglot.Expr cls args'
    /\ In (key, rewritten_val sets v) args'.
Proof.
  intros Hin Hkey Hc. rewrite rewritten_Expr, apply_sets_Expr.
  eexists. split; [reflexivity|].
  apply set_all_keeps; [assumption|].
  apply in_map_iff. exists (key, v). auto.
Qed.

Lemma kept_subnode sets (n e : Sqlglot.Expression) :
  kept sets n e -> subnode (rewritten sets n) (rewritten sets e).
Proof.
  induction 1 as [|cls args key v c Hin Hkey Hc Hk IH]; [constructor|].
  destruct (rewritten_children sets cls args key v c Hin Hkey Hc) as (args' & -> & Hin').
  eapply subnode_below; [|exact IH].
  cbn [Sqlglot.children]. apply in_flat_map.
  exists (key, rewritten_val sets v). split; [assumption|].
  now apply children_rewritten.
Qed.

Lemma kept_table_pass self (n e : Sqlglot.Expression) :
  kept (replaced self) n e ->
  kept (column_sets self) (rewritten (table_sets self) n)
       (rewritten (table_sets self) e).
Proof.
  induction 1 as [|cls args key v c Hin Hkey Hc Hk IH]; [constructor|].
  assert (Hkt : ~ In key (map fst (table_sets self (Sqlglot.Expr cls args)))).
  { intros H. apply Hkey. unfold replaced. rewrite map_app. apply in_or_app. now left. }
  assert (Hkc : ~ In key (map fst (column_sets self (Sqlglot.Expr cls args)))).
  { intros H. apply Hkey. unfold replaced. rewrite map_app. apply in_or_app. now right. }
  pose proof (column_sets_after_table_pass self (Sqlglot.Expr cls args)) as Hsets.
  destruct (rewritten_children (table_sets self) cls args key v c Hin Hkt Hc)
    as (args' & E & Hin').
  rewrite E in *.
  eapply kept_below; [exact Hin'| |apply children_rewritten; exact Hc|exact IH].
  now rewrite Hsets.
Qed.

(** A node of the parsed tree that is not below a replaced argument is, once
    mapped, a node of the tree that is generated. *)
Lemma kept_mapped_tree self (n e : Sqlglot.Expression) :
  kept (replaced self) n e -> subnode (mapped_tree self n) (mapped_tree self e).
Proof.
  intros H. apply kept_subnode. now apply kept_table_pass.
Qed.

(** ** The structural mapper: the claims *)

(** C2. When the statement parses (and [transform] has a level of recursion
    for every level of the tree), the table pass runs over the whole tree,
    then the column pass, and the text is generated from the tree they
    leave.  A column node with qualifier T and name C that neither pass has
    removed is then a column node whose qualifier is what the table mapping
    gives for T, and whose name is what the column mapping gives for C, each
    one whether or not the other is mapped: T'.C, T.C' or T'.C'.  The table
    pass has left the column node its qualifier, so the lookup is made with
    the qualifier as it was parsed. *)
Theorem qualified_column_maps_each_part
    (parse_one : string -> option Sqlglot.Expression)
    (sql : Sqlglot.Expression -> bool -> option string) (limit : nat)
    (self : Bird.SQLMapper) (sql_query : string) (pretty : bool)
    (parsed : Sqlglot.Expression) :
  parse_one sql_query = Some parsed ->
  Sqlglot.depth parsed + 1 < limit ->
  Sqlglot.transform limit (Bird.transform_table self) parsed
    = Some (rewritten (table_sets self) parsed)
  /\ Sqlglot.transform limit (Bird.transform_column self)
       (rewritten (table_sets self) parsed) = Some (mapped_tree self parsed)
  /\ Bird.map_sql_query parse_one sql limit self sql_query pretty
     = sql (mapped_tree self parsed) pretty
  /\ forall node : Sqlglot.Expression,
       kept (replaced self) node parsed ->
       Sqlglot.isinstance node Sqlglot.Column = true ->
       Sqlglot.table node <> EmptyString ->
       Sqlglot.table (rewritten (table_sets self) node) = Sqlglot.table node
       /\ subnode (mapped_tree self node) (mapped_tree self parsed)
       /\ Sqlglot.isinstance (mapped_tree self node) Sqlglot.Column = true
       /\ Sqlglot.table (mapped_tree self node)
          = match Dict.get (Bird.table_mapping self)
                           (Text.upper (Sqlglot.table node)) with
            | Some mapped => mapped
            | None => Sqlglot.table node
            end
       /\ Sqlglot.name (mapped_tree self node)
          = match Dict.get (Bird.column_mapping self)
                           (Text.upper (Sqlglot.name node)) with
            | Some mapped => mapped
            | None => Sqlglot.name node
            end.
Proof.
  intros Hp Hd.
  destruct (map_sql_query_mapped_tree parse_one sql limit self sql_query pretty
              parsed Hp Hd) as (H1 & H2 & H3).
  repeat (split; [assumption|]).
  intros node Hk Hc Ht.
  destruct (table_pass_keeps_column self node Hc) as (_ & Hq & _).
  destruct (column_node_mapped self node Hc Ht) as (Hi & Hqual & Hname).
  split; [assumption|]. split; [now apply kept_mapped_tree|].
  split; [assumption|]. split; assumption.
Qed.

Lemma qualified_column_maps_each_part_witness :
  Bird.map_sql_query BirdFixture.parse_one BirdFixture.sql BirdFixture.limit
    (Bird.init [("t", "t1")] [("c", "c1")]) BirdFixture.qualified_sql false
  = BirdFixture.sql
      (mapped_tree (Bird.init [("t", "t1")] [("c", "c1")])
                   (BirdFixture.select [BirdFixture.column "T" "C"] "T")) false
  /\ Sqlglot.table (mapped_tree (Bird.init [("t", "t1")] [("c", "c1")])
                                (BirdFixture.column "T" "C")) = "t1"
  /\ Sqlglot.name (mapped_tree (Bird.init [("t", "t1")] [("c", "c1")])
                               (BirdFixture.column "T" "C")) = "c1".
Proof.
  destruct (qualified_column_maps_each_part
              BirdFixture.parse_one BirdFixture.sql BirdFixture.limit
              (Bird.init [("t", "t1")] [("c", "c1")]) BirdFixture.qualified_sql false
              (BirdFixture.select [BirdFixture.column "T" "C"] "T")
              eq_refl)
    as (_ & _ & H3 & H4).
  { vm_compute. lia. }
  split; [exact H3|].
  destruct (H4 (BirdFixture.column "T" "C")) as (_ & _ & _ & Hq & Hn).
  - eapply kept_below; [left; reflexivity| | |apply kept_here].
    + vm_compute. tauto.
    + left. reflexivity.
  - reflexivity.
  - discriminate.
  - split; [exact Hq|exact Hn].
Defined.

Example map_qualified_both :
  Bird.map_sql_query BirdFixture.parse_one BirdFixture.sql BirdFixture.limit
    (Bird.init [("t", "t1")] [("c", "c1")]) "SELECT T.C FROM T" false
  = Some "SELECT t1.c1 FROM t1".
Proof. vm_compute. reflexivity. Qed.

Example map_qualified_table_only :
  Bird.map_sql_query BirdFixture.parse_one BirdFixture.sql BirdFixture.limit
    (Bird.init [("t", "t1")] []) "SELECT T.C FROM T" false
  = Some "SELECT t1.C FROM t1".
Proof. vm_compute. reflexivity. Qed.

Example map_qualified_column_only :
  Bird.map_sql_query BirdFixture.parse_one BirdFixture.sql BirdFixture.limit
    (Bird.init [] [("c", "c1")]) "SELECT T.C FROM T" false
  = Some "SELECT T.c1 FROM T".
Proof. vm_compute. reflexivity. Qed.

(** C7. [map_sql_query] gives either the whole text the generator makes of
    the tree after both passes, or [None]: when parsing raises, when a pass
    raises, and when the generator raises the result is [None], and a text
    is returned only when every step has succeeded. *)
Theorem map_sql_query_text_or_failure
    (parse_one : string -> option Sqlglot.Expression)
    (sql : Sqlglot.Expression -> bool -> option string) (limit : nat)
    (self : Bird.SQLMapper) (sql_query : string) (pretty : bool) :
  (Bird.map_sql_query parse_one sql limit self sql_query pretty = None
   \/ exists (parsed after_tables after_columns : Sqlglot.Expression) (text : string),
        parse_one sql_query = Some parsed
        /\ Sqlglot.transform limit (Bird.transform_table self) parsed = Some after_tables
        /\ Sqlglot.transform limit (Bird.transform_column self) after_tables
           = Some after_columns
        /\ sql after_columns pretty = Some text
        /\ Bird.map_sql_query parse_one sql limit self sql_query pretty = Some text)
  /\ (parse_one sql_query = None ->
      Bird.map_sql_query parse_one sql limit self sql_query pretty = None)
  /\ (forall parsed,
         parse_one sql_query = Some parsed ->
         Sqlglot.transform limit (Bird.transform_table self) parsed = None ->
         Bird.map_sql_query parse_one sql limit self sql_query pretty = None)
  /\ (forall parsed after_tables,
         parse_one sql_query = Some parsed ->
         Sqlglot.transform limit (Bird.transform_table self) parsed = Some after_tables ->
         Sqlglot.transform limit (Bird.transform_column self) after_tables = None ->
         Bird.map_sql_query parse_one sql limit self sql_query pretty = None)
  /\ (forall parsed after_tables after_columns,
         parse_one sql_query = Some parsed ->
         Sqlglot.transform limit (Bird.transform_table self) parsed = Some after_tables ->
         Sqlglot.transform limit (Bird.transform_column self) after_tables
           = Some after_columns ->
         sql after_columns pretty = None ->
         Bird.map_sql_query parse_one sql limit self sql_query pretty = None).
Proof.
  unfold Bird.map_sql_query. split; [|repeat split].
  - destruct (parse_one sql_query) as [parsed|]; [|now left]. cbn [bind].
    destruct (Sqlglot.transform limit (Bird.transform_table self) parsed)
      as [t1|] eqn:E1; [|now left]. cbn [bind].
    destruct (Sqlglot.transform limit (Bird.transform_column self) t1)
      as [t2|] eqn:E2; [|now left]. cbn [bind].
    destruct (sql t2 pretty) as [text|] eqn:E3; [|now left].
    right. exists parsed, t1, t2, text. auto.
  - now intros ->.
  - intros parsed Hp H1. rewrite Hp. cbn [bind]. now rewrite H1.
  - intros parsed t1 Hp H1 H2. rewrite Hp. cbn [bind]. rewrite H1. cbn [bind].
    now rewrite H2.
  - intros parsed t1 t2 Hp H1 H2 H3. rewrite Hp. cbn [bind]. rewrite H1. cbn [bind].
    rewrite H2. cbn [bind]. now rewrite H3.
Qed.

Lemma map_sql_query_text_or_failure_witness :
  Bird.map_sql_query BirdFixture.parse_one BirdFixture.sql BirdFixture.limit
    (Bird.init [("t", "t1")] [("c", "c1")]) BirdFixture.broken_sql false = None
  /\ Bird.map_sql_query BirdFixture.parse_one BirdFixture.sql 0
       (Bird.init [("t", "t1")] [("c", "c1")]) BirdFixture.qualified_sql false = None
  /\ Bird.map_sql_query BirdFixture.parse_one BirdFixture.sql BirdFixture.limit
       (Bird.init [("t", "t1")] [("c", "c1")]) BirdFixture.qualified_sql true = None.
Proof.
  split; [|split].
  - apply (proj1 (proj2 (map_sql_query_text_or_failure
             BirdFixture.parse_one BirdFixture.sql BirdFixture.limit
             (Bird.init [("t", "t1")] [("c", "c1")]) BirdFixture.broken_sql false))).
    reflexivity.
  - apply (proj1 (proj2 (proj2 (map_sql_query_text_or_failure
             BirdFixture.parse_one BirdFixture.sql 0
             (Bird.init [("t", "t1")] [("c", "c1")]) BirdFixture.qualified_sql false)))
             (BirdFixture.select [BirdFixture.column "T" "C"] "T"));
      vm_compute; reflexivity.
  - apply (proj2 (proj2 (proj2 (proj2 (map_sql_query_text_or_failure
             BirdFixture.parse_one BirdFixture.sql BirdFixture.limit
             (Bird.init [("t", "t1")] [("c", "c1")]) BirdFixture.qualified_sql true))))
             (BirdFixture.select [BirdFixture.column "T" "C"] "T")
             (rewritten (table_sets (Bird.init [("t", "t1")] [("c", "c1")]))
                        (BirdFixture.select [BirdFixture.column "T" "C"] "T"))
             (mapped_tree (Bird.init [("t", "t1")] [("c", "c1")])
                          (BirdFixture.select [BirdFixture.column "T" "C"] "T")));
      vm_compute; reflexivity.
Defined.

(** ** The batch drivers *)

Section BirdRows.

Variable parse_one : string -> option Sqlglot.Expression.
Variable sql : Sqlglot.Expression -> bool -> option string.
Variable limit : nat.
Variable schemas_data : Frame.Schemas.

Lemma bird_row_q1 (row : Frame.Row) (q : string) :
  Frame.q1 row = Some q -> q <> EmptyString ->
  Frame.q1_mapped (Bird.process_row parse_one sql limit schemas_data row)
  = Bird.map_sql_query parse_one sql limit (bird_mapper schemas_data row) q false.
Proof.
  intros Hq Hne. unfold Bird.process_row. fold (bird_mapper schemas_data row).
  rewrite Hq. destruct q as [|c q]; [contradiction|]. cbn [Frame.truthy default].
  destruct (Frame.truthy (Frame.q2 row)); reflexivity.
Qed.

Lemma bird_row_q2 (row : Frame.Row) (q : string) :
  Frame.q2 row = Some q -> q <> EmptyString ->
  Frame.q2_mapped (Bird.process_row parse_one sql limit schemas_data row)
  = Bird.map_sql_query parse_one sql limit (bird_mapper schemas_data row) q false.
Proof.
  intros Hq Hne. unfold Bird.process_row. fold (bird_mapper schemas_data row).
  rewrite Hq. destruct q as [|c q]; [contradiction|]. reflexivity.
Qed.

End BirdRows.

Lemma leetcode_row_q1 (schemas_data : Frame.Schemas) (row : Frame.Row) (q : string) :
  Frame.q1 row = Some q -> q <> EmptyString ->
  Frame.q1_mapped (Leetcode.process_row schemas_data row)
  = Leetcode._fallback_mapping (leetcode_mapper schemas_data row) q.
Proof.
  intros Hq Hne. unfold Leetcode.process_row. fold (leetcode_mapper schemas_data row).
  rewrite Hq. destruct q as [|c q]; [contradiction|]. cbn [Frame.truthy default].
  destruct (Frame.truthy (Frame.q2 row)); reflexivity.
Qed.

Lemma leetcode_row_q2 (schemas_data : Frame.Schemas) (row : Frame.Row) (q : string) :
  Frame.q2 row = Some q -> q <> EmptyString ->
  Frame.q2_mapped (Leetcode.process_row schemas_data row)
  = Leetcode._fallback_mapping (leetcode_mapper schemas_data row) q.
Proof.
  intros Hq Hne. unfold Leetcode.process_row. fold (leetcode_mapper schemas_data row).
  rewrite Hq. destruct q as [|c q]; [contradiction|]. reflexivity.
Qed.

Lemma empty_mapper_sets (node : Sqlglot.Expression) :
  table_sets (Bird.init [] []) node = [] /\ column_sets (Bird.init [] []) node = [].
Proof.
  unfold table_sets, column_sets. cbn [Bird.init Bird.upper_keys fold_left
    Bird.table_mapping Bird.column_mapping Dict.get].
  destruct (Sqlglot.isinstance node Sqlglot.Table),
           (Sqlglot.isinstance node Sqlglot.Column); split; try reflexivity;
    destruct (Sqlglot.table node); reflexivity.
Qed.

(** With empty mappings both passes leave the tree as it was parsed. *)
Lemma empty_mapper_passes (limit : nat) (parsed : Sqlglot.Expression) :
  Sqlglot.depth parsed < limit ->
  Sqlglot.transform limit (Bird.transform_table (Bird.init [] [])) parsed = Some parsed
  /\ Sqlglot.transform limit (Bird.transform_column (Bird.init [] [])) parsed
     = Some parsed.
Proof.
  intros Hd. split.
  - rewrite (transform_rewritten _ (table_sets (Bird.init [] [])));
      [|apply transform_table_sets|reflexivity|assumption].
    f_equal. pose proof (rewritten_nil (table_sets (Bird.init [] [])) parsed
                           (fun n => proj1 (empty_mapper_sets n))) as H.
    destruct parsed; try reflexivity; exact H.
  - rewrite (transform_rewritten _ (column_sets (Bird.init [] [])));
      [|apply transform_column_sets|reflexivity|assumption].
    f_equal. pose proof (rewritten_nil (column_sets (Bird.init [] [])) parsed
                           (fun n => proj2 (empty_mapper_sets n))) as H.
    destruct parsed; try reflexivity; exact H.
Qed.

(** C1, as the claim states it, fails for the structural driver: for a row
    of a database without mappings whose query is [select a from t], the
    mapped output is the text generated from the parsed tree,
    [SELECT a FROM t], not the query as it was given. *)
Lemma missing_mapping_output_differs :
  Dict.get RowFixture.no_schemas (Frame.dbid RowFixture.lowercase_row) = None
  /\ Frame.q1 RowFixture.lowercase_row = Some "select a from t"
  /\ Frame.q1_mapped
       (Bird.process_row BirdFixture.parse_one BirdFixture.sql BirdFixture.limit
          RowFixture.no_schemas RowFixture.lowercase_row)
     = Some "SELECT a FROM t"
  /\ Frame.q1_mapped
       (Bird.process_row BirdFixture.parse_one BirdFixture.sql BirdFixture.limit
          RowFixture.no_schemas RowFixture.lowercase_row)
     <> Frame.q1 RowFixture.lowercase_row.
Proof.
  split; [reflexivity|]. split; [reflexivity|]. split; [vm_compute; reflexivity|].
  vm_compute. discriminate.
Qed.

(** A query that does not parse gives no output at all there. *)
Example missing_mapping_broken_query :
  Frame.q1_mapped
    (Bird.process_row BirdFixture.parse_one BirdFixture.sql BirdFixture.limit
       RowFixture.no_schemas RowFixture.broken_row)
  = None.
Proof. vm_compute. reflexivity. Qed.

(** C1, amended. For a row whose database has no entry in the mappings and
    whose query field is not empty: the textual driver gives the query text
    as it is; the structural driver parses it, leaves every node of the tree
    as it is, and gives the text generated from that tree, or nothing when
    the query does not parse. *)
Theorem missing_mapping_row
    (parse_one : string -> option Sqlglot.Expression)
    (sql : Sqlglot.Expression -> bool -> option string) (limit : nat)
    (schemas_data : Frame.Schemas) (row : Frame.Row) (q : string) :
  Dict.get schemas_data (Frame.dbid row) = None ->
  q <> EmptyString ->
  (Frame.q1 row = Some q ->
   Frame.q1_mapped (Leetcode.process_row schemas_data row) = Some q
   /\ (parse_one q = None ->
       Frame.q1_mapped (Bird.process_row parse_one sql limit schemas_data row) = None)
   /\ (forall parsed, parse_one q = Some parsed -> Sqlglot.depth parsed < limit ->
         Frame.q1_mapped (Bird.process_row parse_one sql limit schemas_data row)
         = sql parsed false))
  /\ (Frame.q2 row = Some q ->
      Frame.q2_mapped (Leetcode.process_row schemas_data row) = Some q
      /\ (parse_one q = None ->
          Frame.q2_mapped (Bird.process_row parse_one sql limit schemas_data row) = None)
      /\ (forall parsed, parse_one q = Some parsed -> Sqlglot.depth parsed < limit ->
            Frame.q2_mapped (Bird.process_row parse_one sql limit schemas_data row)
            = sql parsed false))
  /\ (forall parsed, Sqlglot.depth parsed < limit ->
        Sqlglot.transform limit (Bird.transform_table (bird_mapper schemas_data row))
                          parsed = Some parsed
        /\ Sqlglot.transform limit (Bird.transform_column (bird_mapper schemas_data row))
                             parsed = Some parsed).
Proof.
  intros Hdb Hne.
  assert (Hbm : bird_mapper schemas_data row = Bird.init [] [])
    by (unfold bird_mapper; now rewrite Hdb).
  assert (Hlm : leetcode_mapper schemas_data row = Leetcode.init [] [])
    by (unfold leetcode_mapper; now rewrite Hdb).
  assert (Hmap : forall parsed, parse_one q = Some parsed -> Sqlglot.depth parsed < limit ->
            Bird.map_sql_query parse_one sql limit (Bird.init [] []) q false
            = sql parsed false).
  { intros parsed Hp Hd. unfold Bird.map_sql_query. rewrite Hp. cbn [bind].
    destruct (empty_mapper_passes limit parsed Hd) as [H1 H2].
    rewrite H1. cbn [bind]. rewrite H2. cbn [bind].
    destruct (sql parsed false); reflexivity. }
  assert (Hfail : parse_one q = None ->
            Bird.map_sql_query parse_one sql limit (Bird.init [] []) q false = None).
  { intros Hp. unfold Bird.map_sql_query. now rewrite Hp. }
  split; [|split].
  - intros Hq. rewrite (leetcode_row_q1 _ _ _ Hq Hne), Hlm.
    rewrite (bird_row_q1 _ _ _ _ _ _ Hq Hne), Hbm. auto using fallback_mapping_empty.
  - intros Hq. rewrite (leetcode_row_q2 _ _ _ Hq Hne), Hlm.
    rewrite (bird_row_q2 _ _ _ _ _ _ Hq Hne), Hbm. auto using fallback_mapping_empty.
  - intros parsed Hd. rewrite Hbm. now apply empty_mapper_passes.
Qed.

Lemma missing_mapping_row_witness :
  Frame.q1_mapped (Leetcode.process_row RowFixture.no_schemas RowFixture.lowercase_row)
  = Some "select a from t"
  /\ Frame.q1_mapped
       (Bird.process_row BirdFixture.parse_one BirdFixture.sql BirdFixture.limit
          RowFixture.no_schemas RowFixture.lowercase_row)
     = BirdFixture.sql (BirdFixture.select [BirdFixture.column "" "a"] "t") false.
Proof.
  destruct (missing_mapping_row BirdFixture.parse_one BirdFixture.sql BirdFixture.limit
              RowFixture.no_schemas RowFixture.lowercase_row "select a from t"
              eq_refl) as (H1 & _ & _).
  { discriminate. }
  destruct (H1 eq_refl) as (Hl & _ & Hb).
  split; [exact Hl|].
  apply Hb; [reflexivity|]. vm_compute. lia.
Defined.

(** C3, as the claim states it, fails for the textual driver: it does not
    parse, so for a query that is not valid SQL (here a string literal is
    left open, which [parse_one] refuses) the mapping step returns a text
    and the derived field is not left empty. *)
Lemma invalid_query_mapped_by_textual_driver :
  BirdFixture.parse_one BirdFixture.broken_sql = None
  /\ Frame.q1 RowFixture.broken_row = Some "SELECT 'abc"
  /\ Leetcode.map_sql_query (leetcode_mapper RowFixture.no_schemas RowFixture.broken_row)
                            "SELECT 'abc" false
     = Some "SELECT 'abc"
  /\ Frame.q1_mapped (Leetcode.process_row RowFixture.no_schemas RowFixture.broken_row)
     = Some "SELECT 'abc"
  /\ Frame.q1_mapped (Leetcode.process_row RowFixture.no_schemas RowFixture.broken_row)
     <> None.
Proof.
  repeat split; try reflexivity. vm_compute. discriminate.
Qed.

(** C3, amended. Both drivers handle every row, in order, and a row never
    stops the loop.  In the structural driver a query field that is not
    empty and does not parse makes the mapping step return [None]; the
    derived field is then empty and the other field of the row is still
    handled.  The textual driver does not parse: the derived field is what
    the substitutions give. *)
Theorem invalid_query_is_local
    (parse_one : string -> option Sqlglot.Expression)
    (sql : Sqlglot.Expression -> bool -> option string) (limit : nat)
    (schemas_data : Frame.Schemas) :
  (forall df : list Frame.Row,
      Bird.process_bird_csv parse_one sql limit schemas_data df
      = map (Bird.process_row parse_one sql limit schemas_data) df
      /\ Leetcode.process_bird_csv schemas_data df
         = map (Leetcode.process_row schemas_data) df)
  /\ (forall (row : Frame.Row) (q : string),
         Frame.q1 row = Some q -> q <> EmptyString -> parse_one q = None ->
         Bird.map_sql_query parse_one sql limit (bird_mapper schemas_data row) q false
         = None
         /\ Frame.q1_mapped (Bird.process_row parse_one sql limit schemas_data row) = None
         /\ forall q', Frame.q2 row = Some q' -> q' <> EmptyString ->
              Frame.q2_mapped (Bird.process_row parse_one sql limit schemas_data row)
              = Bird.map_sql_query parse_one sql limit
                  (bird_mapper schemas_data row) q' false)
  /\ (forall (row : Frame.Row) (q : string),
         Frame.q2 row = Some q -> q <> EmptyString -> parse_one q = None ->
         Bird.map_sql_query parse_one sql limit (bird_mapper schemas_data row) q false
         = None
         /\ Frame.q2_mapped (Bird.process_row parse_one sql limit schemas_data row) = None
         /\ forall q', Frame.q1 row = Some q' -> q' <> EmptyString ->
              Frame.q1_mapped (Bird.process_row parse_one sql limit schemas_data row)
              = Bird.map_sql_query parse_one sql limit
                  (bird_mapper schemas_data row) q' false)
  /\ (forall (row : Frame.Row) (q : string),
         q <> EmptyString ->
         (Frame.q1 row = Some q ->
          Frame.q1_mapped (Leetcode.process_row schemas_data row)
          = Leetcode._fallback_mapping (leetcode_mapper schemas_data row) q)
         /\ (Frame.q2 row = Some q ->
             Frame.q2_mapped (Leetcode.process_row schemas_data row)
             = Leetcode._fallback_mapping (leetcode_mapper schemas_data row) q)).
Proof.
  assert (Hfail : forall self q, parse_one q = None ->
            Bird.map_sql_query parse_one sql limit self q false = None).
  { intros self q Hp. unfold Bird.map_sql_query. now rewrite Hp. }
  split; [|split; [|split]].
  - intros df. split; apply iterrows_map.
  - intros row q Hq Hne Hp. split; [now apply Hfail|]. split.
    + rewrite (bird_row_q1 _ _ _ _ _ _ Hq Hne). now apply Hfail.
    + intros q' Hq' Hne'. now apply bird_row_q2.
  - intros row q Hq Hne Hp. split; [now apply Hfail|]. split.
    + rewrite (bird_row_q2 _ _ _ _ _ _ Hq Hne). now apply Hfail.
    + intros q' Hq' Hne'. now apply bird_row_q1.
  - intros row q Hne. split; intros Hq.
    + now apply leetcode_row_q1.
    + now apply leetcode_row_q2.
Qed.

Lemma invalid_query_is_local_witness :
  Frame.q1_mapped
    (Bird.process_row BirdFixture.parse_one BirdFixture.sql BirdFixture.limit
       RowFixture.no_schemas RowFixture.broken_row) = None
  /\ Frame.q2_mapped
       (Bird.process_row BirdFixture.parse_one BirdFixture.sql BirdFixture.limit
          RowFixture.no_schemas RowFixture.broken_row)
     = Bird.map_sql_query BirdFixture.parse_one BirdFixture.sql BirdFixture.limit
         (bird_mapper RowFixture.no_schemas RowFixture.broken_row)
         "select a from t" false.
Proof.
  destruct (invalid_query_is_local BirdFixture.parse_one BirdFixture.sql
              BirdFixture.limit RowFixture.no_schemas) as (_ & H & _).
  destruct (H RowFixture.broken_row "SELECT 'abc" eq_refl) as (_ & H1 & H2).
  - discriminate.
  - reflexivity.
  - split; [exact H1|]. apply H2; [reflexivity|discriminate].
Defined.

Example broken_row_processed :
  Bird.process_bird_csv BirdFixture.parse_one BirdFixture.sql BirdFixture.limit
    RowFixture.no_schemas [RowFixture.broken_row; RowFixture.lowercase_row]
  = [ Frame.set_q2_mapped (Some "SELECT a FROM t") RowFixture.broken_row;
      Frame.set_q1_mapped (Some "SELECT a FROM t") RowFixture.lowercase_row ].
Proof. vm_compute. reflexivity. Qed.

(** * Further properties *)

(** ** Construction of a mapper *)

Section UpperKeysMore.

Local Abbreviation step :=
  (fun (acc : Dict.t string) (kv : string * string) =>
     Dict.set acc (Text.upper (fst kv)) (snd kv)).

Lemma upper_keys_distinct (d acc : Dict.t string) :
  NoDup (Dict.keys acc ++ map Text.upper (Dict.keys d)) ->
  fold_left step d acc = acc ++ map (fun kv => (Text.upper (fst kv), snd kv)) d.
Proof.
  revert acc. induction d as [|[k v] d IH]; intros acc Hnd.
  - cbn. now rewrite app_nil_r.
  - cbn [fold_left map fst snd Dict.keys] in *.
    assert (Hnew : Dict.mem acc (Text.upper k) = false).
    { unfold Dict.mem. destruct (Dict.get acc (Text.upper k)) eqn:E; [|reflexivity].
      exfalso. apply NoDup_remove_2 in Hnd. apply Hnd. apply in_or_app. left.
      apply dict_get_In in E. unfold Dict.keys.
      change (Text.upper k) with (fst (Text.upper k, s)). now apply in_map. }
    rewrite dict_values_set_new by assumption.
    rewrite IH.
    + now rewrite <- app_assoc.
    + rewrite keys_app. cbn [Dict.keys map fst]. rewrite <- app_assoc. exact Hnd.
Qed.

Lemma dict_set_length {V : Type} (d : Dict.t V) (k : string) (v : V) :
  length (Dict.set d k v) <= S (length d).
Proof.
  induction d as [|[k' v'] d IH]; cbn [Dict.set length]; [lia|].
  destruct (String.eqb k' k); cbn [length]; lia.
Qed.

Lemma upper_keys_length (d acc : Dict.t string) :
  length (fold_left step d acc) <= length acc + length d.
Proof.
  revert acc. induction d as [|[k v] d IH]; intros acc; cbn [fold_left length]; [lia|].
  specialize (IH (Dict.set acc (Text.upper (fst (k, v))) (snd (k, v)))).
  pose proof (dict_set_length acc (Text.upper (fst (k, v))) (snd (k, v))). lia.
Qed.

End UpperKeysMore.

(** X1. When no two keys the caller supplies are equal up to case,
    construction keeps every entry, in the caller's order, with its key
    upper-cased; in any case it never holds more entries than were
    supplied. *)
Theorem upper_keys_keeps_distinct_entries (mapping : Dict.t string) :
  (NoDup (map Text.upper (Dict.keys mapping)) ->
   Bird.upper_keys mapping = map (fun kv => (Text.upper (fst kv), snd kv)) mapping
   /\ Leetcode.upper_keys mapping
      = map (fun kv => (Text.upper (fst kv), snd kv)) mapping)
  /\ length (Bird.upper_keys mapping) <= length mapping
  /\ length (Leetcode.upper_keys mapping) <= length mapping.
Proof.
  split; [|split].
  - intros Hnd. split; apply (upper_keys_distinct mapping []); exact Hnd.
  - apply (upper_keys_length mapping []).
  - apply (upper_keys_length mapping []).
Qed.

Lemma upper_keys_keeps_distinct_entries_witness :
  Bird.upper_keys [("users", "t1"); ("Orders", "T2")]
  = [("USERS", "t1"); ("ORDERS", "T2")].
Proof.
  apply (proj1 (upper_keys_keeps_distinct_entries [("users", "t1"); ("Orders", "T2")])).
  repeat constructor; cbn; intuition discriminate.
Defined.

Lemma map_upper_fixed (keys : list string) :
  Forall (fun k => Text.upper k = k) keys -> map Text.upper keys = keys.
Proof.
  induction 1 as [|k keys Hk _ IH]; [reflexivity|]. cbn [map]. now rewrite Hk, IH.
Qed.

Lemma map_upper_key_fixed (d : Dict.t string) :
  Forall (fun k => Text.upper k = k) (Dict.keys d) ->
  map (fun kv => (Text.upper (fst kv), snd kv)) d = d.
Proof.
  induction d as [|[k v] d IH]; [reflexivity|]. intros H.
  inversion H as [|? ? Hk Hd]; subst. cbn [map fst snd] in *.
  now rewrite Hk, IH.
Qed.

(** X2. A mapper built from the mappings of a mapper is that mapper:
    construction changes nothing the second time. *)
Theorem init_idempotent (tables columns : Dict.t string) :
  Bird.init (Bird.table_mapping (Bird.init tables columns))
            (Bird.column_mapping (Bird.init tables columns))
  = Bird.init tables columns
  /\ Leetcode.init (Leetcode.table_mapping (Leetcode.init tables columns))
                   (Leetcode.column_mapping (Leetcode.init tables columns))
     = Leetcode.init tables columns.
Proof.
  assert (H : forall d : Dict.t string,
             fold_left (fun acc kv => Dict.set acc (Text.upper (fst kv)) (snd kv))
                       (fold_left (fun acc kv => Dict.set acc (Text.upper (fst kv)) (snd kv))
                                  d []) []
             = fold_left (fun acc kv => Dict.set acc (Text.upper (fst kv)) (snd kv)) d []).
  { intros d. destruct (fold_upper_normalized d) as (Hfix & Hnd & _).
    rewrite (upper_keys_distinct _ []).
    - cbn [app]. now apply map_upper_key_fixed.
    - cbn [Dict.keys map app]. now rewrite map_upper_fixed. }
  split.
  - unfold Bird.init, Bird.upper_keys. cbn [Bird.table_mapping Bird.column_mapping].
    now rewrite !H.
  - unfold Leetcode.init, Leetcode.upper_keys.
    cbn [Leetcode.table_mapping Leetcode.column_mapping]. now rewrite !H.
Qed.

(** ** The drivers: what they leave alone, and what the statistics count *)

Lemma process_row_sources
    (parse_one : string -> option Sqlglot.Expression)
    (sql : Sqlglot.Expression -> bool -> option string) (limit : nat)
    (schemas_data : Frame.Schemas) (row : Frame.Row) :
  let b := Bird.process_row parse_one sql limit schemas_data row in
  let l := Leetcode.process_row schemas_data row in
  (Frame.dbid b = Frame.dbid row /\ Frame.q1 b = Frame.q1 row
   /\ Frame.q2 b = Frame.q2 row)
  /\ (Frame.dbid l = Frame.dbid row /\ Frame.q1 l = Frame.q1 row
      /\ Frame.q2 l = Frame.q2 row).
Proof.
  unfold Bird.process_row, Leetcode.process_row.
  destruct (Frame.truthy (Frame.q1 row)), (Frame.truthy (Frame.q2 row));
    cbn; auto.
Qed.

(** X3. A source field that is missing or empty leaves its derived field
    as it was, in both drivers: nothing is written for it. *)
Theorem empty_source_keeps_derived
    (parse_one : string -> option Sqlglot.Expression)
    (sql : Sqlglot.Expression -> bool -> option string) (limit : nat)
    (schemas_data : Frame.Schemas) (row : Frame.Row) :
  ((Frame.q1 row = None \/ Frame.q1 row = Some EmptyString) ->
   Frame.q1_mapped (Bird.process_row parse_one sql limit schemas_data row)
   = Frame.q1_mapped row
   /\ Frame.q1_mapped (Leetcode.process_row schemas_data row) = Frame.q1_mapped row)
  /\ ((Frame.q2 row = None \/ Frame.q2 row = Some EmptyString) ->
      Frame.q2_mapped (Bird.process_row parse_one sql limit schemas_data row)
      = Frame.q2_mapped row
      /\ Frame.q2_mapped (Leetcode.process_row schemas_data row) = Frame.q2_mapped row).
Proof.
  unfold Bird.process_row, Leetcode.process_row.
  split; intros [H|H]; rewrite H; cbn [Frame.truthy];
    destruct (Frame.truthy _); auto.
Qed.

Lemma empty_source_keeps_derived_witness :
  Frame.q2_mapped
    (Bird.process_row BirdFixture.parse_one BirdFixture.sql BirdFixture.limit
       RowFixture.no_schemas RowFixture.lowercase_row)
  = Frame.q2_mapped RowFixture.lowercase_row.
Proof.
  apply (proj2 (empty_source_keeps_derived BirdFixture.parse_one BirdFixture.sql
                  BirdFixture.limit RowFixture.no_schemas RowFixture.lowercase_row)).
  left. reflexivity.
Defined.

(** X4. Both drivers return as many rows as they were given, in the same
    order, and change no database identifier and no source query. *)
Theorem drivers_keep_sources
    (parse_one : string -> option Sqlglot.Expression)
    (sql : Sqlglot.Expression -> bool -> option string) (limit : nat)
    (schemas_data : Frame.Schemas) (df : list Frame.Row) :
  let b := Bird.process_bird_csv parse_one sql limit schemas_data df in
  let l := Leetcode.process_bird_csv schemas_data df in
  (length b = length df
   /\ map Frame.dbid b = map Frame.dbid df
   /\ map Frame.q1 b = map Frame.q1 df
   /\ map Frame.q2 b = map Frame.q2 df)
  /\ (length l = length df
      /\ map Frame.dbid l = map Frame.dbid df
      /\ map Frame.q1 l = map Frame.q1 df
      /\ map Frame.q2 l = map Frame.q2 df).
Proof.
  cbv zeta. unfold Bird.process_bird_csv, Leetcode.process_bird_csv.
  rewrite !iterrows_map, !length_map, !map_map.
  repeat split; try reflexivity; apply map_ext; intros row;
    apply (process_row_sources parse_one sql limit schemas_data row).
Qed.

Lemma count_partition (A B : Frame.Row -> bool) (rows : list Frame.Row) :
  (forall r, In r rows -> A r = true -> B r = true) ->
  Stats.count A rows + Stats.count (fun r => B r && negb (A r)) rows
  = Stats.count B rows.
Proof.
  unfold Stats.count. induction rows as [|r rows IH]; intros H; [reflexivity|].
  cbn [filter]. specialize (IH (fun x Hx => H x (or_intror Hx))).
  specialize (H r (or_introl eq_refl)).
  destruct (A r) eqn:Ea, (B r) eqn:Eb; cbn [andb negb length];
    first [lia | specialize (H eq_refl); discriminate].
Qed.

Lemma count_map (f : Frame.Row -> Frame.Row) (test : Frame.Row -> bool)
    (rows : list Frame.Row) :
  Stats.count test (map f rows) = Stats.count (fun r => test (f r)) rows.
Proof.
  unfold Stats.count. induction rows as [|r rows IH]; [reflexivity|].
  cbn [map filter]. destruct (test (f r)); cbn [length]; now rewrite IH.
Qed.

Lemma count_ext (s t : Frame.Row -> bool) (rows : list Frame.Row) :
  (forall r, s r = t r) -> Stats.count s rows = Stats.count t rows.
Proof.
  intros H. unfold Stats.count. now rewrite (filter_ext s t H).
Qed.

(** X5. When the derived columns start empty, the statistics count every
    row that has a query exactly once: the number of mapped queries and the
    number of failed queries add up to the number of rows whose query cell is
    not missing.  This holds for both fields and both drivers. *)
Theorem statistics_count_each_query_once
    (parse_one : string -> option Sqlglot.Expression)
    (sql : Sqlglot.Expression -> bool -> option string) (limit : nat)
    (schemas_data : Frame.Schemas) (df : list Frame.Row) :
  (forall row, In row df ->
     Frame.q1_mapped row = None /\ Frame.q2_mapped row = None) ->
  let b := Bird.process_bird_csv parse_one sql limit schemas_data df in
  let l := Leetcode.process_bird_csv schemas_data df in
  Stats.q1_mapped_count b + Stats.q1_failed_count b
    = Stats.count (fun r => Stats.notna (Frame.q1 r)) df
  /\ Stats.q2_mapped_count b + Stats.q2_failed_count b
     = Stats.count (fun r => Stats.notna (Frame.q2 r)) df
  /\ Stats.q1_mapped_count l + Stats.q1_failed_count l
     = Stats.count (fun r => Stats.notna (Frame.q1 r)) df
  /\ Stats.q2_mapped_count l + Stats.q2_failed_count l
     = Stats.count (fun r => Stats.notna (Frame.q2 r)) df.
Proof.
  intros Hempty. cbv zeta.
  unfold Bird.process_bird_csv, Leetcode.process_bird_csv,
    Stats.q1_mapped_count, Stats.q1_failed_count,
    Stats.q2_mapped_count, Stats.q2_failed_count.
  rewrite !iterrows_map.
  assert (Hsrc := fun row => process_row_sources parse_one sql limit schemas_data row).
  cbv zeta in Hsrc.
  assert (Hemp : forall row,
             (Frame.q1 row = None ->
              Frame.q1_mapped (Bird.process_row parse_one sql limit schemas_data row)
              = Frame.q1_mapped row
              /\ Frame.q1_mapped (Leetcode.process_row schemas_data row)
                 = Frame.q1_mapped row)
             /\ (Frame.q2 row = None ->
                 Frame.q2_mapped (Bird.process_row parse_one sql limit schemas_data row)
                 = Frame.q2_mapped row
                 /\ Frame.q2_mapped (Leetcode.process_row schemas_data row)
                    = Frame.q2_mapped row)).
  { intros row. unfold Bird.process_row, Leetcode.process_row.
    split; intros H; rewrite H; cbn [Frame.truthy];
      destruct (Frame.truthy _); auto. }
  assert (Hb1 : forall r, In r df ->
            Stats.notna (Frame.q1_mapped
                           (Bird.process_row parse_one sql limit schemas_data r)) = true ->
            Stats.notna (Frame.q1 (Bird.process_row parse_one sql limit schemas_data r))
            = true).
  { intros r Hr Hm. destruct (Hsrc r) as ((_ & E & _) & _). rewrite E.
    destruct (Frame.q1 r) eqn:Eq; [reflexivity|].
    destruct (proj1 (Hemp r) Eq) as [H _].
    rewrite H, (proj1 (Hempty r Hr)) in Hm. discriminate. }
  assert (Hb2 : forall r, In r df ->
            Stats.notna (Frame.q2_mapped
                           (Bird.process_row parse_one sql limit schemas_data r)) = true ->
            Stats.notna (Frame.q2 (Bird.process_row parse_one sql limit schemas_data r))
            = true).
  { intros r Hr Hm. destruct (Hsrc r) as ((_ & _ & E) & _). rewrite E.
    destruct (Frame.q2 r) eqn:Eq; [reflexivity|].
    destruct (proj2 (Hemp r) Eq) as [H _].
    rewrite H, (proj2 (Hempty r Hr)) in Hm. discriminate. }
  assert (Hl1 : forall r, In r df ->
            Stats.notna (Frame.q1_mapped (Leetcode.process_row schemas_data r)) = true ->
            Stats.notna (Frame.q1 (Leetcode.process_row schemas_data r)) = true).
  { intros r Hr Hm. destruct (Hsrc r) as (_ & (_ & E & _)). rewrite E.
    destruct (Frame.q1 r) eqn:Eq; [reflexivity|].
    destruct (proj1 (Hemp r) Eq) as [_ H].
    rewrite H, (proj1 (Hempty r Hr)) in Hm. discriminate. }
  assert (Hl2 : forall r, In r df ->
            Stats.notna (Frame.q2_mapped (Leetcode.process_row schemas_data r)) = true ->
            Stats.notna (Frame.q2 (Leetcode.process_row schemas_data r)) = true).
  { intros r Hr Hm. destruct (Hsrc r) as (_ & (_ & _ & E)). rewrite E.
    destruct (Frame.q2 r) eqn:Eq; [reflexivity|].
    destruct (proj2 (Hemp r) Eq) as [_ H].
    rewrite H, (proj2 (Hempty r Hr)) in Hm. discriminate. }
  rewrite !count_map.
  rewrite (count_partition _ (fun r => Stats.notna (Frame.q1 (Bird.process_row
             parse_one sql limit schemas_data r))) df Hb1).
  rewrite (count_partition _ (fun r => Stats.notna (Frame.q2 (Bird.process_row
             parse_one sql limit schemas_data r))) df Hb2).
  rewrite (count_partition _ (fun r => Stats.notna (Frame.q1 (Leetcode.process_row
             schemas_data r))) df Hl1).
  rewrite (count_partition _ (fun r => Stats.notna (Frame.q2 (Leetcode.process_row
             schemas_data r))) df Hl2).
  repeat split; apply count_ext; intros r; f_equal; apply Hsrc.
Qed.

Lemma statistics_count_each_query_once_witness :
  Stats.q1_mapped_count
    (Bird.process_bird_csv BirdFixture.parse_one BirdFixture.sql BirdFixture.limit
       RowFixture.no_schemas [RowFixture.broken_row; RowFixture.lowercase_row])
  + Stats.q1_failed_count
      (Bird.process_bird_csv BirdFixture.parse_one BirdFixture.sql BirdFixture.limit
         RowFixture.no_schemas [RowFixture.broken_row; RowFixture.lowercase_row])
  = 2.
Proof.
  assert (Hempty : forall row,
             In row [RowFixture.broken_row; RowFixture.lowercase_row] ->
             Frame.q1_mapped row = None /\ Frame.q2_mapped row = None).
  { intros row [<-|[<-|[]]]; split; reflexivity. }
  exact (proj1 (statistics_count_each_query_once BirdFixture.parse_one BirdFixture.sql
                  BirdFixture.limit RowFixture.no_schemas
                  [RowFixture.broken_row; RowFixture.lowercase_row] Hempty)).
Defined.

(** ** The labels of [get_labeled.py] *)

Lemma last_state_app (states : list string) (state : string) :
  Labels.last_state (states ++ [state]) = Some state.
Proof.
  induction states as [|s states IH]; [reflexivity|].
  change ((s :: states) ++ [state]) with (s :: (states ++ [state])).
  destruct (states ++ [state]) as [|s' l'] eqn:E.
  - destruct states; discriminate.
  - exact IH.
Qed.

Lemma last_state_In (states : list string) (state : string) :
  Labels.last_state states = Some state -> In state states.
Proof.
  induction states as [|s states IH]; [discriminate|].
  cbn [Labels.last_state]. destruct states as [|s' states'].
  - intros [= ->]. now left.
  - intros H. right. now apply IH.
Qed.

Lemma is_failure_not_TMO_EQU (state : string) :
  Labels.is_failure state = true -> state <> "TMO" /\ state <> "EQU".
Proof.
  unfold Labels.is_failure. cbn [existsb]. intros H.
  split; intros ->; discriminate.
Qed.

(** X6. The label of a list of states: it is N exactly when the list is
    not empty, does not end with TMO and holds one of NEQ, SYN, NSE, NIE; it
    is Y exactly when the list ends with TMO, or is not empty and holds
    nothing but EQU; in every other case there is no label.  A final TMO so
    wins over any failure before it. *)
Theorem label_of_states (states : list string) :
  (Labels.correct states = Some "N" <->
   Labels.last_state states <> Some "TMO"
   /\ exists state, In state states /\ Labels.is_failure state = true)
  /\ (Labels.correct states = Some "Y" <->
      Labels.last_state states = Some "TMO"
      \/ (states <> [] /\ Forall (fun state => state = "EQU") states))
  /\ (Labels.correct states = None \/ Labels.correct states = Some "Y"
      \/ Labels.correct states = Some "N")
  /\ (forall before, Labels.correct (before ++ ["TMO"]) = Some "Y").
Proof.
  assert (Hlast : forall l : list string,
             (match Labels.last_state l with
              | Some state => String.eqb state "TMO"
              | None => false
              end = true) <-> Labels.last_state l = Some "TMO").
  { intros l. destruct (Labels.last_state l) as [s|].
    - rewrite String.eqb_eq. split; [now intros ->|now intros [= ->]].
    - split; discriminate. }
  assert (Hall : forall l : list string,
             forallb (fun state => String.eqb state "EQU") l = true
             <-> Forall (fun state => state = "EQU") l).
  { intros l. rewrite forallb_forall, Forall_forall.
    split; intros H x Hx; specialize (H x Hx); now apply String.eqb_eq. }
  assert (Hex : forall l : list string,
             existsb Labels.is_failure l = true
             <-> exists state, In state l /\ Labels.is_failure state = true).
  { intros l. apply existsb_exists. }
  assert (Hne : forall l : list string, Labels.nonempty l = true <-> l <> []).
  { intros l. destruct l; cbn; split; congruence. }
  unfold Labels.correct.
  destruct (Labels.nonempty states) eqn:En; cbn [andb].
  - destruct (match Labels.last_state states with
              | Some state => String.eqb state "TMO" | None => false end) eqn:El.
    + apply Hlast in El. repeat split; try discriminate; auto.
      * intros [H _]. contradiction.
      * intros before. cbn. destruct before; cbn [app Labels.nonempty andb];
          now rewrite ?last_state_app, ?String.eqb_refl.
    + assert (El' : Labels.last_state states <> Some "TMO")
        by (intros H; apply Hlast in H; congruence).
      destruct (existsb Labels.is_failure states) eqn:Ef.
      * apply Hex in Ef. repeat split; try discriminate; auto.
        -- intros [H|[_ H]]; [contradiction|].
           destruct Ef as (s & Hs & Hf). rewrite Forall_forall in H.
           apply is_failure_not_TMO_EQU in Hf as [_ Hf]. now apply H in Hs.
        -- intros before. destruct before; cbn [app Labels.nonempty andb];
             now rewrite ?last_state_app, ?String.eqb_refl.
      * destruct (forallb _ states) eqn:Ea.
        -- apply Hall in Ea. repeat split; try discriminate; auto.
           ++ intros [_ H]. apply Hex in H. congruence.
           ++ intros _. right. split; [now apply Hne|assumption].
           ++ intros before. destruct before; cbn [app Labels.nonempty andb];
                now rewrite ?last_state_app, ?String.eqb_refl.
        -- repeat split; try discriminate; auto.
           ++ intros [_ H]. apply Hex in H. congruence.
           ++ intros [H|[_ H]]; [contradiction|]. apply Hall in H. congruence.
           ++ intros before. destruct before; cbn [app Labels.nonempty andb];
                now rewrite ?last_state_app, ?String.eqb_refl.
  - destruct states; [|discriminate]. repeat split; try discriminate; auto.
    + intros [_ (s & [] & _)].
    + intros [H|[H _]]; [discriminate|congruence].
    + intros before. destruct before; cbn [app Labels.nonempty andb];
        now rewrite ?last_state_app, ?String.eqb_refl.
Qed.

Example label_examples :
  Labels.correct ["EQU"; "NEQ"; "TMO"] = Some "Y"
  /\ Labels.correct ["EQU"; "TMO"; "NEQ"] = Some "N"
  /\ Labels.correct ["EQU"; "EQU"] = Some "Y"
  /\ Labels.correct ["EQU"; "UNK"] = None
  /\ Labels.correct [] = None.
Proof. repeat split. Qed.

(** ** [load_mapping_from_schemas_json] *)

Lemma json_contains_getitem (data entry : Json.t) (key : string) :
  Json.getitem data key = Some entry -> Json.contains data key = Some true.
Proof.
  destruct data as [items| | |]; try discriminate. cbn. unfold Dict.mem.
  now intros ->.
Qed.

Lemma json_getitem_not_contained (data : Json.t) (key : string) :
  Json.contains data key = Some false -> Json.getitem data key = None.
Proof.
  destruct data as [items|elements|s|]; try reflexivity; try discriminate.
  cbn. unfold Dict.mem. destruct (Dict.get items key); [discriminate|reflexivity].
Qed.

Lemma load_mapping_chain
    (read_json : string -> option Json.t) (file_path database_name : string) :
  Loader.load_mapping_from_schemas_json read_json file_path database_name =
  match
    (data <- read_json file_path ;;
     entry <- Json.getitem data database_name ;;
     mapping <- Json.getitem entry "mapping" ;;
     tables <- Json.getitem mapping "tables" ;;
     columns <- Json.getitem mapping "columns" ;;
     Some (tables, columns))
  with
  | Some loaded => loaded
  | None => (Json.Object [], Json.Object [])
  end.
Proof.
  unfold Loader.load_mapping_from_schemas_json, try_except.
  destruct (read_json file_path) as [data|]; [|reflexivity]. cbn [bind].
  destruct (Json.getitem data database_name) as [entry|] eqn:E.
  - rewrite (json_contains_getitem _ _ _ E). reflexivity.
  - destruct (Json.contains data database_name) as [[|]|]; reflexivity.
Qed.

(** X7. Loading the mappings of a database gives two empty dictionaries
    when the file cannot be read, when the document has no entry for the
    database (or is no object at all), when the entry has no mapping, and
    when the mapping lacks the tables or the columns; and when all of these
    are there it gives the tables and the columns of that mapping. *)
Theorem load_mapping_or_empty
    (read_json : string -> option Json.t) (file_path database_name : string) :
  let loaded := Loader.load_mapping_from_schemas_json read_json file_path database_name in
  let empty := (Json.Object [], Json.Object []) in
  (read_json file_path = None -> loaded = empty)
  /\ (forall data, read_json file_path = Some data ->
        (Json.getitem data database_name = None -> loaded = empty)
        /\ forall entry, Json.getitem data database_name = Some entry ->
             (Json.getitem entry "mapping" = None -> loaded = empty)
             /\ forall mapping, Json.getitem entry "mapping" = Some mapping ->
                  (Json.getitem mapping "tables" = None -> loaded = empty)
                  /\ (Json.getitem mapping "columns" = None -> loaded = empty)
                  /\ forall tables columns,
                       Json.getitem mapping "tables" = Some tables ->
                       Json.getitem mapping "columns" = Some columns ->
                       loaded = (tables, columns)).
Proof.
  cbv zeta. rewrite load_mapping_chain. split.
  - now intros ->.
  - intros data ->. cbn [bind]. split; [now intros ->|].
    intros entry ->. cbn [bind]. split; [now intros ->|].
    intros mapping ->. cbn [bind]. split; [now intros ->|]. split.
    + intros ->. now destruct (Json.getitem mapping "tables").
    + now intros tables columns -> ->.
Qed.

Lemma load_mapping_or_empty_witness :
  Loader.load_mapping_from_schemas_json (fun _ => None) "schemas.json" "shop"
  = (Json.Object [], Json.Object [])
  /\ Loader.load_mapping_from_schemas_json
       (fun _ => Some (Json.Array [Json.Str "shop"])) "schemas.json" "shop"
     = (Json.Object [], Json.Object []).
Proof.
  split.
  - apply (proj1 (load_mapping_or_empty (fun _ => None) "schemas.json" "shop")).
    reflexivity.
  - apply (proj1 (proj2 (load_mapping_or_empty
                           (fun _ => Some (Json.Array [Json.Str "shop"]))
                           "schemas.json" "shop")
                        _ eq_refl)).
    reflexivity.
Defined.

Lemma dict_get_map_values {V W : Type} (f : V -> W) (d : Dict.t V) (k : string) :
  Dict.get (map (fun kv => (fst kv, f (snd kv))) d) k = option_map f (Dict.get d k).
Proof.
  induction d as [|[k' v] d IH]; [reflexivity|].
  cbn [map Dict.get fst snd]. destruct (String.eqb k' k); [reflexivity|exact IH].
Qed.

(** X8. On the document that holds the drivers' mappings the loader gives,
    for every database, the two dictionaries the drivers hand to the mapper
    for it: the entry's when the database is there, two empty ones when it
    is not. *)
Theorem loader_agrees_with_drivers
    (read_json : string -> option Json.t) (file_path database_name : string)
    (schemas_data : Frame.Schemas) :
  read_json file_path = Some (schemas_json schemas_data) ->
  Loader.load_mapping_from_schemas_json read_json file_path database_name
  = (dict_json (fst (driver_mappings schemas_data database_name)),
     dict_json (snd (driver_mappings schemas_data database_name)))
  /\ bird_mapper schemas_data
       {| Frame.dbid := database_name; Frame.q1 := None; Frame.q2 := None;
          Frame.q1_mapped := None; Frame.q2_mapped := None |}
     = Bird.init (fst (driver_mappings schemas_data database_name))
                 (snd (driver_mappings schemas_data database_name)).
Proof.
  intros Hread. split.
  - rewrite load_mapping_chain, Hread. cbn [bind].
    unfold schemas_json, driver_mappings. cbn [Json.getitem].
    rewrite (dict_get_map_values entry_json).
    destruct (Dict.get schemas_data database_name) as [[t c]|]; reflexivity.
  - unfold bird_mapper, driver_mappings. cbn [Frame.dbid].
    destruct (Dict.get schemas_data database_name) as [[t c]|]; reflexivity.
Qed.

Lemma loader_agrees_with_drivers_witness :
  Loader.load_mapping_from_schemas_json
    (fun _ => Some (schemas_json [("shop", ([("ITEM", "t1")], [("PRICE", "c1")]))]))
    "schemas.json" "shop"
  = (dict_json [("ITEM", "t1")], dict_json [("PRICE", "c1")])
  /\ Loader.load_mapping_from_schemas_json
       (fun _ => Some (schemas_json [("shop", ([("ITEM", "t1")], [("PRICE", "c1")]))]))
       "schemas.json" "bank"
     = (Json.Object [], Json.Object []).
Proof.
  split.
  - apply (loader_agrees_with_drivers
             (fun _ => Some (schemas_json [("shop", ([("ITEM", "t1")], [("PRICE", "c1")]))]))
             "schemas.json" "shop" [("shop", ([("ITEM", "t1")], [("PRICE", "c1")]))]).
    reflexivity.
  - apply (loader_agrees_with_drivers
             (fun _ => Some (schemas_json [("shop", ([("ITEM", "t1")], [("PRICE", "c1")]))]))
             "schemas.json" "bank" [("shop", ([("ITEM", "t1")], [("PRICE", "c1")]))]).
    reflexivity.
Defined.

(** ** The schema anonymizer: what it skips, when it raises, what it returns *)

Lemma scan_expr_total (exprs : list Sqlglot.Expression) (st : Mapping.state) :
  (exists st', foldM Mapping.scan_expr exprs st = Some st')
  <-> forallb (fun expr =>
                 if Sqlglot.isinstance expr Sqlglot.ColumnDef
                 then Sqlglot.is_expression (Sqlglot.arg "this" expr)
                 else true) exprs = true.
Proof.
  revert st. induction exprs as [|e exprs IH]; intros st; cbn [foldM forallb].
  - split; eauto.
  - unfold Mapping.scan_expr at 1.
    destruct (Sqlglot.isinstance e Sqlglot.ColumnDef).
    + destruct (Sqlglot.arg "this" e) eqn:E; cbn [Sqlglot.is_expression andb bind];
        try (split; [intros [? H]; discriminate|discriminate]).
      apply IH.
    + cbn [bind andb]. apply IH.
Qed.

Lemma scan_statement_total (statement : Sqlglot.Expression) (st : Mapping.state) :
  (exists st', Mapping.scan_statement st statement = Some st')
  <-> scannable statement = true.
Proof.
  unfold Mapping.scan_statement, scannable. fold (is_create_table statement).
  destruct (is_create_table statement); [|split; eauto].
  destruct (Sqlglot.arg "this" statement) as [c a| | | |] eqn:E;
    cbn [Sqlglot.is_expression andb];
    try (split; [intros [? H]; discriminate|discriminate]).
  set (st1 := Mapping.add_table _ st).
  rewrite <- (scan_expr_total _ st1).
  destruct (Sqlglot.expressions (Sqlglot.Expr c a)); [|reflexivity].
  cbn [foldM]. reflexivity.
Qed.

Lemma scan_total (parsed : list Sqlglot.Expression) (st : Mapping.state) :
  (exists st', foldM Mapping.scan_statement parsed st = Some st')
  <-> forallb scannable parsed = true.
Proof.
  revert st. induction parsed as [|s parsed IH]; intros st; cbn [foldM forallb].
  - split; eauto.
  - rewrite andb_true_iff, <- (scan_statement_total s st).
    destruct (Mapping.scan_statement st s) as [st1|]; cbn [bind].
    + rewrite IH. split; [intros H; split; eauto|now intros [_ H]].
    + split; [intros [? H]; discriminate|intros [[? H] _]; discriminate].
Qed.

Lemma sub_plain_total (p : Re.pattern) (icase : bool) (repl text : string) :
  plain repl = true -> exists out, Re.sub p icase repl text = Some out.
Proof.
  intros Hp. unfold Re.sub. rewrite parse_template_plain by assumption.
  cbn [bind]. eauto.
Qed.

Lemma replace_names_total (mapping : Dict.t string) (text : string) :
  Forall (fun kv => plain (snd kv) = true) mapping ->
  exists out, Mapping.replace_names mapping text = Some out.
Proof.
  intros H. unfold Mapping.replace_names.
  assert (Hs : Forall (fun kv => plain (snd kv) = true) (Dict.sorted_by_len_desc mapping)).
  { rewrite Forall_forall in *. intros x Hx. apply H.
    eapply Permutation_in; [apply sorted_by_len_desc_perm|exact Hx]. }
  clear H. revert text.
  induction Hs as [|kv items Hkv _ IH]; intros text; cbn [foldM]; [eauto|].
  destruct (sub_plain_total (Re.word (fst kv)) false (snd kv) text Hkv) as [out ->].
  cbn [bind]. apply IH.
Qed.

(** X9. The anonymizer raises in two cases only: when the parser raises, and
    when a statement that creates a table has no node for its table, or a
    column definition without a node for its name.  The substitutions that
    follow the scan never raise. *)
Theorem anonymizer_raises_only_on_malformed_trees
    (parse : string -> option (list Sqlglot.Expression)) (schema_sql : string) :
  Mapping.extract_and_map_schema parse schema_sql = None
  <-> parse schema_sql = None
      \/ exists parsed, parse schema_sql = Some parsed
                        /\ forallb scannable parsed = false.
Proof.
  unfold Mapping.extract_and_map_schema.
  destruct (parse schema_sql) as [parsed|]; cbn [bind];
    [|split; [now left|reflexivity]].
  destruct (foldM Mapping.scan_statement parsed Mapping.initial) as [st|] eqn:Hscan;
    cbn [bind].
  - assert (Hok : forallb scannable parsed = true)
      by (apply (proj1 (scan_total parsed Mapping.initial)); eauto).
    assert (Hplain : forall m, m = Mapping.table_mapping st \/ m = Mapping.column_mapping st ->
              Forall (fun kv => plain (snd kv) = true) m).
    { intros m Hm. apply Forall_forall. intros [k v] Hin.
      apply (scan_dummies_plain parsed st k v Hscan).
      destruct Hm as [-> | ->]; auto. }
    destruct (replace_names_total (Mapping.table_mapping st) schema_sql
                (Hplain _ (or_introl eq_refl))) as [t ->]. cbn [bind].
    destruct (replace_names_total (Mapping.column_mapping st) t
                (Hplain _ (or_intror eq_refl))) as [u ->]. cbn [bind].
    split; [discriminate|].
    intros [H|(parsed' & [= <-] & H)]; [discriminate|congruence].
  - split; [|reflexivity]. intros _. right. exists parsed. split; [reflexivity|].
    destruct (forallb scannable parsed) eqn:E; [|reflexivity].
    apply (proj2 (scan_total parsed Mapping.initial)) in E. destruct E as [st' E].
    congruence.
Qed.

Lemma scan_skips (parsed : list Sqlglot.Expression) (st : Mapping.state) :
  foldM Mapping.scan_statement (filter is_create_table parsed) st
  = foldM Mapping.scan_statement parsed st.
Proof.
  revert st. induction parsed as [|s parsed IH]; intros st; [reflexivity|].
  cbn [filter foldM]. destruct (is_create_table s) eqn:E.
  - cbn [foldM]. destruct (Mapping.scan_statement st s); cbn [bind]; [apply IH|reflexivity].
  - unfold Mapping.scan_statement at 2. fold (is_create_table s). rewrite E.
    cbn [bind]. apply IH.
Qed.

(** X10. Statements that do not create a table take no part: the result is
    the one for the table creations alone, and a schema without any is
    returned as it is, with an empty mapping. *)
Theorem anonymizer_ignores_other_statements
    (parse parse' : string -> option (list Sqlglot.Expression))
    (schema_sql : string) (parsed : list Sqlglot.Expression) :
  parse schema_sql = Some parsed ->
  (parse' schema_sql = Some (filter is_create_table parsed) ->
   Mapping.extract_and_map_schema parse schema_sql
   = Mapping.extract_and_map_schema parse' schema_sql)
  /\ (filter is_create_table parsed = [] ->
      Mapping.extract_and_map_schema parse schema_sql = Some (schema_sql, [])).
Proof.
  intros Hp. unfold Mapping.extract_and_map_schema. rewrite Hp. cbn [bind]. split.
  - intros ->. cbn [bind]. now rewrite scan_skips.
  - intros Hnone. rewrite <- scan_skips, Hnone. reflexivity.
Qed.

Lemma anonymizer_ignores_other_statements_witness :
  Mapping.extract_and_map_schema
    (fun _ => Some [Sqlglot.Expr Sqlglot.Create
                      [("this", Sqlglot.Expr (Sqlglot.Other "Index")
                                 [("this", Fixture.identifier "idx");
                                  ("table", Sqlglot.Expr Sqlglot.Table
                                              [("this", Fixture.identifier "ITEM")])]);
                       ("kind", Sqlglot.Str "INDEX")]])
    "CREATE INDEX idx ON ITEM (PRICE)"
  = Some ("CREATE INDEX idx ON ITEM (PRICE)", []).
Proof.
  apply (proj2 (anonymizer_ignores_other_statements
                  (fun _ => Some [Sqlglot.Expr Sqlglot.Create
                                    [("this", Sqlglot.Expr (Sqlglot.Other "Index")
                                                [("this", Fixture.identifier "idx");
                                                 ("table", Sqlglot.Expr Sqlglot.Table
                                                    [("this", Fixture.identifier "ITEM")])]);
                                     ("kind", Sqlglot.Str "INDEX")]])
                  (fun _ => None)
                  "CREATE INDEX idx ON ITEM (PRICE)" _ eq_refl)).
  reflexivity.
Defined.

Lemma extract_inversion
    (parse : string -> option (list Sqlglot.Expression))
    (schema_sql dummy_schema : string) (mapping_dict : Dict.t string) :
  Mapping.extract_and_map_schema parse schema_sql = Some (dummy_schema, mapping_dict) ->
  exists (parsed : list Sqlglot.Expression) (st : Mapping.state),
    parse schema_sql = Some parsed
    /\ foldM Mapping.scan_statement parsed Mapping.initial = Some st
    /\ mapping_dict = Dict.merge (Mapping.table_mapping st) (Mapping.column_mapping st).
Proof.
  unfold Mapping.extract_and_map_schema. intros H.
  destruct (parse schema_sql) as [parsed|]; [|discriminate]. cbn [bind] in H.
  destruct (foldM Mapping.scan_statement parsed Mapping.initial) as [st|] eqn:Hscan;
    [|discriminate]. cbn [bind] in H.
  destruct (Mapping.replace_names (Mapping.table_mapping st) schema_sql) as [t|];
    [|discriminate]. cbn [bind] in H.
  destruct (Mapping.replace_names (Mapping.column_mapping st) t);
    [|discriminate]. cbn [bind] in H.
  injection H as _ <-. exists parsed, st. auto.
Qed.

Lemma dict_get_filter {V : Type} (test : string * V -> bool) (d : Dict.t V) (k : string) :
  NoDup (Dict.keys d) ->
  Dict.get (filter test d) k =
  match Dict.get d k with
  | Some v => if test (k, v) then Some v else None
  | None => None
  end.
Proof.
  induction d as [|[k' v'] d IH]; [reflexivity|]. intros Hnd.
  inversion Hnd as [|? ? Hnin Hnd']; subst. cbn [filter Dict.get].
  destruct (String.eqb k' k) eqn:E.
  - apply String.eqb_eq in E. subst k'.
    destruct (test (k, v')) eqn:Et.
    + cbn [Dict.get]. now rewrite String.eqb_refl.
    + rewrite IH by assumption. apply dict_get_None in Hnin. now rewrite Hnin.
  - destruct (test (k', v')); [cbn [Dict.get]; rewrite E|]; now apply IH.
Qed.

Lemma filter_split {A : Type} (p q : A -> bool) (l : list A) :
  (forall x, In x l -> q x = negb (p x)) ->
  Permutation (filter p l ++ filter q l) l.
Proof.
  induction l as [|x l IH]; intros H; [constructor|].
  cbn [filter]. rewrite (H x) by now left.
  specialize (IH (fun y Hy => H y (or_intror Hy))).
  destruct (p x); cbn [negb app].
  - now constructor.
  - rewrite <- Permutation_middle. now constructor.
Qed.

Lemma merge_In {V : Type} (d1 d2 : Dict.t V) (k : string) (v : V) :
  In (k, v) (Dict.merge d1 d2) -> In (k, v) d1 \/ In (k, v) d2.
Proof.
  unfold Dict.merge. revert d1. induction d2 as [|[k2 v2] d2 IH]; intros d1 H;
    [now left|].
  cbn [fold_left fst snd] in H. apply IH in H as [H|H]; [|right; now right].
  clear IH. induction d1 as [|[k1 v1] d1 IHd]; cbn [Dict.set] in H.
  - destruct H as [H|[]]. right. now left.
  - destruct (String.eqb k1 k2).
    + destruct H as [H|H]; [right; now left|left; now right].
    + destruct H as [H|H]; [left; now left|].
      destruct (IHd H) as [?|?]; [left; now right|now right].
Qed.

(** X11. The mapping the anonymizer returns has no key twice and no empty
    key, and each of its values is [t<i>] or [c<i>].  A lookup gives the
    column dummy name of a column name, and the table dummy name of any other
    table name.  Split by the first letter of the values, as the demo prints
    it, every entry turns up once: under the columns exactly the column
    mapping, under the tables the table names that are no column names. *)
Theorem returned_mapping_shape
    (parse : string -> option (list Sqlglot.Expression))
    (schema_sql dummy_schema : string) (mapping_dict : Dict.t string) :
  Mapping.extract_and_map_schema parse schema_sql = Some (dummy_schema, mapping_dict) ->
  exists (parsed : list Sqlglot.Expression) (st : Mapping.state),
    parse schema_sql = Some parsed
    /\ foldM Mapping.scan_statement parsed Mapping.initial = Some st
    /\ NoDup (Dict.keys mapping_dict)
    /\ (forall k v, In (k, v) mapping_dict ->
          k <> EmptyString
          /\ exists i, v = ("t" ++ Text.str_of_nat i)%string
                       \/ v = ("c" ++ Text.str_of_nat i)%string)
    /\ (forall k,
          Dict.get mapping_dict k =
          match Dict.get (Mapping.column_mapping st) k with
          | Some v => Some v
          | None => Dict.get (Mapping.table_mapping st) k
          end)
    /\ (forall k,
          Dict.get (Demo.columns mapping_dict) k
          = Dict.get (Mapping.column_mapping st) k)
    /\ (forall k,
          Dict.get (Demo.tables mapping_dict) k =
          match Dict.get (Mapping.column_mapping st) k with
          | Some _ => None
          | None => Dict.get (Mapping.table_mapping st) k
          end)
    /\ Permutation (Demo.tables mapping_dict ++ Demo.columns mapping_dict)
                   mapping_dict.
Proof.
  intros H.
  destruct (extract_inversion parse schema_sql dummy_schema mapping_dict H)
    as (parsed & st & Hp & Hscan & Hm).
  exists parsed, st. split; [assumption|]. split; [assumption|].
  destruct (scan_result _ _ Hscan) as [Ht Hc].
  assert (Hndt : NoDup (Dict.keys (Mapping.table_mapping st)))
    by (rewrite Ht, numbered_keys; apply first_occurrences_from_spec).
  assert (Hndc : NoDup (Dict.keys (Mapping.column_mapping st)))
    by (rewrite Hc, numbered_keys; apply first_occurrences_from_spec).
  assert (Hnd : NoDup (Dict.keys mapping_dict))
    by (rewrite Hm; now apply merge_NoDup).
  assert (Hget : forall k,
            Dict.get mapping_dict k =
            match Dict.get (Mapping.column_mapping st) k with
            | Some v => Some v
            | None => Dict.get (Mapping.table_mapping st) k
            end)
    by (intros k; rewrite Hm; now apply merge_get).
  assert (Hvalt : forall k v, In (k, v) (Mapping.table_mapping st) ->
            exists i, v = ("t" ++ Text.str_of_nat i)%string)
    by (intros k v Hin; rewrite Ht in Hin; now apply numbered_In in Hin).
  assert (Hvalc : forall k v, In (k, v) (Mapping.column_mapping st) ->
            exists i, v = ("c" ++ Text.str_of_nat i)%string)
    by (intros k v Hin; rewrite Hc in Hin; now apply numbered_In in Hin).
  split; [assumption|]. split; [|split; [assumption|split; [|split]]].
  - intros k v Hin. rewrite Hm in Hin. apply merge_In in Hin. split.
    + eapply scan_names_nonempty; eassumption.
    + destruct Hin as [Hin|Hin].
      * destruct (Hvalt k v Hin) as [i ->]. exists i. now left.
      * destruct (Hvalc k v Hin) as [i ->]. exists i. now right.
  - intros k. unfold Demo.columns. rewrite dict_get_filter, Hget by assumption.
    destruct (Dict.get (Mapping.column_mapping st) k) as [v|] eqn:Ec.
    + apply dict_get_In in Ec. destruct (Hvalc k v Ec) as [i ->]. reflexivity.
    + destruct (Dict.get (Mapping.table_mapping st) k) as [v|] eqn:Et; [|reflexivity].
      apply dict_get_In in Et. destruct (Hvalt k v Et) as [i ->]. reflexivity.
  - intros k. unfold Demo.tables. rewrite dict_get_filter, Hget by assumption.
    destruct (Dict.get (Mapping.column_mapping st) k) as [v|] eqn:Ec.
    + apply dict_get_In in Ec. destruct (Hvalc k v Ec) as [i ->]. reflexivity.
    + destruct (Dict.get (Mapping.table_mapping st) k) as [v|] eqn:Et; [|reflexivity].
      apply dict_get_In in Et. destruct (Hvalt k v Et) as [i ->]. reflexivity.
  - apply filter_split. intros [k v] Hin. rewrite Hm in Hin.
    apply merge_In in Hin as [Hin|Hin].
    + destruct (Hvalt k v Hin) as [i ->]. reflexivity.
    + destruct (Hvalc k v Hin) as [i ->]. reflexivity.
Qed.

Lemma returned_mapping_shape_witness :
  NoDup (Dict.keys [("ITEM", "c1"); ("PRICE", "c2")])
  /\ Demo.tables [("ITEM", "c1"); ("PRICE", "c2")] = []
  /\ Dict.get (Demo.columns [("ITEM", "c1"); ("PRICE", "c2")]) "ITEM" = Some "c1".
Proof.
  destruct (returned_mapping_shape Fixture.parse Fixture.item_sql
              "CREATE TABLE t1 (t1 INT, c2 INT)"
              [("ITEM", "c1"); ("PRICE", "c2")] eq_refl)
    as (parsed & st & H1 & H2 & Hnd & _ & _ & Hc & _).
  vm_compute in H1. injection H1 as <-.
  vm_compute in H2. injection H2 as <-.
  split; [exact Hnd|]. split; [reflexivity|]. exact (Hc "ITEM").
Defined.

(** ** The textual mapper: when it fails, what it leaves, what it replaces *)

Lemma foldM_none_inv {A B : Type} (step : B -> A -> option B) (xs : list A) :
  forall acc, foldM step xs acc = None ->
  exists x acc', In x xs /\ step acc' x = None.
Proof.
  induction xs as [|y xs IH]; intros acc H; cbn [foldM] in H; [discriminate|].
  destruct (step acc y) as [acc1|] eqn:E; cbn [bind] in H.
  - destruct (IH _ H) as (x & acc' & Hin & Hx). exists x, acc'.
    split; [now right|assumption].
  - exists y, acc. split; [now left|assumption].
Qed.

Lemma foldM_some_none {A B : Type} (step : B -> A -> option B) (xs : list A) (x : A) :
  In x xs -> (forall acc, step acc x = None) -> forall acc, foldM step xs acc = None.
Proof.
  intros Hin Hx. induction xs as [|y xs IH]; intros acc; [destruct Hin|].
  cbn [foldM]. destruct Hin as [->|Hin]; [now rewrite Hx|].
  destruct (step acc y); cbn [bind]; [now apply IH|reflexivity].
Qed.

Lemma substitute_template (text : string) (item : string * string) :
  (Re.parse_template (snd item) = None -> Leetcode.substitute text item = None)
  /\ (Re.parse_template (snd item) <> None ->
      exists out, Leetcode.substitute text item = Some out).
Proof.
  unfold Leetcode.substitute, Leetcode.patterns, Re.sub. cbn [foldM]. split.
  - now intros ->.
  - destruct (Re.parse_template (snd item)); [|contradiction]. intros _.
    cbn [bind]. eauto.
Qed.

(** X12. The textual mapper returns [None] exactly when one of the
    replacement values of its mappings is no valid replacement template,
    whatever the query is; in particular it never fails when no value holds
    a backslash. *)
Theorem fallback_fails_on_bad_template (self : Leetcode.SQLMapper) (sql_query : string) :
  (Leetcode._fallback_mapping self sql_query = None <->
   exists item,
     In item (Leetcode.table_mapping self ++ Leetcode.column_mapping self)
     /\ Re.parse_template (snd item) = None)
  /\ (Forall (fun item => plain (snd item) = true)
             (Leetcode.table_mapping self ++ Leetcode.column_mapping self) ->
      exists mapped, Leetcode._fallback_mapping self sql_query = Some mapped).
Proof.
  assert (Hiff : Leetcode._fallback_mapping self sql_query = None <->
                 exists item,
                   In item (Leetcode.table_mapping self ++ Leetcode.column_mapping self)
                   /\ Re.parse_template (snd item) = None).
  { rewrite fallback_mapping_unfold. split.
    - intros H.
      assert (Hs : forall (m : Dict.t string) text,
                foldM Leetcode.substitute (Dict.sorted_by_len_desc m) text = None ->
                exists item, In item m /\ Re.parse_template (snd item) = None).
      { intros m text Hm. apply foldM_none_inv in Hm as (item & acc & Hin & Hstep).
        exists item. split.
        - eapply Permutation_in; [apply sorted_by_len_desc_perm|exact Hin].
        - destruct (Re.parse_template (snd item)) as [template|] eqn:Et;
            [|reflexivity].
          destruct (proj2 (substitute_template acc item)) as [out Eout];
            congruence. }
      destruct (foldM Leetcode.substitute
                  (Dict.sorted_by_len_desc (Leetcode.table_mapping self)) sql_query)
        as [t|] eqn:Et; cbn [bind] in H.
      + destruct (Hs _ _ H) as (item & Hin & Hbad). exists item.
        split; [apply in_or_app; now right|assumption].
      + destruct (Hs _ _ Et) as (item & Hin & Hbad). exists item.
        split; [apply in_or_app; now left|assumption].
    - intros (item & Hin & Hbad).
      assert (Hnone : forall m : Dict.t string, In item m ->
                forall text, foldM Leetcode.substitute (Dict.sorted_by_len_desc m) text
                             = None).
      { intros m Hm. apply (foldM_some_none _ _ item).
        - eapply Permutation_in; [symmetry; apply sorted_by_len_desc_perm|exact Hm].
        - intros acc. now apply substitute_template. }
      apply in_app_or in Hin as [Hin|Hin].
      + now rewrite (Hnone _ Hin).
      + destruct (foldM _ _ sql_query); cbn [bind]; [now apply Hnone|reflexivity]. }
  split; [exact Hiff|].
  intros Hplain.
  destruct (Leetcode._fallback_mapping self sql_query) as [m|] eqn:E; [eauto|].
  destruct (proj1 Hiff eq_refl) as (item & Hin & Hbad).
  rewrite Forall_forall in Hplain.
  rewrite parse_template_plain in Hbad by now apply Hplain. discriminate.
Qed.

Example fallback_bad_template :
  Leetcode._fallback_mapping
    (Leetcode.init [("users", String Re.backslash "q")] []) "SELECT 1" = None.
Proof. reflexivity. Qed.

Lemma fallback_fails_on_bad_template_witness :
  exists mapped,
    Leetcode._fallback_mapping (Leetcode.init [("users", "t1")] [("id", "c1")])
                               "SELECT id FROM users" = Some mapped.
Proof.
  apply (proj2 (fallback_fails_on_bad_template
                  (Leetcode.init [("users", "t1")] [("id", "c1")])
                  "SELECT id FROM users")).
  repeat constructor.
Defined.

Lemma upper_length (s : string) : String.length (Text.upper s) = String.length s.
Proof. induction s as [|c s IH]; simpl; [reflexivity|now rewrite IH]. Qed.

Lemma upper_app (a b : string) :
  Text.upper (a ++ b) = (Text.upper a ++ Text.upper b)%string.
Proof.
  induction a as [|c a IH]; rewrite ?append_nil, ?append_cons; [reflexivity|].
  cbn [Text.upper]. now rewrite append_cons, IH.
Qed.


Lemma startswith_prefix (p q s : string) :
  Text.startswith (p ++ q) s = true -> Text.startswith p s = true.
Proof.
  revert s. induction p as [|a p IH]; intros s; rewrite ?append_nil, ?append_cons.
  - intros _. now destruct s.
  - destruct s as [|b s]; cbn [Text.startswith]; [discriminate|].
    intros H. apply andb_true_iff in H as [H1 H2]. rewrite H1. now apply IH.
Qed.

Lemma startswith_contains (p s : string) :
  Text.startswith p s = true -> Text.contains p s = true.
Proof. intros H. destruct s; cbn [Text.contains]; now rewrite H. Qed.

Lemma contains_tail (p : string) (c : ascii) (s : string) :
  Text.contains p (String c s) = false -> Text.contains p s = false.
Proof. cbn [Text.contains]. intros H. now apply orb_false_iff in H. Qed.

Lemma match_lit_icase_prefix (lit s : string) (last : option ascii)
    (r : option ascii * string) :
  Re.match_lit true lit s last = Some r ->
  Text.startswith (Text.upper lit) (Text.upper s) = true.
Proof.
  revert s last. induction lit as [|a lit IH]; intros s last H.
  - now destruct s.
  - destruct s as [|b s]; cbn [Re.match_lit] in H; [discriminate|].
    destruct (Re.same_char true a b) eqn:E; [|discriminate].
    cbn [Text.upper Text.startswith]. unfold Re.same_char in E. rewrite E.
    exact (IH _ _ H).
Qed.

(** Where one of the three patterns of a name matches, the text holds the
    name, up to case. *)
Lemma pattern_match_contains (name : string) (p : Re.pattern)
    (prev : option ascii) (s : string) (n : nat) :
  In p (Leetcode.patterns name) ->
  Re.match_at p true prev s = Some n ->
  Text.contains (Text.upper name) (Text.upper s) = true.
Proof.
  intros Hp H. unfold Re.match_at in H.
  destruct (Re.bounded p && negb (Re.boundary prev (Re.head s))); [discriminate|].
  destruct (Re.match_lit true (Re.literal p) s prev) as [r|] eqn:M; [|discriminate].
  clear H.
  assert (Hq : forall q,
            Re.match_lit true (Re.literal (Re.quoted q name)) s prev = Some r ->
            Text.contains (Text.upper name) (Text.upper s) = true).
  { intros q Mq. cbn [Re.literal Re.quoted] in Mq.
    destruct s as [|b s]; cbn [Re.match_lit] in Mq; [discriminate|].
    destruct (Re.same_char true q b); [|discriminate].
    apply match_lit_icase_prefix in Mq. rewrite upper_app in Mq.
    apply startswith_prefix, startswith_contains in Mq.
    cbn [Text.upper Text.contains]. rewrite Mq. apply orb_true_r. }
  destruct Hp as [<-|[<-|[<-|[]]]].
  - apply startswith_contains. cbn [Re.literal Re.word] in M.
    eapply match_lit_icase_prefix; eassumption.
  - eapply Hq; eassumption.
  - eapply Hq; eassumption.
Qed.

(** A scan that finds no match gives the text back. *)
Lemma sub_from_unchanged (p : Re.pattern) (icase : bool) (t : list Re.titem)
    (ok : string -> Prop) :
  (forall c s, ok (String c s) -> ok s) ->
  (forall prev s, ok s -> Re.match_at p icase prev s = None) ->
  forall s prev, ok s -> Re.sub_from p icase t prev 0 s = s.
Proof.
  intros Htail Hnone. induction s as [|c s IH]; intros prev Hok;
    cbn [Re.sub_from]; rewrite (Hnone prev _ Hok); [reflexivity|].
  f_equal. apply IH. eapply Htail; eassumption.
Qed.

Lemma substitute_no_occurrence (text : string) (item : string * string) :
  Re.parse_template (snd item) <> None ->
  icontains (fst item) text = false ->
  Leetcode.substitute text item = Some text.
Proof.
  intros Ht Hno.
  assert (Hsub : forall p, In p (Leetcode.patterns (fst item)) ->
            Re.sub p true (snd item) text = Some text).
  { intros p Hp. unfold Re.sub.
    destruct (Re.parse_template (snd item)) as [t|]; [|contradiction].
    cbn [bind]. f_equal.
    apply (sub_from_unchanged p true t
             (fun s => Text.contains (Text.upper (fst item)) (Text.upper s) = false)).
    - intros c s. cbn [Text.upper]. apply contains_tail.
    - intros prev s Hs. destruct (Re.match_at p true prev s) eqn:M; [|reflexivity].
      rewrite (pattern_match_contains _ _ _ _ _ Hp M) in Hs. discriminate.
    - exact Hno. }
  unfold Leetcode.substitute. unfold Leetcode.patterns in *. cbn [foldM].
  rewrite Hsub by (left; reflexivity). cbn [bind].
  rewrite Hsub by (right; left; reflexivity). cbn [bind].
  rewrite Hsub by (right; right; left; reflexivity). reflexivity.
Qed.

Lemma foldM_fixed {A B : Type} (step : B -> A -> option B) (xs : list A) (acc : B) :
  Forall (fun x => step acc x = Some acc) xs -> foldM step xs acc = Some acc.
Proof.
  induction 1 as [|x xs Hx _ IH]; cbn [foldM]; [reflexivity|].
  now rewrite Hx.
Qed.

(** X13. A query that holds none of the names of the mappings, in whatever
    case and whether as a word or inside one, is returned as it is by the
    textual mapper (when every replacement value is a valid template): no
    substitution invents a match. *)
Theorem fallback_leaves_text_without_names
    (self : Leetcode.SQLMapper) (sql_query : string) :
  Forall (fun item => Re.parse_template (snd item) <> None
                      /\ icontains (fst item) sql_query = false)
         (Leetcode.table_mapping self ++ Leetcode.column_mapping self) ->
  Leetcode._fallback_mapping self sql_query = Some sql_query
  /\ forall pretty, Leetcode.map_sql_query self sql_query pretty = Some sql_query.
Proof.
  intros H. apply Forall_app in H as [Ht Hc].
  assert (Hfold : forall m : Dict.t string,
            Forall (fun item => Re.parse_template (snd item) <> None
                                /\ icontains (fst item) sql_query = false) m ->
            foldM Leetcode.substitute (Dict.sorted_by_len_desc m) sql_query
            = Some sql_query).
  { intros m Hm. apply foldM_fixed. apply Forall_forall. intros item Hin.
    rewrite Forall_forall in Hm.
    destruct (Hm item) as [H1 H2].
    { eapply Permutation_in; [apply sorted_by_len_desc_perm|exact Hin]. }
    now apply substitute_no_occurrence. }
  assert (Hmapped : Leetcode._fallback_mapping self sql_query = Some sql_query).
  { rewrite fallback_mapping_unfold. rewrite (Hfold _ Ht). cbn [bind].
    exact (Hfold _ Hc). }
  split; [exact Hmapped|]. intros pretty. exact Hmapped.
Qed.

Lemma fallback_leaves_text_without_names_witness :
  Leetcode._fallback_mapping (Leetcode.init [("users", "t1")] [("id", "c1")])
                             "SELECT 1 FROM accounts"
  = Some "SELECT 1 FROM accounts".
Proof.
  apply (fallback_leaves_text_without_names
           (Leetcode.init [("users", "t1")] [("id", "c1")])
           "SELECT 1 FROM accounts").
  repeat constructor; discriminate.
Defined.

Lemma upper_empty (s : string) : Text.upper s = EmptyString -> s = EmptyString.
Proof. now destruct s. Qed.

Lemma match_lit_icase_split (lit s rest : string) (last last' : option ascii) :
  Re.match_lit true lit s last = Some (last', rest) ->
  exists m, s = (m ++ rest)%string
            /\ Text.upper m = Text.upper lit
            /\ last' = last_char m last.
Proof.
  revert s last. induction lit as [|a lit IH]; intros s last H; cbn [Re.match_lit] in H.
  - injection H as -> ->. exists EmptyString. auto.
  - destruct s as [|b s]; [discriminate|].
    destruct (Re.same_char true a b) eqn:E; [|discriminate].
    destruct (IH _ _ H) as (m & -> & Hm & ->).
    exists (String b m). rewrite append_cons. cbn [Text.upper last_char].
    unfold Re.same_char in E. apply Ascii.eqb_eq in E. rewrite E, Hm. auto.
Qed.

Lemma match_at_icase_split (p : Re.pattern) (prev : option ascii) (s : string)
    (k : nat) :
  Re.match_at p true prev s = Some k ->
  exists m rest, s = (m ++ rest)%string
                 /\ Text.upper m = Text.upper (Re.literal p)
                 /\ k = String.length m.
Proof.
  intros H. pose proof (match_at_length _ _ _ _ _ H) as Hk.
  unfold Re.match_at in H.
  destruct (Re.bounded p && negb (Re.boundary prev (Re.head s))); [discriminate|].
  destruct (Re.match_lit true (Re.literal p) s prev) as [[last rest]|] eqn:M;
    [|discriminate].
  destruct (match_lit_icase_split _ _ _ _ _ M) as (m & E & Hm & _).
  exists m, rest. split; [assumption|]. split; [assumption|].
  now rewrite Hk, <- (upper_length (Re.literal p)), <- Hm, upper_length.
Qed.

Lemma match_at_empty_text (p : Re.pattern) (icase : bool) (prev : option ascii) :
  Re.literal p <> EmptyString -> Re.match_at p icase prev EmptyString = None.
Proof.
  intros H. unfold Re.match_at. destruct (_ && _); [reflexivity|].
  destruct (Re.literal p); [contradiction|reflexivity].
Qed.

(** With [re.IGNORECASE] the scan changes the text in this way only: some
    pieces that are the pattern's text up to case are replaced. *)
Lemma sub_from_icase_pieces (p : Re.pattern) (repl : string) (n : nat) :
  Re.literal p <> EmptyString ->
  forall (s : string) (prev : option ascii),
    String.length s <= n ->
    replaces (Re.literal p) repl s (Re.sub_from p true (chars repl) prev 0 s).
Proof.
  intros Hlit. unfold replaces.
  assert (Hempty : forall prev,
            exists (pieces : list (string * string)) (rest : string),
              EmptyString = rebuild (fun matched => matched) pieces rest
              /\ Forall (fun piece => Text.upper (snd piece)
                                      = Text.upper (Re.literal p)) pieces
              /\ Re.sub_from p true (chars repl) prev 0 EmptyString
                 = rebuild (fun _ => repl) pieces rest).
  { intros prev. exists [], EmptyString. split; [reflexivity|]. split; [constructor|].
    cbn [Re.sub_from]. now rewrite match_at_empty_text. }
  induction n as [|n IH]; intros s prev Hlen.
  - destruct s as [|c s]; [apply Hempty|cbn [String.length] in Hlen; lia].
  - destruct s as [|c s0]; [apply Hempty|].
    cbn [String.length] in Hlen. cbn [Re.sub_from].
    destruct (Re.match_at p true prev (String c s0)) as [k|] eqn:M.
    + destruct (match_at_icase_split _ _ _ _ M) as (m & rest & E & Hm & Hk).
      destruct m as [|x m'].
      { symmetry in Hm. apply upper_empty in Hm. contradiction. }
      rewrite append_cons in E. injection E as <- ->.
      cbn [String.length] in Hk. subst k.
      rewrite expand_chars, sub_from_skip.
      destruct (IH rest (last_char m' (Some c))) as (pieces & rest' & E1 & HF & E2).
      { rewrite length_append in Hlen. lia. }
      exists ((EmptyString, String c m') :: pieces), rest'.
      cbn [rebuild]. rewrite !append_nil, append_cons, <- E1, E2.
      split; [reflexivity|]. split; [|reflexivity].
      constructor; assumption.
    + destruct (IH s0 (Some c)) as (pieces & rest' & E1 & HF & E2); [lia|].
      rewrite E2. destruct pieces as [|[before matched] pieces].
      * exists [], (String c rest'). cbn [rebuild] in *. rewrite E1.
        split; [reflexivity|]. split; [constructor|reflexivity].
      * exists ((String c before, matched) :: pieces), rest'.
        cbn [rebuild] in *. rewrite !append_cons, <- E1.
        split; [reflexivity|]. split; [|reflexivity].
        inversion HF; subst. constructor; assumption.
Qed.

Lemma sub_icase_pieces (p : Re.pattern) (repl text : string) :
  Re.literal p <> EmptyString -> plain repl = true ->
  exists out, Re.sub p true repl text = Some out
              /\ replaces (Re.literal p) repl text out.
Proof.
  intros Hlit Hp. unfold Re.sub. rewrite parse_template_plain by assumption.
  cbn [bind]. eexists. split; [reflexivity|].
  exact (sub_from_icase_pieces p repl (String.length text) Hlit text None (le_n _)).
Qed.

(** X14. What the textual mapper does for one name: three substitutions
    in a row, for the name as a word, between backticks and between double
    quotes.  Each changes the text in this way only: pieces that are the
    name (with its quotes) up to the case of the letters are replaced by the
    value, as it is written; everything else is kept. *)
Theorem textual_substitution_pieces (name repl text : string) :
  name <> EmptyString -> plain repl = true ->
  exists t1 t2 out : string,
    Leetcode.substitute text (name, repl) = Some out
    /\ replaces name repl text t1
    /\ replaces (String Re.backtick (name ++ String Re.backtick EmptyString))
                repl t1 t2
    /\ replaces (String Re.dquote (name ++ String Re.dquote EmptyString))
                repl t2 out.
Proof.
  intros Hname Hp.
  destruct (sub_icase_pieces (Re.word name) repl text Hname Hp) as (t1 & E1 & H1).
  destruct (sub_icase_pieces (Re.quoted Re.backtick name) repl t1) as (t2 & E2 & H2);
    [discriminate|assumption|].
  destruct (sub_icase_pieces (Re.quoted Re.dquote name) repl t2) as (out & E3 & H3);
    [discriminate|assumption|].
  exists t1, t2, out. unfold Leetcode.substitute, Leetcode.patterns.
  cbn [foldM fst snd]. rewrite E1. cbn [bind]. rewrite E2. cbn [bind]. rewrite E3.
  auto.
Qed.

Lemma textual_substitution_pieces_witness :
  exists t1 t2 out : string,
    Leetcode.substitute "SELECT Id FROM t" ("ID", "c1") = Some out
    /\ replaces "ID" "c1" "SELECT Id FROM t" t1
    /\ replaces (String Re.backtick ("ID" ++ String Re.backtick EmptyString))
                "c1" t1 t2
    /\ replaces (String Re.dquote ("ID" ++ String Re.dquote EmptyString))
                "c1" t2 out.
Proof.
  apply (textual_substitution_pieces "ID" "c1" "SELECT Id FROM t");
    [discriminate|reflexivity].
Defined.

(** The name between backticks is a word as well, so the first of the
    three substitutions has replaced it, and the backticks stay. *)
Example textual_substitution_any_case :
  Leetcode.substitute "SELECT Id, `iD` FROM t" ("ID", "c1")
  = Some "SELECT c1, `c1` FROM t".
Proof. reflexivity. Qed.












(** The same in a statement: the table [users] takes the dummy name of the
    column [name]. *)
Example fallback_table_value_remapped :
  Leetcode._fallback_mapping
    (Leetcode.init [("users", "name")] [("name", "c1")]) "SELECT name FROM users"
  = Some "SELECT c1 FROM c1".
Proof. reflexivity. Qed.

(** ** The structural mapper: table nodes and columns without a qualifier *)

Lemma isinstance_Expr (node : Sqlglot.Expression) (cls : Sqlglot.Class) :
  Sqlglot.isinstance node cls = true -> exists args, node = Sqlglot.Expr cls args.
Proof.
  destruct node as [c args| | | |]; try discriminate. simpl.
  destruct (Sqlglot.Class_eq_dec c cls) as [->|]; [eauto|discriminate].
Qed.

Lemma table_name_set (args : list (string * Sqlglot.Expression)) (mapped : string) :
  Sqlglot.name (Sqlglot.Expr Sqlglot.Table
                  (Dict.set args "this" (Sqlglot.mk_identifier mapped))) = mapped.
Proof.
  unfold Sqlglot.name, Sqlglot.arg. rewrite dict_get_set_eq. reflexivity.
Qed.

(** A pass that makes no call at a table node, and none at identifiers,
    literals and variables, leaves the table its name, and an identifier as
    its [this]. *)
Lemma table_name_rewritten sets (args : list (string * Sqlglot.Expression)) :
  (forall c a, holds_text c -> sets (Sqlglot.Expr c a) = []) ->
  Sqlglot.isinstance (Sqlglot.arg "this" (Sqlglot.Expr Sqlglot.Table args))
                     Sqlglot.Identifier = true ->
  Sqlglot.name (Sqlglot.Expr Sqlglot.Table (map (rewritten_arg sets) args))
  = Sqlglot.name (Sqlglot.Expr Sqlglot.Table args)
  /\ Sqlglot.isinstance
       (Sqlglot.arg "this" (Sqlglot.Expr Sqlglot.Table (map (rewritten_arg sets) args)))
       Sqlglot.Identifier = true.
Proof.
  intros Hleaf Hid.
  destruct (isinstance_Expr _ _ Hid) as [a Ea].
  unfold Sqlglot.name. rewrite Ea.
  assert (E : Sqlglot.arg "this" (Sqlglot.Expr Sqlglot.Table (map (rewritten_arg sets) args))
              = Sqlglot.Expr Sqlglot.Identifier (map (rewritten_arg sets) a)).
  { unfold Sqlglot.arg in *. rewrite dict_get_map_rewritten.
    destruct (Dict.get args "this") as [v|]; [|discriminate]. subst v.
    cbn [option_map rewritten_val]. rewrite rewritten_Expr.
    rewrite Hleaf by (left; reflexivity). reflexivity. }
  rewrite E. cbn [Sqlglot.is_func]. split; [|reflexivity].
  now apply text_rewritten_args.
Qed.

Lemma table_node_mapped self (node : Sqlglot.Expression) :
  Sqlglot.isinstance node Sqlglot.Table = true ->
  Sqlglot.isinstance (Sqlglot.arg "this" node) Sqlglot.Identifier = true ->
  Sqlglot.isinstance (mapped_tree self node) Sqlglot.Table = true
  /\ Sqlglot.name (mapped_tree self node)
     = renamed (Bird.table_mapping self) (Sqlglot.name node)
  /\ (forall mapped,
        Dict.get (Bird.table_mapping self) (Text.upper (Sqlglot.name node))
        = Some mapped ->
        Sqlglot.arg "this" (mapped_tree self node) = Sqlglot.mk_identifier mapped)
  /\ (forall key, key <> "this" ->
        Sqlglot.text key (mapped_tree self node) = Sqlglot.text key node).
Proof.
  intros Ht Hid. destruct (isinstance_Expr _ _ Ht) as [args ->].
  destruct (table_name_rewritten (table_sets self) args
              (table_sets_holds_text self) Hid) as [Hn1 Hid1].
  pose proof (fun key => text_rewritten_args (table_sets self) key Sqlglot.Table args
                           (table_sets_holds_text self)) as Htext1.
  unfold mapped_tree, renamed.
  rewrite (rewritten_Expr (table_sets self)), apply_sets_Expr.
  set (args1 := map (rewritten_arg (table_sets self)) args) in *.
  assert (Hsets : table_sets self (Sqlglot.Expr Sqlglot.Table args) =
                  match Dict.get (Bird.table_mapping self)
                          (Text.upper (Sqlglot.name (Sqlglot.Expr Sqlglot.Table args)))
                  with
                  | Some mapped => [("this", mapped)]
                  | None => []
                  end) by reflexivity.
  rewrite Hsets. clear Hsets.
  assert (Hpass2 : forall args2,
            Sqlglot.isinstance (Sqlglot.arg "this" (Sqlglot.Expr Sqlglot.Table args2))
                               Sqlglot.Identifier = true ->
            rewritten (column_sets self) (Sqlglot.Expr Sqlglot.Table args2)
            = Sqlglot.Expr Sqlglot.Table (map (rewritten_arg (column_sets self)) args2)
            /\ Sqlglot.name (rewritten (column_sets self)
                               (Sqlglot.Expr Sqlglot.Table args2))
               = Sqlglot.name (Sqlglot.Expr Sqlglot.Table args2)
            /\ forall key,
                 Sqlglot.text key (rewritten (column_sets self)
                                     (Sqlglot.Expr Sqlglot.Table args2))
                 = Sqlglot.text key (Sqlglot.Expr Sqlglot.Table args2)).
  { intros args2 Hid2.
    assert (E : rewritten (column_sets self) (Sqlglot.Expr Sqlglot.Table args2)
                = Sqlglot.Expr Sqlglot.Table
                    (map (rewritten_arg (column_sets self)) args2)) by reflexivity.
    rewrite E. split; [reflexivity|]. split.
    - apply table_name_rewritten; [apply column_sets_holds_text|assumption].
    - intros key. apply text_rewritten_args, column_sets_holds_text. }
  destruct (Dict.get (Bird.table_mapping self)
              (Text.upper (Sqlglot.name (Sqlglot.Expr Sqlglot.Table args))))
    as [mapped|] eqn:Eget.
  - cbn [set_all fold_left fst snd].
    destruct (Hpass2 (Dict.set args1 "this" (Sqlglot.mk_identifier mapped)))
      as (E2 & Hn2 & Htext2).
    { unfold Sqlglot.arg. now rewrite dict_get_set_eq. }
    split; [now rewrite E2|]. split; [now rewrite Hn2, table_name_set|]. split.
    + intros mapped' [= <-]. rewrite E2. unfold Sqlglot.arg.
      rewrite dict_get_map_rewritten, dict_get_set_eq. reflexivity.
    + intros key Hkey. rewrite Htext2, <- Htext1.
      apply (text_set_ne key "this" (Sqlglot.mk_identifier mapped)
               (Sqlglot.Expr Sqlglot.Table args1)).
      congruence.
  - cbn [set_all fold_left].
    destruct (Hpass2 args1 Hid1) as (E2 & Hn2 & Htext2).
    split; [now rewrite E2|]. split; [now rewrite Hn2|]. split; [discriminate|].
    intros key _. rewrite Htext2. apply Htext1.
Qed.

(** X16. When the statement parses, a table node (whose name is an
    identifier) that neither pass has removed is a table node of the tree
    the text is generated from.  Its name is what the table mapping gives
    for the upper-cased name, or the name as it was; the column mapping
    plays no part.  A replaced name is a plain identifier holding the
    value, and whatever else the table node holds as text (its schema, its
    alias) is as it was parsed. *)
Theorem table_node_takes_mapped_name
    (parse_one : string -> option Sqlglot.Expression)
    (sql : Sqlglot.Expression -> bool -> option string) (limit : nat)
    (self : Bird.SQLMapper) (sql_query : string) (pretty : bool)
    (parsed : Sqlglot.Expression) :
  parse_one sql_query = Some parsed ->
  Sqlglot.depth parsed + 1 < limit ->
  Bird.map_sql_query parse_one sql limit self sql_query pretty
  = sql (mapped_tree self parsed) pretty
  /\ forall node : Sqlglot.Expression,
       kept (replaced self) node parsed ->
       Sqlglot.isinstance node Sqlglot.Table = true ->
       Sqlglot.isinstance (Sqlglot.arg "this" node) Sqlglot.Identifier = true ->
       subnode (mapped_tree self node) (mapped_tree self parsed)
       /\ Sqlglot.isinstance (mapped_tree self node) Sqlglot.Table = true
       /\ Sqlglot.name (mapped_tree self node)
          = match Dict.get (Bird.table_mapping self)
                           (Text.upper (Sqlglot.name node)) with
            | Some mapped => mapped
            | None => Sqlglot.name node
            end
       /\ (forall mapped,
             Dict.get (Bird.table_mapping self) (Text.upper (Sqlglot.name node))
             = Some mapped ->
             Sqlglot.arg "this" (mapped_tree self node) = Sqlglot.mk_identifier mapped)
       /\ (forall key, key <> "this" ->
             Sqlglot.text key (mapped_tree self node) = Sqlglot.text key node).
Proof.
  intros Hp Hd.
  destruct (map_sql_query_mapped_tree parse_one sql limit self sql_query pretty
              parsed Hp Hd) as (_ & _ & H3).
  split; [assumption|]. intros node Hk Ht Hid.
  split; [now apply kept_mapped_tree|].
  exact (table_node_mapped self node Ht Hid).
Qed.

Lemma table_node_takes_mapped_name_witness :
  Sqlglot.name
    (mapped_tree (Bird.init [("t", "t1")] [("c", "c1")])
       (Sqlglot.Expr Sqlglot.Table [("this", Fixture.identifier "T")])) = "t1"
  /\ Sqlglot.arg "this"
       (mapped_tree (Bird.init [("t", "t1")] [("c", "c1")])
          (Sqlglot.Expr Sqlglot.Table [("this", Fixture.identifier "T")]))
     = Sqlglot.mk_identifier "t1".
Proof.
  destruct (table_node_takes_mapped_name
              BirdFixture.parse_one BirdFixture.sql BirdFixture.limit
              (Bird.init [("t", "t1")] [("c", "c1")]) BirdFixture.qualified_sql false
              (BirdFixture.select [BirdFixture.column "T" "C"] "T")
              eq_refl)
    as (_ & H).
  { vm_compute. lia. }
  destruct (H (Sqlglot.Expr Sqlglot.Table [("this", Fixture.identifier "T")]))
    as (_ & _ & Hn & Hthis & _).
  - apply (kept_below _ _ (Sqlglot.Other "Select")
             [("expressions", Sqlglot.Seq [BirdFixture.column "T" "C"]);
              ("from", Sqlglot.Expr (Sqlglot.Other "From")
                         [("this", Sqlglot.Expr Sqlglot.Table
                                     [("this", Fixture.identifier "T")])])]
             "from"
             (Sqlglot.Expr (Sqlglot.Other "From")
                [("this", Sqlglot.Expr Sqlglot.Table
                            [("this", Fixture.identifier "T")])])
             (Sqlglot.Expr (Sqlglot.Other "From")
                [("this", Sqlglot.Expr Sqlglot.Table
                            [("this", Fixture.identifier "T")])])).
    + right. left. reflexivity.
    + vm_compute. tauto.
    + left. reflexivity.
    + apply (kept_below _ _ (Sqlglot.Other "From")
               [("this", Sqlglot.Expr Sqlglot.Table
                           [("this", Fixture.identifier "T")])]
               "this"
               (Sqlglot.Expr Sqlglot.Table [("this", Fixture.identifier "T")])
               (Sqlglot.Expr Sqlglot.Table [("this", Fixture.identifier "T")])).
      * left. reflexivity.
      * vm_compute. tauto.
      * left. reflexivity.
      * apply kept_here.
  - reflexivity.
  - reflexivity.
  - split; [rewrite Hn; reflexivity|]. apply Hthis. reflexivity.
Defined.

Lemma unqualified_column_mapped self (node : Sqlglot.Expression) :
  Sqlglot.isinstance node Sqlglot.Column = true ->
  Sqlglot.table node = EmptyString ->
  Sqlglot.isinstance (mapped_tree self node) Sqlglot.Column = true
  /\ Sqlglot.table (mapped_tree self node) = EmptyString
  /\ Sqlglot.name (mapped_tree self node)
     = renamed (Bird.column_mapping self) (Sqlglot.name node).
Proof.
  intros Hc Ht. unfold mapped_tree.
  pose proof (column_sets_after_table_pass self node) as Hsets.
  destruct (table_pass_keeps_column self node Hc) as (H1 & H2 & H3).
  destruct (isinstance_Column_Expr _ H1) as [args1 E1].
  rewrite E1 in *. rewrite rewritten_Expr, Hsets.
  assert (Htext : forall key,
             Sqlglot.text key (Sqlglot.Expr Sqlglot.Column
                                 (map (rewritten_arg (column_sets self)) args1))
             = Sqlglot.text key node).
  { intros key. rewrite text_rewritten_args by apply column_sets_holds_text.
    destruct (isinstance_Column_Expr _ Hc) as [args ->].
    rewrite rewritten_Expr, table_sets_not_Table in E1 by reflexivity.
    cbn [apply_sets fold_left] in E1. rewrite <- E1.
    apply text_rewritten_args, table_sets_holds_text. }
  assert (Hne : forall key k v args,
             k <> key ->
             Sqlglot.text key (Sqlglot.Expr Sqlglot.Column (Dict.set args k v))
             = Sqlglot.text key (Sqlglot.Expr Sqlglot.Column args)).
  { intros key k v args Hk.
    exact (text_set_ne key k v (Sqlglot.Expr Sqlglot.Column args) Hk). }
  assert (Heq : forall key name args,
             Sqlglot.text key (Sqlglot.Expr Sqlglot.Column
                                 (Dict.set args key (Sqlglot.mk_identifier name)))
             = name).
  { intros key name args.
    exact (text_set_identifier key name (Sqlglot.Expr Sqlglot.Column args) eq_refl). }
  assert (Hcs : column_sets self node =
                match Dict.get (Bird.column_mapping self)
                        (Text.upper (Sqlglot.name node)) with
                | Some mapped => [("this", mapped)]
                | None => []
                end).
  { unfold column_sets. now rewrite Hc, Ht. }
  rewrite Hcs. unfold renamed.
  rewrite (isinstance_Column_name node Hc) in *.
  destruct (Dict.get (Bird.column_mapping self) _) as [c'|];
    unfold apply_sets; simpl fold_left;
    (split; [reflexivity|]); unfold Sqlglot.table in *; cbn [Sqlglot.name].
  - rewrite Heq, Hne by discriminate. split; [now rewrite Htext|reflexivity].
  - split; [now rewrite Htext|apply Htext].
Qed.

(** X17. A column node without a qualifier that neither pass has removed
    stays without one, whatever the table mapping holds (the empty name as a
    key too): only its name is looked up, in the column mapping, and it ends
    as the value found there or as it was. *)
Theorem unqualified_column_stays_unqualified
    (parse_one : string -> option Sqlglot.Expression)
    (sql : Sqlglot.Expression -> bool -> option string) (limit : nat)
    (self : Bird.SQLMapper) (sql_query : string) (pretty : bool)
    (parsed : Sqlglot.Expression) :
  parse_one sql_query = Some parsed ->
  Sqlglot.depth parsed + 1 < limit ->
  Bird.map_sql_query parse_one sql limit self sql_query pretty
  = sql (mapped_tree self parsed) pretty
  /\ forall node : Sqlglot.Expression,
       kept (replaced self) node parsed ->
       Sqlglot.isinstance node Sqlglot.Column = true ->
       Sqlglot.table node = EmptyString ->
       subnode (mapped_tree self node) (mapped_tree self parsed)
       /\ Sqlglot.isinstance (mapped_tree self node) Sqlglot.Column = true
       /\ Sqlglot.table (mapped_tree self node) = EmptyString
       /\ Sqlglot.name (mapped_tree self node)
          = match Dict.get (Bird.column_mapping self)
                           (Text.upper (Sqlglot.name node)) with
            | Some mapped => mapped
            | None => Sqlglot.name node
            end.
Proof.
  intros Hp Hd.
  destruct (map_sql_query_mapped_tree parse_one sql limit self sql_query pretty
              parsed Hp Hd) as (_ & _ & H3).
  split; [assumption|]. intros node Hk Hc Ht.
  split; [now apply kept_mapped_tree|].
  exact (unqualified_column_mapped self node Hc Ht).
Qed.

Lemma unqualified_column_stays_unqualified_witness :
  Sqlglot.table
    (mapped_tree (Bird.init [("", "t0"); ("t", "t1")] [("a", "c1")])
                 (BirdFixture.column "" "a")) = EmptyString
  /\ Sqlglot.name
       (mapped_tree (Bird.init [("", "t0"); ("t", "t1")] [("a", "c1")])
                    (BirdFixture.column "" "a")) = "c1".
Proof.
  destruct (unqualified_column_stays_unqualified
              BirdFixture.parse_one BirdFixture.sql BirdFixture.limit
              (Bird.init [("", "t0"); ("t", "t1")] [("a", "c1")])
              BirdFixture.lowercase_sql false
              (BirdFixture.select [BirdFixture.column "" "a"] "t")
              eq_refl)
    as (_ & H).
  { vm_compute. lia. }
  destruct (H (BirdFixture.column "" "a")) as (_ & _ & Hq & Hn).
  - apply (kept_below _ _ (Sqlglot.Other "Select")
             [("expressions", Sqlglot.Seq [BirdFixture.column "" "a"]);
              ("from", Sqlglot.Expr (Sqlglot.Other "From")
                         [("this", Sqlglot.Expr Sqlglot.Table
                                     [("this", Fixture.identifier "t")])])]
             "expressions"
             (Sqlglot.Seq [BirdFixture.column "" "a"])
             (BirdFixture.column "" "a")).
    + left. reflexivity.
    + vm_compute. tauto.
    + left. reflexivity.
    + apply kept_here.
  - reflexivity.
  - reflexivity.
  - split; [exact Hq|]. rewrite Hn. reflexivity.
Defined.

Example map_unqualified_column :
  Bird.map_sql_query BirdFixture.parse_one BirdFixture.sql BirdFixture.limit
    (Bird.init [("", "t0"); ("t", "t1")] [("a", "c1")]) "select a from t" false
  = Some "SELECT c1 FROM t1".
Proof. vm_compute. reflexivity. Qed.

(** ** [extract_db_id] *)

Lemma split_nonempty (sep : ascii) (s : string) : Pathlib.split sep s <> [].
Proof.
  destruct s as [|c s]; cbn [Pathlib.split]; [discriminate|].
  destruct (Ascii.eqb c sep); [discriminate|].
  destruct (Pathlib.split sep s); discriminate.
Qed.

Lemma split_app (sep : ascii) (a b : string) :
  Pathlib.split sep (a ++ String sep b)
  = Pathlib.split sep a ++ Pathlib.split sep b.
Proof.
  induction a as [|c a IH]; rewrite ?append_nil, ?append_cons; cbn [Pathlib.split].
  - now rewrite Ascii.eqb_refl.
  - rewrite IH. destruct (Ascii.eqb c sep); [reflexivity|].
    pose proof (split_nonempty sep a) as Hne.
    destruct (Pathlib.split sep a) as [|x xs]; [contradiction|reflexivity].
Qed.

Lemma split_no_sep (sep : ascii) (s : string) :
  no_char sep s = true -> Pathlib.split sep s = [s].
Proof.
  induction s as [|c s IH]; [reflexivity|]. cbn [no_char Pathlib.split].
  intros H. apply andb_true_iff in H as [Hc Hs].
  apply negb_true_iff in Hc. now rewrite Hc, IH.
Qed.

Lemma no_char_app (c : ascii) (a b : string) :
  no_char c (a ++ b) = no_char c a && no_char c b.
Proof.
  induction a as [|x a IH]; rewrite ?append_nil, ?append_cons; [reflexivity|].
  cbn [no_char]. now rewrite IH, andb_assoc.
Qed.

(** The directories before a name play no part. *)
Lemma name_of_path (dir name : string) :
  no_char "/" name = true -> name <> EmptyString -> name <> "." ->
  Pathlib.name name = name
  /\ Pathlib.name (dir ++ String "/" name) = name.
Proof.
  intros Hs Hne Hdot.
  assert (Hkeep : negb (String.eqb name EmptyString) && negb (String.eqb name ".")
                  = true).
  { apply andb_true_iff. split; apply negb_true_iff, String.eqb_neq; assumption. }
  unfold Pathlib.name, Pathlib.parts. split.
  - rewrite split_no_sep by assumption. cbn [filter]. now rewrite Hkeep.
  - rewrite split_app, filter_app, (split_no_sep "/" name Hs).
    cbn [filter]. rewrite Hkeep. apply last_last.
Qed.

Lemma rfind_dot_none (s : string) :
  no_char "." s = true -> Pathlib.rfind_dot s = None.
Proof.
  induction s as [|c s IH]; [reflexivity|]. cbn [no_char Pathlib.rfind_dot].
  intros H. apply andb_true_iff in H as [Hc Hs].
  apply negb_true_iff in Hc. now rewrite IH, Hc.
Qed.

Lemma rfind_dot_last (base ext : string) :
  no_char "." ext = true ->
  Pathlib.rfind_dot (base ++ String "." ext) = Some (base, ext).
Proof.
  intros H. induction base as [|c base IH]; rewrite ?append_nil, ?append_cons;
    cbn [Pathlib.rfind_dot].
  - now rewrite rfind_dot_none.
  - now rewrite IH.
Qed.

(** X18. The database identifier taken from a file path is the name of
    the file without its last extension: for a file [base.ext] (where [ext]
    holds no dot, and [base] does not start with one) it is [base], with or
    without directories before it, and whatever dots [base] holds; a file
    name without any dot is the identifier as it is. *)
Theorem extract_db_id_is_base_name (dir base ext : string) :
  base <> EmptyString -> Text.startswith "." base = false ->
  no_char "/" base = true ->
  (ext <> EmptyString -> no_char "/" ext = true -> no_char "." ext = true ->
   Convert.extract_db_id (base ++ String "." ext) = base
   /\ Convert.extract_db_id (dir ++ String "/" (base ++ String "." ext)) = base)
  /\ (no_char "." base = true ->
      Convert.extract_db_id base = base
      /\ Convert.extract_db_id (dir ++ String "/" base) = base).
Proof.
  intros Hbase Hstart Hslash.
  destruct base as [|c base]; [contradiction|]. clear Hbase.
  assert (Hc : c <> "."%char).
  { intros ->. discriminate Hstart. }
  split.
  - intros Hext Hes Hed. destruct ext as [|e ext]; [contradiction|]. clear Hext.
    destruct (name_of_path dir (String c base ++ String "." (String e ext))) as [N1 N2].
    + rewrite no_char_app, Hslash. cbn [no_char andb] in *. now rewrite Hes.
    + rewrite append_cons. discriminate.
    + rewrite append_cons. intros [= E _]. contradiction.
    + unfold Convert.extract_db_id, Pathlib.stem. rewrite N1, N2.
      rewrite rfind_dot_last by assumption. split; reflexivity.
  - intros Hd.
    destruct (name_of_path dir (String c base)) as [N1 N2];
      [assumption|discriminate|intros [= E _]; contradiction|].
    unfold Convert.extract_db_id, Pathlib.stem. rewrite N1, N2.
    rewrite rfind_dot_none by assumption. split; reflexivity.
Qed.

Lemma extract_db_id_is_base_name_witness :
  Convert.extract_db_id "benchmark/leetcode/raw_data/175.csv" = "175".
Proof.
  destruct (extract_db_id_is_base_name "benchmark/leetcode/raw_data" "175" "csv")
    as [H _]; [discriminate|reflexivity|reflexivity|].
  destruct H as [_ H]; [discriminate|reflexivity|reflexivity|].
  exact H.
Defined.

(** The last extension only is taken off, and trailing slashes do not
    count. *)
Example extract_db_id_examples :
  Convert.extract_db_id "raw_data/175.tar.gz" = "175.tar"
  /\ Convert.extract_db_id "raw_data/175.csv/" = "175"
  /\ Convert.extract_db_id "raw_data/.hidden" = ".hidden".
Proof. repeat split; reflexivity. Qed.

(** ** The textual driver: no failed query without a backslash *)

Lemma fallback_none_inv (self : Leetcode.SQLMapper) (sql_query : string) :
  Leetcode._fallback_mapping self sql_query = None ->
  exists item,
    In item (Leetcode.table_mapping self ++ Leetcode.column_mapping self)
    /\ Re.parse_template (snd item) = None.
Proof.
  rewrite fallback_mapping_unfold. intros H.
  assert (Hs : forall (m : Dict.t string) text,
            foldM Leetcode.substitute (Dict.sorted_by_len_desc m) text = None ->
            exists item, In item m /\ Re.parse_template (snd item) = None).
  { intros m text Hm. apply foldM_none_inv in Hm as (item & acc & Hin & Hstep).
    exists item. split.
    - eapply Permutation_in; [apply sorted_by_len_desc_perm|exact Hin].
    - destruct (Re.parse_template (snd item)) as [template|] eqn:Et; [|reflexivity].
      destruct (proj2 (substitute_template acc item)) as [out Eout]; congruence. }
  destruct (foldM Leetcode.substitute
              (Dict.sorted_by_len_desc (Leetcode.table_mapping self)) sql_query)
    as [t|] eqn:Et; cbn [bind] in H.
  - destruct (Hs _ _ H) as (item & Hin & Hbad). exists item.
    split; [apply in_or_app; now right|assumption].
  - destruct (Hs _ _ Et) as (item & Hin & Hbad). exists item.
    split; [apply in_or_app; now left|assumption].
Qed.

(** Construction keeps the values: each value of the mapper is a value the
    caller supplied. *)
Lemma upper_keys_values (P : string -> Prop) (d0 : Dict.t string) :
  Forall (fun item => P (snd item)) d0 ->
  Forall (fun item => P (snd item)) (Leetcode.upper_keys d0).
Proof.
  intros H. destruct (fold_upper_normalized d0) as (_ & Hnd & _ & Horigin & _).
  apply Forall_forall. intros [k v] Hin.
  apply (dict_In_get _ _ _ Hnd) in Hin.
  destruct (Horigin k v Hin) as (k0 & Hin0 & _).
  rewrite Forall_forall in H. exact (H (k0, v) Hin0).
Qed.

Lemma filter_none {A : Type} (test : A -> bool) (l : list A) :
  (forall x, In x l -> test x = false) -> length (filter test l) = 0.
Proof.
  induction l as [|x l IH]; intros H; [reflexivity|]. cbn [filter].
  rewrite (H x) by now left. apply IH. intros y Hy. apply H. now right.
Qed.

(** X19. When no replacement value of the persisted mappings holds a
    backslash, the textual driver maps every query: each row with a
    non-empty query has a mapped text in the derived field, and the count of
    failed queries the script prints is zero. *)
Theorem textual_driver_maps_every_query
    (schemas_data : Frame.Schemas) (df : list Frame.Row) :
  (forall dbid tables columns,
      Dict.get schemas_data dbid = Some (tables, columns) ->
      Forall (fun item => plain (snd item) = true) (tables ++ columns)) ->
  let l := Leetcode.process_bird_csv schemas_data df in
  Forall (fun r =>
            (Frame.truthy (Frame.q1 r) = true -> Frame.q1_mapped r <> None)
            /\ (Frame.truthy (Frame.q2 r) = true -> Frame.q2_mapped r <> None)) l
  /\ ((forall row, In row df -> Frame.q1 row <> Some EmptyString) ->
      Stats.q1_failed_count l = 0)
  /\ ((forall row, In row df -> Frame.q2 row <> Some EmptyString) ->
      Stats.q2_failed_count l = 0).
Proof.
  intros Hplain l.
  assert (Hmapper : forall row q,
            Leetcode._fallback_mapping (leetcode_mapper schemas_data row) q <> None).
  { intros row q Hnone. apply fallback_none_inv in Hnone as (item & Hin & Hbad).
    assert (Hall : Forall (fun item => plain (snd item) = true)
                     (Leetcode.table_mapping (leetcode_mapper schemas_data row)
                      ++ Leetcode.column_mapping (leetcode_mapper schemas_data row))).
    { unfold leetcode_mapper.
      destruct (Dict.get schemas_data (Frame.dbid row)) as [[tables columns]|] eqn:E.
      - pose proof (Hplain _ _ _ E) as Hp. apply Forall_app in Hp as [Ht Hc].
        cbn [Leetcode.init Leetcode.table_mapping Leetcode.column_mapping].
        apply Forall_app. split;
          apply (upper_keys_values (fun v => plain v = true)); assumption.
      - constructor. }
    rewrite Forall_forall in Hall.
    rewrite parse_template_plain in Hbad by exact (Hall item Hin). discriminate. }
  assert (Hrow : forall row,
            let r := Leetcode.process_row schemas_data row in
            (Frame.truthy (Frame.q1 r) = true -> Frame.q1_mapped r <> None)
            /\ (Frame.truthy (Frame.q2 r) = true -> Frame.q2_mapped r <> None)).
  { intros row r.
    destruct (process_row_sources (fun _ => None) (fun _ _ => None) 0 schemas_data row)
      as (_ & _ & E1 & E2).
    fold r in E1, E2. rewrite E1, E2. split; intros Htruthy.
    - destruct (Frame.q1 row) as [[|c q]|] eqn:Eq; try discriminate.
      unfold r. rewrite (leetcode_row_q1 schemas_data row (String c q) Eq)
        by discriminate.
      apply Hmapper.
    - destruct (Frame.q2 row) as [[|c q]|] eqn:Eq; try discriminate.
      unfold r. rewrite (leetcode_row_q2 schemas_data row (String c q) Eq)
        by discriminate.
      apply Hmapper. }
  assert (El : l = map (Leetcode.process_row schemas_data) df)
    by apply iterrows_map.
  split; [|split].
  - rewrite El. apply Forall_forall. intros r Hr.
    apply in_map_iff in Hr as (row & <- & _). apply Hrow.
  - intros Hne. unfold Stats.q1_failed_count, Stats.count. apply filter_none.
    intros r Hr. rewrite El in Hr. apply in_map_iff in Hr as (row & <- & Hin).
    destruct (Hrow row) as [H1 _].
    destruct (process_row_sources (fun _ => None) (fun _ _ => None) 0 schemas_data row)
      as (_ & _ & E1 & _).
    cbn zeta in E1, H1. rewrite E1 in *.
    destruct (Frame.q1 row) as [[|c q]|] eqn:Eq; [| |reflexivity].
    + exfalso. now apply (Hne row Hin).
    + specialize (H1 eq_refl).
      destruct (Frame.q1_mapped (Leetcode.process_row schemas_data row));
        [reflexivity|contradiction].
  - intros Hne. unfold Stats.q2_failed_count, Stats.count. apply filter_none.
    intros r Hr. rewrite El in Hr. apply in_map_iff in Hr as (row & <- & Hin).
    destruct (Hrow row) as [_ H2].
    destruct (process_row_sources (fun _ => None) (fun _ _ => None) 0 schemas_data row)
      as (_ & _ & _ & E2).
    cbn zeta in E2, H2. rewrite E2 in *.
    destruct (Frame.q2 row) as [[|c q]|] eqn:Eq; [| |reflexivity].
    + exfalso. now apply (Hne row Hin).
    + specialize (H2 eq_refl).
      destruct (Frame.q2_mapped (Leetcode.process_row schemas_data row));
        [reflexivity|contradiction].
Qed.

Lemma textual_driver_maps_every_query_witness :
  Stats.q1_failed_count
    (Leetcode.process_bird_csv
       [("db", ([("users", "t1")], [("id", "c1")]))]
       [{| Frame.dbid := "db"; Frame.q1 := Some "SELECT id FROM users";
           Frame.q2 := None; Frame.q1_mapped := None; Frame.q2_mapped := None |}])
  = 0.
Proof.
  assert (Hplain : forall dbid tables columns,
            Dict.get [("db", ([("users", "t1")], [("id", "c1")]))] dbid
            = Some (tables, columns) ->
            Forall (fun item => plain (snd item) = true) (tables ++ columns)).
  { intros dbid tables columns H. cbn [Dict.get] in H.
    destruct (String.eqb "db" dbid); [|discriminate].
    injection H as <- <-. repeat constructor. }
  apply (proj1 (proj2 (textual_driver_maps_every_query
                         [("db", ([("users", "t1")], [("id", "c1")]))]
                         [{| Frame.dbid := "db";
                             Frame.q1 := Some "SELECT id FROM users";
                             Frame.q2 := None; Frame.q1_mapped := None;
                             Frame.q2_mapped := None |}]
                         Hplain))).
  intros row [<-|[]]. discriminate.
Defined.
